(** * Mother: guard, channel store, turn trimming and orchestration

  A shallow embedding of the parts of the Mother Discord agent host
  that its specification makes claims about:

  - [Guard]        (tools/guard.ts): path guard and command guard;
  - [Shell]        the command lines the specification speaks of, for
                   comparison with what the command guard reads;
  - [ChannelStore] (store.ts): the deduplicating [logMessage];
  - [Agent]        (agent.ts): [trimContextByTurns], the health check
                   at the head of [run] and its tail;
  - [Context]      (main.ts): the Discord context adapter;
  - [DiscordBot]   (discord.ts) and [Handler] (main.ts): queues, stop;
  - [AgentText]    (agent.ts): [truncate], [splitForDiscord] and the
                   user message of a run;
  - [Tools]        (tools/index.ts, tools/attach.ts): [createMomTools]
                   and the attach tool;
  - [StoreReads] and [Downloads] (store.ts): [getLastTimestamp] and
                   the download queue;
  - [RateLimiter], [RunProtocol] and [BotRuns] (discord.ts, main.ts):
                   edits, a run seen from Discord, what can happen to
                   the bot;
  - [Workspace], [Memory] and [Skills] (agent.ts): the directories of
                   a channel, memory, notes and skills of the prompt.

  JavaScript strings are modelled as [string]; a character of the
  model is a code unit below 256 (Latin-1), which is what the guards'
  ASCII-only patterns look at. *)

From Stdlib Require Import ZArith Ascii String List Lia Bool.
From stdpp Require Import base option list strings gmap pretty.

Local Open Scope Z_scope.
Local Open Scope nat_scope.

(** stdpp keeps [String.append] folded; the proofs below compute with it. *)
#[local] Arguments String.append !_ _ / : simpl nomatch.

(* ===================================================================== *)
(** ** JavaScript string primitives *)
(* ===================================================================== *)

Module Js.

Definition code (c : ascii) : nat := nat_of_ascii c.

Definition between (lo hi : nat) (c : ascii) : bool :=
  (lo <=? code c) && (code c <=? hi).

(** [WhiteSpace] and [LineTerminator] code units below 256: TAB, LF, VT,
    FF, CR, SP and NBSP.  This is the set of [String.prototype.trim]
    and of the regular expression class [\s]. *)
Definition is_ws (c : ascii) : bool :=
  between 9 13 c || (code c =? 32) || (code c =? 160).

Definition is_digit (c : ascii) : bool := between 48 57 c.
Definition is_upper (c : ascii) : bool := between 65 90 c.
Definition is_lower (c : ascii) : bool := between 97 122 c.
Definition is_alpha (c : ascii) : bool := is_upper c || is_lower c.
(** [\w] without the unicode flag: [A-Za-z0-9_]. *)
Definition is_word (c : ascii) : bool :=
  is_alpha c || is_digit c || (code c =? 95).

Definition is_char (a : ascii) (c : ascii) : bool := Ascii.eqb a c.

Definition isEmpty (s : string) : bool :=
  match s with EmptyString => true | String _ _ => false end.

(** JavaScript truthiness of a string. *)
Definition truthy (s : string) : bool := negb (isEmpty s).

Fixpoint trimStart (s : string) : string :=
  match s with
  | EmptyString => EmptyString
  | String c s' => if is_ws c then trimStart s' else s
  end.

Fixpoint trimEnd (s : string) : string :=
  match s with
  | EmptyString => EmptyString
  | String c s' =>
      let r := trimEnd s' in
      if is_ws c && isEmpty r then EmptyString else String c r
  end.

Definition trim (s : string) : string := trimEnd (trimStart s).

Fixpoint startsWith (s p : string) {struct p} : bool :=
  match p with
  | EmptyString => true
  | String a p' =>
      match s with
      | String b s' => Ascii.eqb a b && startsWith s' p'
      | EmptyString => false
      end
  end.

Fixpoint includes_char (a : ascii) (s : string) : bool :=
  match s with
  | EmptyString => false
  | String c s' => Ascii.eqb a c || includes_char a s'
  end.

(** [s.includes(p)] for a non-empty or empty needle. *)
Fixpoint includes (s p : string) : bool :=
  startsWith s p ||
  match s with
  | EmptyString => false
  | String _ s' => includes s' p
  end.

(** [s.split(sep)] for a separator that matches exactly one character
    (a one-character string, or a one-character class such as [/\s/]).
    The result always has at least one element. *)
Fixpoint split_on (sep : ascii -> bool) (s : string) : list string :=
  match s with
  | EmptyString => [EmptyString]
  | String c s' =>
      if sep c then EmptyString :: split_on sep s'
      else match split_on sep s' with
           | h :: t => String c h :: t
           | [] => [String c EmptyString]
           end
  end.

(** [parts.join(sep)]. *)
Fixpoint join (sep : string) (parts : list string) : string :=
  match parts with
  | [] => EmptyString
  | [p] => p
  | p :: rest => p +:+ sep +:+ join sep rest
  end.

(** [s.substring(0, n)]. *)
Fixpoint substring0 (n : nat) (s : string) : string :=
  match n, s with
  | S n', String c s' => String c (substring0 n' s')
  | _, _ => EmptyString
  end.

(** [s.slice(n)] for [n >= 0]. *)
Fixpoint slice (n : nat) (s : string) : string :=
  match n, s with
  | S n', String _ s' => slice n' s'
  | _, _ => s
  end.

Definition lower_char (c : ascii) : ascii :=
  if is_upper c || (between 192 222 c && negb (code c =? 215))
  then ascii_of_nat (code c + 32) else c.

Fixpoint toLowerCase (s : string) : string :=
  match s with
  | EmptyString => EmptyString
  | String c s' => String (lower_char c) (toLowerCase s')
  end.

(** Whether every character of [s] satisfies [p]. *)
Fixpoint allChars (p : ascii -> bool) (s : string) : bool :=
  match s with
  | EmptyString => true
  | String a s' => p a && allChars p s'
  end.

(** [arr.pop()] on a fresh array: its last element. *)
Definition pop {A} (l : list A) : option A := last l.

End Js.

(* ===================================================================== *)
(** ** A backtracking matcher for the regular expressions of the source *)
(* ===================================================================== *)

Module Regex.

Inductive regex : Type :=
| Eps
| Chr (p : ascii -> bool)
| Seq (a b : regex)
| Alt (a b : regex)
| Opt (a : regex)
| Star (a : regex)
| Bol            (* ^  *)
| Eol            (* $  *)
| WordB.         (* \b *)

(** A position in the subject: the character before it and what is left. *)
Definition pos : Type := option ascii * string.

Definition remaining (c : pos) : string := snd c.

Definition progress (c c' : pos) : bool :=
  String.length (remaining c') <? String.length (remaining c).

Definition word_before (c : pos) : bool :=
  match fst c with Some a => Js.is_word a | None => false end.

Definition word_after (c : pos) : bool :=
  match remaining c with String a _ => Js.is_word a | EmptyString => false end.

(** Greedy iteration.  An iteration that consumes nothing is discarded,
    as ECMAScript does, so [String.length (remaining c)] rounds are enough. *)
Fixpoint star_iter (fuel : nat) (step : pos -> list pos) (c : pos) : list pos :=
  match fuel with
  | O => [c]
  | S fuel' =>
      flat_map (star_iter fuel' step) (filter (progress c) (step c)) ++ [c]
  end.

(** All the positions at which a match of [r] starting at [c] can end,
    in the order in which a backtracking matcher tries them. *)
Fixpoint ends (r : regex) (c : pos) : list pos :=
  match r with
  | Eps => [c]
  | Chr p =>
      match remaining c with
      | String a rest => if p a then [(Some a, rest)] else []
      | EmptyString => []
      end
  | Seq a b => flat_map (ends b) (ends a c)
  | Alt a b => ends a c ++ ends b c
  | Opt a => ends a c ++ [c]
  | Star a => star_iter (String.length (remaining c)) (ends a) c
  | Bol => match fst c with None => [c] | Some _ => [] end
  | Eol => match remaining c with EmptyString => [c] | String _ _ => [] end
  | WordB => if xorb (word_before c) (word_after c) then [c] else []
  end.

Definition matches_at (r : regex) (c : pos) : bool :=
  match ends r c with [] => false | _ :: _ => true end.

(** Every position of a subject, left to right, the end included. *)
Fixpoint positions (prev : option ascii) (s : string) : list pos :=
  (prev, s) ::
  match s with
  | EmptyString => []
  | String a s' => positions (Some a) s'
  end.

(** [re.test(s)] for a regular expression without flags. *)
Definition test (r : regex) (s : string) : bool :=
  existsb (matches_at r) (positions None s).

(** [s.replace(re, "")] for a pattern anchored with [^]: the preferred
    match at the start is removed, or nothing is. *)
Definition remove_prefix (r : regex) (s : string) : string :=
  match ends r (None, s) with
  | c :: _ => remaining c
  | [] => s
  end.

Definition chr (a : ascii) : regex := Chr (Js.is_char a).
Definition plus (a : regex) : regex := Seq a (Star a).

Fixpoint lit (s : string) : regex :=
  match s with
  | EmptyString => Eps
  | String a s' => Seq (chr a) (lit s')
  end.

Fixpoint seq (rs : list regex) : regex :=
  match rs with
  | [] => Eps
  | [r] => r
  | r :: rs' => Seq r (seq rs')
  end.

Fixpoint times (n : nat) (r : regex) : regex :=
  match n with
  | O => Eps
  | S n' => Seq r (times n' r)
  end.

(** The character before the position reached after reading [s]. *)
Fixpoint lastOr (prev : option ascii) (s : string) : option ascii :=
  match s with
  | EmptyString => prev
  | String a s' => lastOr (Some a) s'
  end.

(** [r] can match [s] at the start of [s +:+ rest], wherever that is. *)
Definition Reach (r : regex) (s : string) : Prop :=
  forall prev rest, In (lastOr prev s, rest) (ends r (prev, s +:+ rest)).

(** [r] matches at the start of [s +:+ rest] in exactly one way, and
    that way consumes [s]. *)
Definition Exact (r : regex) (s : string) : Prop :=
  forall prev rest, ends r (prev, s +:+ rest) = [(lastOr prev s, rest)].

End Regex.

(* ===================================================================== *)
(** ** node:path, POSIX flavour *)
(* ===================================================================== *)

Module NodePath.

(** Modelled from the Node.js documentation of [path.normalize] and
    [path.resolve] (POSIX): the runtime library is not part of the
    repository.  [normalizeString] works on the segments between
    slashes: empty segments and [.] vanish, [..] removes the segment
    before it, and is kept only where the path may climb above its
    start. *)
Fixpoint normalizeSegments (allowAboveRoot : bool) (segs : list string)
    (acc : list string) : list string :=
  match segs with
  | [] => rev acc
  | seg :: rest =>
      if (seg =? "")%string || (seg =? ".")%string then
        normalizeSegments allowAboveRoot rest acc
      else if (seg =? "..")%string then
        match acc with
        | [] =>
            normalizeSegments allowAboveRoot rest
              (if allowAboveRoot then [".."%string] else [])
        | lastSeg :: acc' =>
            if (lastSeg =? "..")%string then
              normalizeSegments allowAboveRoot rest
                (if allowAboveRoot then ".."%string :: acc else acc)
            else normalizeSegments allowAboveRoot rest acc'
        end
      else normalizeSegments allowAboveRoot rest (seg :: acc)
  end.

Definition normalizeString (path : string) (allowAboveRoot : bool) : string :=
  Js.join "/" (normalizeSegments allowAboveRoot
                 (Js.split_on (Js.is_char "/") path) []).

Definition isAbsolute (path : string) : bool :=
  match path with String "/" _ => true | _ => false end.

Fixpoint endsWithSlash (path : string) : bool :=
  match path with
  | EmptyString => false
  | String c EmptyString => Js.is_char "/" c
  | String _ rest => endsWithSlash rest
  end.

Definition normalize (path : string) : string :=
  if Js.isEmpty path then "."%string
  else
    let absolute := isAbsolute path in
    let trailingSeparator := endsWithSlash path in
    let p := normalizeString path (negb absolute) in
    if Js.isEmpty p then
      if absolute then "/"%string
      else if trailingSeparator then "./"%string else "."%string
    else
      let p := if trailingSeparator then p +:+ "/" else p in
      if absolute then "/" +:+ p else p.

(** The right-to-left loop of [path.resolve]; [args] is given last
    argument first and ends with the process's working directory. *)
Fixpoint resolveLoop (args : list string) (resolvedPath : string)
    (resolvedAbsolute : bool) : string * bool :=
  match args with
  | [] => (resolvedPath, resolvedAbsolute)
  | path :: rest =>
      if resolvedAbsolute then (resolvedPath, resolvedAbsolute)
      else if Js.isEmpty path then resolveLoop rest resolvedPath resolvedAbsolute
      else resolveLoop rest (path +:+ "/" +:+ resolvedPath) (isAbsolute path)
  end.

Definition resolve (processCwd : string) (args : list string) : string :=
  let '(resolvedPath, resolvedAbsolute) :=
    resolveLoop (rev args ++ [processCwd]) EmptyString false in
  let p := normalizeString resolvedPath (negb resolvedAbsolute) in
  if resolvedAbsolute then "/" +:+ p
  else if Js.isEmpty p then "."%string else p.

(** Vocabulary for the statements about resolved paths. *)

(** A segment that normalization keeps: not empty, not a dot segment,
    and without a slash. *)
Definition plainSegment (s : string) : Prop :=
  s <> EmptyString /\ s <> "."%string /\ s <> ".."%string
  /\ Js.includes_char "/" s = false.

(** An absolute path in which nothing is left to collapse. *)
Definition collapsed (path : string) : Prop :=
  exists segs, path = "/" +:+ Js.join "/" segs /\ Forall plainSegment segs.

End NodePath.

(* ===================================================================== *)
(** ** tools/guard.ts *)
(* ===================================================================== *)

Module Guard.

Record GuardResult : Type := mkGuardResult {
  allowed : bool;
  reason : option string;
  resolvedPath : option string
}.

(** *** Path guard *)

(** The module-level [allowedPrefixes] starts out empty. *)
Definition allowedPrefixes0 : list string := [].

Definition initPathGuard (workspaceDir : string)
    (extraPaths : option (list string)) : list string :=
  let allowedPrefixes := [NodePath.normalize workspaceDir; "/tmp"%string] in
  match extraPaths with
  | None => allowedPrefixes
  | Some ps =>
      fold_left (fun acc p =>
                   let trimmed := Js.trim p in
                   if Js.truthy trimmed
                   then acc ++ [NodePath.normalize trimmed] else acc)
                ps allowedPrefixes
  end.

Definition prefixAllows (resolved prefix : string) : bool :=
  (resolved =? prefix)%string || Js.startsWith resolved (prefix +:+ "/").

Definition deniedPathReason (inputPath resolved : string) : string :=
  "Path denied: " +:+ inputPath +:+ " (resolved: " +:+ resolved
    +:+ ") is outside allowed directories".

(** [processCwd] stands for [process.cwd()], which [path.resolve]
    consults when neither argument is absolute. *)
Definition guardPath (allowedPrefixes : list string) (processCwd : string)
    (inputPath workspaceDir : string) : GuardResult :=
  if (length allowedPrefixes =? 0)%nat then
    mkGuardResult true None (Some inputPath)
  else
    let resolved :=
      NodePath.normalize (NodePath.resolve processCwd [workspaceDir; inputPath]) in
    match find (prefixAllows resolved) allowedPrefixes with
    | Some _ => mkGuardResult true None (Some resolved)
    | None => mkGuardResult false (Some (deniedPathReason inputPath resolved)) None
    end.

(** *** Command guard *)

Definition DEFAULT_ALLOWED_COMMANDS_list : list string :=
  [ "ls"; "cat"; "head"; "tail"; "wc"; "file"; "stat"; "du"; "df"; "cp";
    "mv"; "rm"; "mkdir"; "touch"; "chmod"; "chown"; "ln"; "readlink";
    "realpath"; "basename"; "dirname"; "mktemp";
    "find"; "grep"; "egrep"; "fgrep"; "rg"; "fd";
    "sed"; "awk"; "sort"; "uniq"; "cut"; "tr"; "tee"; "xargs"; "diff";
    "comm"; "paste"; "column"; "fold"; "fmt"; "nl";
    "npm"; "npx"; "node"; "git"; "python"; "python3"; "pip"; "pip3";
    "make"; "gcc"; "g++"; "cargo"; "rustc"; "go"; "java"; "javac"; "tsc";
    "tsgo"; "biome"; "vitest"; "jest"; "bun"; "deno";
    "curl"; "wget"; "ssh"; "scp"; "rsync";
    "tar"; "zip"; "unzip"; "gzip"; "gunzip"; "bzip2"; "xz";
    "date"; "whoami"; "uname"; "hostname"; "printenv"; "which"; "type";
    "whereis"; "id"; "groups"; "uptime";
    "jq"; "yq"; "base64"; "md5sum"; "sha256sum"; "sleep"; "timeout";
    "seq"; "yes";
    "ps"; "kill"; "pgrep"; "pkill"; "lsof";
    "apt"; "apt-get"; "apk"; "brew";
    "less"; "more"; "man"; "clear"; "tput" ]%string.

Definition DEFAULT_ALLOWED_COMMANDS : gset string :=
  list_to_set DEFAULT_ALLOWED_COMMANDS_list.

Definition SHELL_BUILTINS_list : list string :=
  [ "cd"; "echo"; "printf"; "export"; "pwd"; "set"; "unset"; "read";
    "test"; "["; "true"; "false"; "exit"; "return"; "shift"; "wait";
    "trap"; "source"; "."; "local"; "declare"; "typeset"; "alias";
    "unalias"; "hash"; "command"; "builtin"; "let"; "getopts"; "pushd";
    "popd"; "dirs"; "umask"; "ulimit"; "times"; "bg"; "fg"; "jobs";
    "disown"; "enable"; "help"; "logout"; "mapfile"; "readarray";
    "compgen"; "complete"; "compopt"; "coproc"; "select"; "shopt" ]%string.

Definition SHELL_BUILTINS : gset string := list_to_set SHELL_BUILTINS_list.

Definition initCommandGuard (addCommands removeCommands : option (list string))
    : gset string :=
  let s := DEFAULT_ALLOWED_COMMANDS in
  let s := match addCommands with
           | Some cs => fold_left (fun acc cmd => acc ∪ {[cmd]}) cs s
           | None => s
           end in
  match removeCommands with
  | Some cs => fold_left (fun acc cmd => acc ∖ {[cmd]}) cs s
  | None => s
  end.

Import Regex.

Definition ws : regex := Chr Js.is_ws.
Definition non_ws : regex := Chr (fun c => negb (Js.is_ws c)).
Definition letters : regex := Star (Chr Js.is_alpha).

(** A dash, letters, [x], letters. *)
Definition flagWith (x : ascii) : regex :=
  seq [chr "-"; letters; chr x; letters].

(** The tail shared by both [rm] patterns: a slash followed by a
    whitespace character, by the end of the input, or by a star. *)
Definition rootTarget : regex :=
  Seq (chr "/") (Alt ws (Alt Eol (chr "*"))).

(** First critical pattern: [\brm\s+], an optional flag group holding
    [f] with [\s+], a flag group holding [r], [\s+], then [rootTarget]. *)
Definition rmPatternFR : regex :=
  seq [WordB; lit "rm"; plus ws; Opt (Seq (flagWith "f") (plus ws));
       flagWith "r"; plus ws; rootTarget].

(** Second critical pattern: the same with [r] and [f] exchanged. *)
Definition rmPatternRF : regex :=
  seq [WordB; lit "rm"; plus ws; Opt (Seq (flagWith "r") (plus ws));
       flagWith "f"; plus ws; rootTarget].

(** Third critical pattern, the fork bomb: the characters of
    [:(){:|:&};:] with [\s*] allowed between them from [()] on. *)
Definition forkBombPattern : regex :=
  seq [lit ":()"; Star ws; chr "{"; Star ws; chr ":"; Star ws; chr "|";
       Star ws; chr ":"; Star ws; chr "&"; Star ws; chr "}"; Star ws;
       chr ";"; Star ws; chr ":"].

Definition CRITICAL_PATTERNS : list (regex * string) :=
  [ (rmPatternFR, "Blocked: rm -rf /"%string);
    (rmPatternRF, "Blocked: rm -rf /"%string);
    (forkBombPattern, "Blocked: fork bomb"%string) ].

(** The loop state of [splitCommandSegments]. *)
Record SplitState : Type := mkSplit {
  segments : list string;
  current : string;
  inSingle : bool;
  inDouble : bool;
  escaped : bool
}.

Definition addChar (st : SplitState) (ch : ascii) : string :=
  current st +:+ String ch EmptyString.

Definition nextIs (a : ascii) (rest : string) : bool :=
  match rest with String b _ => Js.is_char a b | EmptyString => false end.

(** One pass over the characters.  [skip] is set where the source
    does [i++] to jump over the second character of [||] and [&&]. *)
Fixpoint splitLoop (skip : bool) (st : SplitState) (command : string)
    : SplitState :=
  match command with
  | EmptyString => st
  | String ch rest =>
      if skip then splitLoop false st rest
      else if escaped st then
        splitLoop false
          (mkSplit (segments st) (addChar st ch) (inSingle st) (inDouble st) false)
          rest
      else if Js.is_char "\" ch then
        splitLoop false
          (mkSplit (segments st) (addChar st ch) (inSingle st) (inDouble st) true)
          rest
      else if Js.is_char "'" ch && negb (inDouble st) then
        splitLoop false
          (mkSplit (segments st) (addChar st ch) (negb (inSingle st))
             (inDouble st) (escaped st))
          rest
      else if Js.is_char "034" ch && negb (inSingle st) then
        splitLoop false
          (mkSplit (segments st) (addChar st ch) (inSingle st)
             (negb (inDouble st)) (escaped st))
          rest
      else if inSingle st || inDouble st then
        splitLoop false
          (mkSplit (segments st) (addChar st ch) (inSingle st) (inDouble st)
             (escaped st))
          rest
      else if Js.is_char ";" ch then
        splitLoop false
          (mkSplit (segments st ++ [current st]) EmptyString (inSingle st)
             (inDouble st) (escaped st))
          rest
      else if Js.is_char "|" ch then
        splitLoop (nextIs "|" rest)
          (mkSplit (segments st ++ [current st]) EmptyString (inSingle st)
             (inDouble st) (escaped st))
          rest
      else if Js.is_char "&" ch && nextIs "&" rest then
        splitLoop true
          (mkSplit (segments st ++ [current st]) EmptyString (inSingle st)
             (inDouble st) (escaped st))
          rest
      else
        splitLoop false
          (mkSplit (segments st) (addChar st ch) (inSingle st) (inDouble st)
             (escaped st))
          rest
  end.

Definition splitStart : SplitState := mkSplit [] EmptyString false false false.

(** After the loop: what is left in [current] is pushed unless it is
    blank. *)
Definition flush (st : SplitState) : list string :=
  if Js.truthy (Js.trim (current st)) then segments st ++ [current st]
  else segments st.

Definition splitCommandSegments (command : string) : list string :=
  flush (splitLoop false splitStart command).

Definition isOpener (s : string) : bool :=
  Js.startsWith s "(" || Js.startsWith s "{".

(** The loop that drops leading subshell and group openers: while
    [trimmed] starts with an opening parenthesis or brace, it becomes
    [trimmed.slice(1).trim()].  Every round shortens [trimmed], so its
    length bounds the rounds. *)
Fixpoint skipOpeners (fuel : nat) (trimmed : string) : string :=
  match fuel with
  | O => trimmed
  | S fuel' =>
      if isOpener trimmed then skipOpeners fuel' (Js.trim (Js.slice 1 trimmed))
      else trimmed
  end.

Definition nameStart (c : ascii) : bool := Js.is_alpha c || Js.is_char "_" c.

(** The loop test: at the start, a name, [=], non-blanks, one blank. *)
Definition assignmentTest : regex :=
  seq [Bol; Chr nameStart; Star (Chr Js.is_word); chr "="; Star non_ws; ws].

(** What the loop removes: the same, with all the blanks that follow. *)
Definition assignmentPrefix : regex :=
  seq [Bol; Chr nameStart; Star (Chr Js.is_word); chr "="; Star non_ws; plus ws].

(** The loop that drops leading [VAR=value] assignments.  Every round
    shortens [trimmed]. *)
Fixpoint skipAssignments (fuel : nat) (trimmed : string) : string :=
  match fuel with
  | O => trimmed
  | S fuel' =>
      if test assignmentTest trimmed
      then skipAssignments fuel' (remove_prefix assignmentPrefix trimmed)
      else trimmed
  end.

Definition orElse (s dflt : string) : string :=
  if Js.truthy s then s else dflt.

Definition extractCommandName (segment : string) : string :=
  let trimmed := Js.trim segment in
  let trimmed := skipOpeners (String.length trimmed) trimmed in
  let trimmed := skipAssignments (String.length trimmed) trimmed in
  let firstWord := orElse (hd EmptyString (Js.split_on Js.is_ws trimmed)) EmptyString in
  let baseName :=
    if Js.includes_char "/" firstWord
    then orElse (default EmptyString (Js.pop (Js.split_on (Js.is_char "/") firstWord)))
                firstWord
    else firstWord in
  baseName.

Definition deniedCommandReason (cmd : string) : string :=
  "Command denied: '" +:+ cmd +:+ "' is not on the allowed commands list".

Definition has (s : gset string) (x : string) : bool := bool_decide (x ∈ s).

(** The [for … of segments] loop of [guardCommand]. *)
Fixpoint checkSegments (allowedCommands : gset string) (segs : list string)
    : GuardResult :=
  match segs with
  | [] => mkGuardResult true None None
  | segment :: rest =>
      let cmd := extractCommandName segment in
      if negb (Js.truthy cmd) then checkSegments allowedCommands rest
      else if has SHELL_BUILTINS cmd then checkSegments allowedCommands rest
      else if negb (has allowedCommands cmd) then
        mkGuardResult false (Some (deniedCommandReason cmd)) None
      else checkSegments allowedCommands rest
  end.

Definition guardCommand (allowedCommands : gset string) (command : string)
    : GuardResult :=
  match find (fun p => test (fst p) command) CRITICAL_PATTERNS with
  | Some (_, why) => mkGuardResult false (Some why) None
  | None => checkSegments allowedCommands (splitCommandSegments command)
  end.

(** Vocabulary for the statements about [guardCommand]. *)

(** The program names the segment loop looks up: the non-empty names
    extracted from the segments, in order. *)
Definition names (segs : list string) : list string :=
  filter (fun cmd => cmd ≠ EmptyString) (map extractCommandName segs).

Definition programs (command : string) : list string :=
  names (splitCommandSegments command).

Definition permitted (allowedCommands : gset string) (cmd : string) : Prop :=
  cmd ∈ SHELL_BUILTINS \/ cmd ∈ allowedCommands.

Definition matchesCritical (command : string) : Prop :=
  exists p, p ∈ CRITICAL_PATTERNS /\ test (fst p) command = true.

(** A segment that holds nothing but white space. *)
Definition blank (segment : string) : Prop := Js.trim segment = EmptyString.

(** The shapes of [rm] command the critical patterns are written for. *)

(** One or more white-space characters. *)
Definition blanks (s : string) : Prop :=
  s <> EmptyString /\ Js.allChars Js.is_ws s = true.

(** A flag group that carries the flag [x]: a dash and letters, [x]
    among them. *)
Definition flagGroup (x : ascii) (g : string) : Prop :=
  exists a b,
    g = "-" +:+ a +:+ String x b
    /\ Js.allChars Js.is_alpha a = true /\ Js.allChars Js.is_alpha b = true.

(** What may precede the word [rm]: nothing, or text that does not end
    in a word character. *)
Definition atWordStart (pre : string) : Prop :=
  match lastOr None pre with
  | Some c => Js.is_word c = false
  | None => True
  end.

(** What may follow the slash: nothing, white space, or a star. *)
Definition rootTail (tail : string) : Prop :=
  tail = EmptyString
  \/ exists c t, tail = String c t /\ (Js.is_ws c = true \/ c = "*"%char).

(** [rm] with an [r] flag and an [f] flag, in one group or in two
    groups in either order, applied to the root directory. *)
Inductive rmRoot : string -> Prop :=
| rm_one_group (pre sp1 g sp2 tail : string) :
    atWordStart pre -> blanks sp1 ->
    flagGroup "r" g -> flagGroup "f" g ->
    blanks sp2 -> rootTail tail ->
    rmRoot (pre +:+ "rm" +:+ sp1 +:+ g +:+ sp2 +:+ "/" +:+ tail)
| rm_two_groups (pre sp1 g1 sp g2 sp2 tail : string) :
    atWordStart pre -> blanks sp1 ->
    (flagGroup "r" g1 /\ flagGroup "f" g2) \/ (flagGroup "f" g1 /\ flagGroup "r" g2) ->
    blanks sp -> blanks sp2 -> rootTail tail ->
    rmRoot (pre +:+ "rm" +:+ sp1 +:+ g1 +:+ sp +:+ g2 +:+ sp2 +:+ "/" +:+ tail).

Definition forkBomb : string := ":(){ :|:& };:".

(** White space and the characters of the operators. *)
Definition blankOrOperator (c : ascii) : bool :=
  Js.is_ws c || Js.is_char ";" c || Js.is_char "|" c || Js.is_char "&" c.

End Guard.

(* ===================================================================== *)
(** ** The command line as the specification reads it *)
(* ===================================================================== *)

Module Shell.
Import Guard.








(** A segment that names a program: white space, opening parentheses
    and braces, [VAR=value] assignments, the program with or without
    a directory in front, and arguments. *)
Record Invocation : Type := mkInvocation {
  lead : string;
  openers : list (ascii * string);
  assignments : list (string * string * string);
  directory : string;
  program : string;
  arguments : string
}.

Fixpoint openersText (l : list (ascii * string)) : string :=
  match l with
  | [] => EmptyString
  | (opener, space) :: rest => String opener (space +:+ openersText rest)
  end.

Fixpoint assignmentsText (l : list (string * string * string)) : string :=
  match l with
  | [] => EmptyString
  | (var, value, space) :: rest =>
      var +:+ "=" +:+ value +:+ space +:+ assignmentsText rest
  end.

Definition written (i : Invocation) : string :=
  lead i +:+ openersText (openers i) +:+ assignmentsText (assignments i)
    +:+ directory i +:+ program i +:+ arguments i.





(** A text that is empty or starts with white space. *)
Definition spaced (s : string) : Prop :=
  s = EmptyString \/ exists c t, s = String c t /\ Js.is_ws c = true.


End Shell.

(* ===================================================================== *)
(** ** The file system and the clock shared by the store and the bot *)
(* ===================================================================== *)

Module Env.

(** [path.join]: the non-empty arguments joined with a slash, then
    normalized. *)
Definition pathJoin (args : list string) : string :=
  let joined := Js.join "/" (filter (fun a => Js.truthy a = true) args) in
  NodePath.normalize joined.

Record Attachment : Type := mkAttachment {
  original : string;
  local : string
}.

(** A line of [log.jsonl].  The ISO-8601 [date] is kept as the epoch
    milliseconds it renders; [None] is a missing (falsy) date. *)
Record LoggedMessage : Type := mkLogged {
  date : option Z;
  ts : string;
  user : string;
  userName : option string;
  displayName : option string;
  text : string;
  attachments : list Attachment;
  isBot : bool
}.

(** Files are append-only lists of lines, by path. *)
Abbreviation FS := (gmap string (list LoggedMessage)).

Definition readLines (fs : FS) (path : string) : list LoggedMessage :=
  default [] (fs !! path).

(** [appendFile] / [appendFileSync] of one line. *)
Definition appendLine (fs : FS) (path : string) (line : LoggedMessage) : FS :=
  <[path := readLines fs path ++ [line]]> fs.

Definition logPath (workingDir channelId : string) : string :=
  pathJoin [pathJoin [workingDir; channelId]; "log.jsonl"%string].

End Env.

(* ===================================================================== *)
(** ** store.ts *)
(* ===================================================================== *)

Module ChannelStore.
Import Env.

Record PendingDownload : Type := mkPending {
  pd_channelId : string;
  pd_localPath : string;
  pd_url : string
}.

Record Store : Type := mkStore {
  workingDir : string;
  pendingDownloads : list PendingDownload;
  isDownloading : bool;
  recentlyLogged : gmap string Z
}.

Definition create (workingDir : string) : Store :=
  mkStore workingDir [] false ∅.

(** What a store runs in: the clock, the timers armed with
    [setTimeout] (due time and the key their callback deletes), and
    the files. *)
Record World : Type := mkWorld {
  store : Store;
  now : Z;
  timers : list (Z * string);
  fs : FS
}.

Definition sanitizeChar (c : ascii) : ascii :=
  if Js.is_alpha c || Js.is_digit c || Js.is_char "." c || Js.is_char "_" c
     || Js.is_char "-" c
  then c else "_"%char.

Fixpoint sanitize (s : string) : string :=
  match s with
  | EmptyString => EmptyString
  | String c s' => String (sanitizeChar c) (sanitize s')
  end.

Definition generateLocalFilename (originalName timestamp : string) : string :=
  timestamp +:+ "_" +:+ sanitize originalName.

Record FileRef : Type := mkFileRef {
  f_name : option string;
  f_url : option string
}.

Definition present (o : option string) : option string :=
  match o with
  | Some s => if Js.truthy s then Some s else None
  | None => None
  end.

(** The loop of [processAttachments]: for every file with a url and a
    name, the metadata returned and the download queued. *)
Fixpoint attachmentsOf (channelId : string) (files : list FileRef)
    (timestamp : string) : list (Attachment * PendingDownload) :=
  match files with
  | [] => []
  | file :: rest =>
      match present (f_url file), present (f_name file) with
      | Some url, Some name =>
          let localPath :=
            channelId +:+ "/attachments/" +:+ generateLocalFilename name timestamp in
          (mkAttachment name localPath, mkPending channelId localPath url)
            :: attachmentsOf channelId rest timestamp
      | _, _ => attachmentsOf channelId rest timestamp
      end
  end.

Definition queueAttachments (s : Store) (channelId : string)
    (files : list FileRef) (timestamp : string) : list Attachment * Store :=
  let found := attachmentsOf channelId files timestamp in
  (map fst found,
   mkStore (workingDir s) (pendingDownloads s ++ map snd found)
           (isDownloading s) (recentlyLogged s)).

(** [processDownloadQueue] up to its first [await]: nothing happens
    on a store that is downloading or has no download waiting;
    otherwise [isDownloading] is set, the first download is shifted
    off the queue and its fetch is started.  The download started is
    returned with the store. *)
Definition processDownloadQueue (s : Store) : Store * option PendingDownload :=
  if isDownloading s || (length (pendingDownloads s) =? 0) then (s, None)
  else match pendingDownloads s with
       | item :: rest =>
           (mkStore (workingDir s) rest true (recentlyLogged s), Some item)
       | [] => (mkStore (workingDir s) [] false (recentlyLogged s), None)
       end.

(** [processAttachments]: the loop, then the trigger of the download
    queue.  How the download started goes on is followed in
    [Downloads]. *)
Definition processAttachments (s : Store) (channelId : string)
    (files : list FileRef) (timestamp : string) : list Attachment * Store :=
  let '(attachments, s) := queueAttachments s channelId files timestamp in
  (attachments, fst (processDownloadQueue s)).

Definition dedupeKey (channelId : string) (message : LoggedMessage) : string :=
  channelId +:+ ":" +:+ ts message.

Definition DEDUP_MS : Z := 60000.

Definition withDate (message : LoggedMessage) (d : Z) : LoggedMessage :=
  match date message with
  | Some _ => message
  | None =>
      mkLogged (Some d) (ts message) (user message) (userName message)
               (displayName message) (text message) (attachments message)
               (isBot message)
  end.

(** [logMessage]: [false] and nothing written for a key still in
    [recentlyLogged]; otherwise the key is recorded, a timer that
    deletes it is armed, and the line is appended. *)
Definition logMessage (w : World) (channelId : string) (message : LoggedMessage)
    : bool * World :=
  let key := dedupeKey channelId message in
  match recentlyLogged (store w) !! key with
  | Some _ => (false, w)
  | None =>
      let s := store w in
      let s' := mkStore (workingDir s) (pendingDownloads s) (isDownloading s)
                        (<[key := now w]> (recentlyLogged s)) in
      let line := withDate message (now w) in
      (true,
       mkWorld s' (now w) (timers w ++ [((now w + DEDUP_MS)%Z, key)])
               (appendLine (fs w) (logPath (workingDir s) channelId) line))
  end.

Definition logBotResponse (w : World) (channelId text ts : string) : World :=
  snd (logMessage w channelId
         (mkLogged (Some (now w)) ts "bot" None None text [] true)).

(** The callback of a timer: [recentlyLogged.delete(key)]. *)
Definition expire (w : World) (key : string) : World :=
  let s := store w in
  mkWorld (mkStore (workingDir s) (pendingDownloads s) (isDownloading s)
                   (delete key (recentlyLogged s)))
          (now w) (timers w) (fs w).

(** What can happen to a store: a call of [logMessage], time passing,
    and a due timer firing (no timer fires before it is due). *)
Inductive step : World -> World -> Prop :=
| step_log w channelId message :
    step w (snd (logMessage w channelId message))
| step_tick w (d : Z) :
    (0 <= d)%Z ->
    step w (mkWorld (store w) (now w + d)%Z (timers w) (fs w))
| step_fire w before due key after :
    timers w = before ++ (due, key) :: after ->
    (due <= now w)%Z ->
    step w (expire (mkWorld (store w) (now w) (before ++ after) (fs w)) key).

Inductive steps : World -> World -> Prop :=
| steps_refl w : steps w w
| steps_cons w1 w2 w3 : step w1 w2 -> steps w2 w3 -> steps w1 w3.

Definition start (workingDir : string) (t0 : Z) : World :=
  mkWorld (create workingDir) t0 [] ∅.

Definition reachable (w : World) : Prop :=
  exists workingDir t0, steps (start workingDir t0) w.

(** Every armed timer guards a key that is still recorded, with the
    time of the write it was armed by; no key has two timers. *)
Definition armed (w : World) : Prop :=
  (forall due key, In (due, key) (timers w) ->
                   recentlyLogged (store w) !! key = Some (due - DEDUP_MS)%Z)
  /\ NoDup (map snd (timers w)).

End ChannelStore.

(* ===================================================================== *)
(** ** agent.ts: trimming the transcript by turns *)
(* ===================================================================== *)

Module Transcript.
Import Regex.

Inductive Role : Type := user | assistant | toolResult.

Inductive ContentPart : Type :=
| TextPart (text : string)
| ImagePart (mimeType data : string)
| ThinkingPart (thinking : string)
| ToolCallPart (toolCallId toolName : string).

Inductive Content : Type :=
| StringContent (s : string)
| ArrayContent (parts : list ContentPart).

(** An [AgentMessage]; [role] is [None] for a custom message without
    a ["role"] property. *)
Record AgentMessage : Type := mkMessage {
  role : option Role;
  content : Content;
  timestamp : option Z
}.

Definition isUser (msg : AgentMessage) : bool :=
  match role msg with Some user => true | _ => false end.

Definition MAX_TURNS : nat := 10.

(** The body of the [for … of messages] loop: the finished turns and
    the turn being filled. *)
Definition turnStep (acc : list (list AgentMessage) * list AgentMessage)
    (msg : AgentMessage) : list (list AgentMessage) * list AgentMessage :=
  let '(turns, currentTurn) := acc in
  let '(turns, currentTurn) :=
    if isUser msg && (0 <? length currentTurn)
    then (turns ++ [currentTurn], [])
    else (turns, currentTurn) in
  (turns, currentTurn ++ [msg]).

Definition splitTurns (messages : list AgentMessage) : list (list AgentMessage) :=
  let '(turns, currentTurn) := fold_left turnStep messages ([], []) in
  if 0 <? length currentTurn then turns ++ [currentTurn] else turns.

Definition textOfPart (c : ContentPart) : option string :=
  match c with TextPart t => Some t | _ => None end.

Definition userText (c : Content) : string :=
  match c with
  | StringContent s => s
  | ArrayContent parts => Js.join " " (omap textOfPart parts)
  end.

Definition digit : regex := Chr Js.is_digit.

(** The header pattern of the source: at the start, a bracketed
    [YYYY-MM-DD HH:MM:SS] with a signed [HH:MM] offset, a space, a
    bracketed non-empty name without a closing bracket, a colon and
    a space. *)
Definition headerPattern : regex :=
  seq [Bol; chr "["; times 4 digit; chr "-"; times 2 digit; chr "-";
       times 2 digit; chr " "; times 2 digit; chr ":"; times 2 digit;
       chr ":"; times 2 digit;
       Chr (fun c => Js.is_char "+" c || Js.is_char "-" c);
       times 2 digit; chr ":"; times 2 digit; chr "]"; chr " "; chr "[";
       plus (Chr (fun c => negb (Js.is_char "]" c))); chr "]"; chr ":";
       chr " "].

Definition stripHeader (text : string) : string :=
  remove_prefix headerPattern text.

Definition summarize (text : string) : string :=
  let text := stripHeader text in
  if 100 <? String.length text then Js.substring0 100 text +:+ "..."
  else text.

Definition summaryOfTurn (turn : list AgentMessage) : string :=
  match find isUser turn with
  | Some lastDroppedUser => summarize (userText (content lastDroppedUser))
  | None => EmptyString
  end.

Definition syntheticContent (summary : string) : string :=
  "[Prior context trimmed. Last topic before trim: " +:+ summary +:+ "]".

Record Trimmed : Type := mkTrimmed {
  messages : list AgentMessage;
  droppedTurns : nat;
  summary : string
}.

(** [trimContextByTurns]; [dateNow] stands for [Date.now()].  The
    informational log line it writes is left out. *)
Definition trimContextByTurns (msgs : list AgentMessage) (dateNow : Z) : Trimmed :=
  let turns := splitTurns msgs in
  if length turns <=? MAX_TURNS then mkTrimmed msgs 0 EmptyString
  else
    let dropped := length turns - MAX_TURNS in
    let keptTurns := drop (length turns - MAX_TURNS) turns in
    let summary :=
      match turns !! (dropped - 1) with
      | Some lastDroppedTurn => summaryOfTurn lastDroppedTurn
      | None => EmptyString
      end in
    let kept := concat keptTurns in
    if Js.truthy summary then
      let syntheticMsg :=
        mkMessage (Some user) (StringContent (syntheticContent summary))
          (Some (default dateNow (hd_error kept ≫= timestamp))) in
      mkTrimmed (syntheticMsg :: kept) dropped summary
    else mkTrimmed kept dropped summary.

(** Vocabulary for the statements about turns. *)

Definition notUser (msg : AgentMessage) : Prop := isUser msg = false.

(** A turn in the sense of the specification: a user message followed
    by messages that are not user messages. *)
Definition userTurn (turn : list AgentMessage) : Prop :=
  exists u rest, turn = u :: rest /\ isUser u = true /\ Forall notUser rest.

(** The first turn of a transcript may start with any message. *)
Definition leadingTurn (turn : list AgentMessage) : Prop :=
  exists m rest, turn = m :: rest /\ Forall notUser rest.

Definition partition (turns : list (list AgentMessage)) : Prop :=
  Forall leadingTurn (take 1 turns) /\ Forall userTurn (drop 1 turns).

Definition digits (n : nat) (s : string) : Prop :=
  String.length s = n /\ Js.allChars Js.is_digit s = true.

(** The header that [run] puts before the text of a user message:
    [[YYYY-MM-DD HH:MM:SS+HH:MM] [name]: ]. *)
Inductive isHeader : string -> Prop :=
| header_intro (year month day hour minute second offH offM name : string)
    (sign : ascii) :
    digits 4 year -> digits 2 month -> digits 2 day ->
    digits 2 hour -> digits 2 minute -> digits 2 second ->
    sign = "+"%char \/ sign = "-"%char ->
    digits 2 offH -> digits 2 offM ->
    name <> EmptyString ->
    Js.allChars (fun c => negb (Js.is_char "]" c)) name = true ->
    isHeader ("[" +:+ year +:+ "-" +:+ month +:+ "-" +:+ day +:+ " "
                +:+ hour +:+ ":" +:+ minute +:+ ":" +:+ second
                +:+ String sign (offH +:+ ":" +:+ offM +:+ "] ["
                                   +:+ name +:+ "]: ")).

End Transcript.

(* ===================================================================== *)
(** ** What the bot acts on: Discord, the log files, the console *)
(* ===================================================================== *)

Module Discord.
Import Env.

Inductive Kind : Type :=
| Plain                  (* a message sent to a channel *)
| InThread (parent : N)  (* a message sent to the thread of [parent] *)
| Upload.                (* a message that carries a file *)

(** A message as Discord shows it.  Identifiers are snowflakes. *)
Record Message : Type := mkMsg {
  m_id : N;
  m_channel : string;
  m_kind : Kind;
  m_text : string
}.

Inductive Level : Type := Info | Warning.

#[global] Instance Level_eq_dec : EqDecision Level.
Proof. solve_decision. Defined.

(** A call of [log.logInfo] or [log.logWarning]. *)
Record LogLine : Type := mkLog {
  l_level : Level;
  l_message : string;
  l_details : option string
}.

Record World : Type := mkWorld {
  messages : list Message;
  nextId : N;
  fs : FS;
  console : list LogLine;
  workingDir : string;
  clock : Z
}.

Definition setMessages (w : World) (ms : list Message) (next : N) : World :=
  mkWorld ms next (fs w) (console w) (workingDir w) (clock w).

(** [channel.send(text)]: the new message gets a fresh identifier. *)
Definition send (w : World) (channelId : string) (k : Kind) (text : string)
    : N * World :=
  (nextId w,
   setMessages w (messages w ++ [mkMsg (nextId w) channelId k text])
               (nextId w + 1)%N).

Definition postMessage (w : World) (channelId text : string) : N * World :=
  send w channelId Plain text.

Definition editOne (id : N) (text : string) (m : Message) : Message :=
  if (m_id m =? id)%N then mkMsg (m_id m) (m_channel m) (m_kind m) text else m.

(** [message.edit(text)], after the rate limiter's wait. *)
Definition updateMessage (w : World) (id : N) (text : string) : World :=
  setMessages w (map (editOne id text) (messages w)) (nextId w).

(** [message.delete()]. *)
Definition deleteDiscordMessage (w : World) (id : N) : World :=
  setMessages w (filter (fun m => m_id m ≠ id) (messages w)) (nextId w).

Definition channelOf (w : World) (id : N) : string :=
  match find (fun m => (m_id m =? id)%N) (messages w) with
  | Some m => m_channel m
  | None => EmptyString
  end.

(** [postInThread]: the message goes to the thread hanging off
    [parent] (started on first use). *)
Definition postInThread (w : World) (parent : N) (text : string) : N * World :=
  send w (channelOf w parent) (InThread parent) text.

Definition uploadFile (w : World) (channelId filePath : string)
    (title : option string) : World :=
  snd (send w channelId Upload EmptyString).

Definition logToConsole (w : World) (line : LogLine) : World :=
  mkWorld (messages w) (nextId w) (fs w) (console w ++ [line])
          (workingDir w) (clock w).

Definition logInfo (w : World) (msg : string) : World :=
  logToConsole w (mkLog Info msg None).
Definition logWarning (w : World) (msg : string) (details : option string)
    : World :=
  logToConsole w (mkLog Warning msg details).

(** [DiscordBot.logToFile]: an unconditional synchronous append. *)
Definition logToFile (w : World) (channel : string) (entry : LoggedMessage)
    : World :=
  mkWorld (messages w) (nextId w)
          (appendLine (fs w) (logPath (workingDir w) channel) entry)
          (console w) (workingDir w) (clock w).

(** [DiscordBot.logBotResponse]. *)
Definition logBotResponse (w : World) (channel text ts : string) : World :=
  logToFile w channel (mkLogged (Some (clock w)) ts "bot" None None text [] true).

End Discord.

(* ===================================================================== *)
(** ** main.ts: the context adapter handed to a run *)
(* ===================================================================== *)

Module Context.
Import Discord.

(** The variables [createDiscordContext] closes over. *)
Record Ctx : Type := mkCtx {
  channel : string;
  eventFilename : option string;
  message : option N;
  threadMessages : list N;
  accumulatedText : string;
  isWorking : bool
}.

Definition workingIndicator : string := " ...".

Definition fresh (channel : string) (eventFilename : option string) : Ctx :=
  mkCtx channel eventFilename None [] EmptyString true.

Definition displayText (working : bool) (accumulated : string) : string :=
  if working then accumulated +:+ workingIndicator else accumulated.

(** Post the main message or edit it, as [respond], [replaceMessage]
    do. *)
Definition showMain (c : Ctx) (w : World) (accumulated : string) : Ctx * World :=
  let shown := displayText (isWorking c) accumulated in
  match message c with
  | Some m =>
      (mkCtx (channel c) (eventFilename c) (Some m) (threadMessages c)
             accumulated (isWorking c),
       updateMessage w m shown)
  | None =>
      let '(m, w') := postMessage w (channel c) shown in
      (mkCtx (channel c) (eventFilename c) (Some m) (threadMessages c)
             accumulated (isWorking c),
       w')
  end.

Definition respond (c : Ctx) (w : World) (text : string) (shouldLog : bool)
    : Ctx * World :=
  let accumulated :=
    if Js.truthy (accumulatedText c)
    then accumulatedText c +:+ String "010" EmptyString +:+ text
    else text in
  let '(c', w') := showMain c w accumulated in
  match message c' with
  | Some m =>
      if shouldLog then (c', logBotResponse w' (channel c) text (pretty m))
      else (c', w')
  | None => (c', w')
  end.

Definition replaceMessage (c : Ctx) (w : World) (text : string) : Ctx * World :=
  showMain c w text.

Definition respondInThread (c : Ctx) (w : World) (text : string) : Ctx * World :=
  match message c with
  | Some m =>
      let '(t, w') := postInThread w m text in
      (mkCtx (channel c) (eventFilename c) (message c)
             (threadMessages c ++ [t]) (accumulatedText c) (isWorking c),
       w')
  | None => (c, w)
  end.

Definition setTyping (c : Ctx) (w : World) (isTyping : bool) : Ctx * World :=
  match message c with
  | None =>
      if isTyping then
        let accumulated :=
          match eventFilename c with
          | Some f => "*Starting event: " +:+ f +:+ "*"
          | None => "*Thinking*"%string
          end in
        let '(m, w') := postMessage w (channel c) (accumulated +:+ workingIndicator) in
        (mkCtx (channel c) (eventFilename c) (Some m) (threadMessages c)
               accumulated (isWorking c),
         w')
      else (c, w)
  | Some _ => (c, w)
  end.

Definition uploadFile (c : Ctx) (w : World) (filePath : string)
    (title : option string) : Ctx * World :=
  (c, Discord.uploadFile w (channel c) filePath title).

Definition setWorking (c : Ctx) (w : World) (working : bool) : Ctx * World :=
  let c' := mkCtx (channel c) (eventFilename c) (message c) (threadMessages c)
                  (accumulatedText c) working in
  match message c with
  | Some m => (c', updateMessage w m (displayText working (accumulatedText c)))
  | None => (c', w)
  end.

(** The thread messages are deleted last-posted first. *)
Definition deleteThread (w : World) (threadMessages : list N) : World :=
  fold_left deleteDiscordMessage (rev threadMessages) w.

(** [deleteMessage] returns, besides the new state, the identifiers
    it asked Discord to delete, in the order of the calls. *)
Definition deleteMessage (c : Ctx) (w : World) : Ctx * World * list N :=
  let w1 := deleteThread w (threadMessages c) in
  match message c with
  | Some m =>
      (mkCtx (channel c) (eventFilename c) None [] (accumulatedText c) (isWorking c),
       deleteDiscordMessage w1 m,
       rev (threadMessages c) ++ [m])
  | None =>
      (mkCtx (channel c) (eventFilename c) None [] (accumulatedText c) (isWorking c),
       w1,
       rev (threadMessages c))
  end.

(** The calls a run makes on its context while the model streams. *)
Inductive Op : Type :=
| Respond (text : string) (shouldLog : bool)
| ReplaceMessage (text : string)
| RespondInThread (text : string)
| SetTyping (isTyping : bool)
| UploadFile (filePath : string) (title : option string)
| SetWorking (working : bool).

Definition runOp (cw : Ctx * World) (op : Op) : Ctx * World :=
  let '(c, w) := cw in
  match op with
  | Respond text shouldLog => respond c w text shouldLog
  | ReplaceMessage text => replaceMessage c w text
  | RespondInThread text => respondInThread c w text
  | SetTyping b => setTyping c w b
  | UploadFile p t => uploadFile c w p t
  | SetWorking b => setWorking c w b
  end.

Definition runOps (cw : Ctx * World) (ops : list Op) : Ctx * World :=
  fold_left runOp ops cw.

(** Vocabulary for the statements about a run's messages. *)

(** Identifiers are handed out in increasing order. *)
Definition wellFormed (w : World) : Prop :=
  forall m, m ∈ messages w -> (m_id m < nextId w)%N.

(** What a context that started on [w0] and now tracks [main] and
    [threads] has done to Discord: the messages that were there are
    untouched, and every message added since is the main message, a
    tracked thread message, or a file. *)
Definition owns (w0 : World) (main : option N) (threads : list N) (w : World)
    : Prop :=
  filter (fun m => (m_id m < nextId w0)%N) (messages w) = messages w0
  /\ (nextId w0 <= nextId w)%N
  /\ wellFormed w
  /\ (forall m, m ∈ messages w -> (nextId w0 <= m_id m)%N ->
                m_kind m = Upload \/ main = Some (m_id m) \/ m_id m ∈ threads)
  /\ (forall i, main = Some i -> (nextId w0 <= i)%N)
  /\ (forall i, i ∈ threads -> (nextId w0 <= i)%N).

End Context.

(* ===================================================================== *)
(** ** agent.ts: how [run] ends *)
(* ===================================================================== *)

Module AgentRun.
Import Discord Context Regex.

(** What the end of [run] looks at, once the model has answered and
    the queued side effects have been flushed. *)
Record Outcome : Type := mkOutcome {
  stopReason : string;
  errorMessage : option string;
  rawFinalText : string;      (* the last assistant message's text parts *)
  thinkingInText : bool;      (* the model option of that name *)
  usageSummary : option string (* posted when a cost was incurred or the model is local *)
}.

Definition DISCORD_MAX_LENGTH : nat := 1900.

(** [/^Thinking\n/i] *)
Definition thinkingPattern : regex :=
  seq [Bol;
       Chr (fun c => Js.is_char "t" (Js.lower_char c));
       Chr (fun c => Js.is_char "h" (Js.lower_char c));
       Chr (fun c => Js.is_char "i" (Js.lower_char c));
       Chr (fun c => Js.is_char "n" (Js.lower_char c));
       Chr (fun c => Js.is_char "k" (Js.lower_char c));
       Chr (fun c => Js.is_char "i" (Js.lower_char c));
       Chr (fun c => Js.is_char "n" (Js.lower_char c));
       Chr (fun c => Js.is_char "g" (Js.lower_char c));
       chr "010"].

Definition stripThinkingBlock (text : string) : string :=
  remove_prefix thinkingPattern text.

Definition finalTextOf (o : Outcome) : string :=
  if thinkingInText o then stripThinkingBlock (rawFinalText o)
  else rawFinalText o.

Definition isSilent (finalText : string) : bool :=
  (Js.trim finalText =? "[SILENT]")%string
  || Js.startsWith (Js.trim finalText) "[SILENT]".

Definition endedInError (o : Outcome) : bool :=
  (stopReason o =? "error")%string
  && match errorMessage o with Some e => Js.truthy e | None => false end.

Definition mainTextOf (finalText : string) : string :=
  if DISCORD_MAX_LENGTH <? String.length finalText
  then Js.substring0 (DISCORD_MAX_LENGTH - 50) finalText
         +:+ String "010" (String "010" "*(see thread for full response)*")
  else finalText.

(** The head of [run]: the health check of the model server.  When
    it reports an error, a warning is logged, the error is shown
    through [respond], and [run] returns at once with the stop reason
    "error"; the rest of [run] is not reached. *)
Definition healthNotice (healthError : string) : string :=
  "*Cannot connect to AI server: " +:+ healthError +:+ "*".

Definition healthCheckFailed (healthError : string) (c : Ctx) (w : World)
    : Ctx * World :=
  respond c (logWarning w "Ollama health check failed" (Some healthError))
          (healthNotice healthError) true.

(** The tail of [run], from "Handle error case" on: the state after
    it and the deletions asked of Discord. *)
Definition finish (o : Outcome) (c : Ctx) (w : World) : Ctx * World * list N :=
  let '(c1, w1, deleted) :=
    if endedInError o then
      let '(c', w') := replaceMessage c w "*Sorry, something went wrong*" in
      let '(c', w') :=
        respondInThread c' w' ("*Error: " +:+ default EmptyString (errorMessage o) +:+ "*") in
      (c', w', [])
    else
      let finalText := finalTextOf o in
      if isSilent finalText then
        let '(c', w', deleted) := deleteMessage c w in
        (c', logInfo w' "Silent response - deleted message and thread", deleted)
      else if Js.truthy (Js.trim finalText) then
        let '(c', w') := replaceMessage c w (mainTextOf finalText) in
        (c', w', [])
      else (c, w, []) in
  match usageSummary o with
  | Some summary =>
      let '(c2, w2) := respondInThread c1 w1 summary in (c2, w2, deleted)
  | None => (c1, w1, deleted)
  end.

End AgentRun.

(* ===================================================================== *)
(** ** discord.ts and the handler of main.ts *)
(* ===================================================================== *)

Module Bot.
Import Env Discord Context.

Inductive EventType : Type := mention | dm.

(** A [DiscordEvent].  Every [ts] of the program is the decimal
    numeral of a snowflake or of a millisecond clock; it is kept as
    the number and rendered with [pretty] where a string is written. *)
Record DiscordEvent : Type := mkEvent {
  e_type : EventType;
  e_channel : string;
  e_ts : N;
  e_user : string;
  e_text : string;
  e_files : option (list ChannelStore.FileRef);
  e_attachments : option (list Attachment)
}.

(** A queued closure [() => handler.handleEvent(event, bot, isEvent)]. *)
Record Work : Type := mkWork {
  work_event : DiscordEvent;
  work_isEvent : bool
}.

Record ChannelQueue : Type := mkQueue {
  queue : list Work;
  processing : bool
}.

(** [ChannelState] of main.ts; [abortCalls] counts the calls of
    [runner.abort()]. *)
Record ChannelState : Type := mkState {
  running : bool;
  stopRequested : bool;
  stopMessage : option N;
  abortCalls : nat
}.

Record DiscordUser : Type := mkUser {
  u_id : string;
  u_userName : string;
  u_displayName : string
}.

Record Bot : Type := mkBot {
  world : World;
  store : ChannelStore.Store;
  users : gmap string DiscordUser;
  botUserId : option string;
  startupTs : option Z;
  queues : gmap string ChannelQueue;
  channelStates : gmap string ChannelState;
  (** the suspended [handleEvent] of each queue: its work and context *)
  inflight : gmap string (Work * Ctx);
  (** the suspended [handleStop]s, each waiting for its post to
      return: the channel and the message posted *)
  stopping : list (string * N)
}.

Definition setWorld (b : Bot) (w : World) : Bot :=
  mkBot w (store b) (users b) (botUserId b) (startupTs b) (queues b)
        (channelStates b) (inflight b) (stopping b).

Definition setQueue (b : Bot) (channelId : string) (q : ChannelQueue) : Bot :=
  mkBot (world b) (store b) (users b) (botUserId b) (startupTs b)
        (<[channelId := q]> (queues b)) (channelStates b) (inflight b)
        (stopping b).

Definition setState (b : Bot) (channelId : string) (s : ChannelState) : Bot :=
  mkBot (world b) (store b) (users b) (botUserId b) (startupTs b) (queues b)
        (<[channelId := s]> (channelStates b)) (inflight b) (stopping b).

Definition setInflight (b : Bot) (fl : gmap string (Work * Ctx)) : Bot :=
  mkBot (world b) (store b) (users b) (botUserId b) (startupTs b) (queues b)
        (channelStates b) fl (stopping b).

Definition setStopping (b : Bot) (posts : list (string * N)) : Bot :=
  mkBot (world b) (store b) (users b) (botUserId b) (startupTs b) (queues b)
        (channelStates b) (inflight b) posts.

(** *** The handler (main.ts) *)

Definition newState : ChannelState := mkState false false None 0.

(** [getState]: the state of the channel, created on first use. *)
Definition getState (b : Bot) (channelId : string) : ChannelState * Bot :=
  match channelStates b !! channelId with
  | Some s => (s, b)
  | None => (newState, setState b channelId newState)
  end.

Definition isRunning (b : Bot) (channelId : string) : bool :=
  match channelStates b !! channelId with
  | Some s => running s
  | None => false
  end.

(** [handleStop] up to the [await] of its post: the stop is marked
    as requested, the runner is told to abort and the message is
    posted; the call then waits for the post to return.  As with
    every post of the model the message stands in the channel from
    the call on; what the handler waits for is its handle. *)
Definition handleStop (b : Bot) (channelId : string) : Bot :=
  match channelStates b !! channelId with
  | Some s =>
      if running s then
        let b := setState b channelId
                   (mkState (running s) true (stopMessage s) (S (abortCalls s))) in
        let '(msg, w) := postMessage (world b) channelId "*Stopping...*" in
        setStopping (setWorld b w) (stopping b ++ [(channelId, msg)])
      else setWorld b (snd (postMessage (world b) channelId "*Nothing running*"))
  | None => setWorld b (snd (postMessage (world b) channelId "*Nothing running*"))
  end.

(** [handleStop] after the [await], for the [i]-th of the suspended
    calls: [state.stopMessage = msg], on the state the call found. *)
Definition handleStopEnd (b : Bot) (i : nat) : Bot :=
  match stopping b !! i with
  | Some (channelId, msg) =>
      let b := setStopping b (delete i (stopping b)) in
      match channelStates b !! channelId with
      | Some s =>
          setState b channelId
                   (mkState (running s) (stopRequested s) (Some msg) (abortCalls s))
      | None => b
      end
  | None => b
  end.

Fixpoint takeUntilColon (s : string) : string * string :=
  match s with
  | EmptyString => (EmptyString, EmptyString)
  | String c rest =>
      if Js.is_char ":" c then (EmptyString, s)
      else let '(name, after) := takeUntilColon rest in (String c name, after)
  end.

(** [event.text.match(/^\[EVENT:([^:]+):/)?.[1]] *)
Definition eventFilenameOf (text : string) : option string :=
  if Js.startsWith text "[EVENT:" then
    let '(name, after) := takeUntilColon (Js.slice 7 text) in
    if Js.truthy name && Js.startsWith after ":" then Some name else None
  else None.

(** [handleEvent] up to its first [await]: the run is marked as
    started and the context adapter is created. *)
Definition handleEventStart (b : Bot) (queueId : string) (work : Work) : Bot :=
  let event := work_event work in
  let '(s, b) := getState b (e_channel event) in
  let b := setState b (e_channel event)
             (mkState true false (stopMessage s) (abortCalls s)) in
  let b := setWorld b
             (logInfo (world b)
                ("[" +:+ e_channel event +:+ "] Starting run: "
                   +:+ Js.substring0 50 (e_text event))) in
  let ctx := fresh (e_channel event)
               (if work_isEvent work then eventFilenameOf (e_text event) else None) in
  setInflight b (<[queueId := (work, ctx)]> (inflight b)).

(** *** ChannelQueue *)

Definition emptyQueue : ChannelQueue := mkQueue [] false.

Definition getQueue (b : Bot) (channelId : string) : ChannelQueue * Bot :=
  match queues b !! channelId with
  | Some q => (q, b)
  | None => (emptyQueue, setQueue b channelId emptyQueue)
  end.

Definition size (q : ChannelQueue) : nat := length (queue q).

(** [processNext]: when idle and not empty, the first work is taken
    off the queue and called. *)
Definition processNext (b : Bot) (channelId : string) : Bot :=
  match queues b !! channelId with
  | Some q =>
      if processing q then b
      else match queue q with
           | [] => b
           | work :: rest =>
               handleEventStart (setQueue b channelId (mkQueue rest true))
                                channelId work
           end
  | None => b
  end.

Definition enqueue (b : Bot) (channelId : string) (work : Work) : Bot :=
  let '(q, b) := getQueue b channelId in
  processNext (setQueue b channelId (mkQueue (queue q ++ [work]) (processing q)))
              channelId.

(** *** DiscordBot *)

Definition QUEUE_CAP : nat := 5.

Definition enqueueEvent (b : Bot) (event : DiscordEvent) : bool * Bot :=
  let '(q, b) := getQueue b (e_channel event) in
  if QUEUE_CAP <=? size q then
    (false,
     setWorld b
       (logWarning (world b)
          ("Event queue full for " +:+ e_channel event +:+ ", discarding: "
             +:+ Js.substring0 50 (e_text event)) None))
  else
    let b := setWorld b
               (logInfo (world b)
                  ("Enqueueing event for " +:+ e_channel event +:+ ": "
                     +:+ Js.substring0 50 (e_text event))) in
    (true, enqueue b (e_channel event) (mkWork event true)).

(** An incoming discord.js message, as far as the handler reads it. *)
Record Incoming : Type := mkIncoming {
  in_id : N;
  in_authorId : string;
  in_authorBot : bool;
  in_channelId : string;
  in_isDM : bool;
  in_mentionsBot : bool;
  in_content : string;
  in_createdTimestamp : Z;
  in_attachments : list ChannelStore.FileRef
}.

(** [text.replace(new RegExp(`<@!?${botUserId}>`, "g"), "")], for an
    identifier without regular-expression metacharacters. *)
Fixpoint stripMentions (skip : nat) (botId : string) (s : string) : string :=
  match s with
  | EmptyString => EmptyString
  | String c rest =>
      match skip with
      | S k => stripMentions k botId rest
      | O =>
          if Js.startsWith s ("<@!" +:+ botId +:+ ">")
          then stripMentions (String.length botId + 3) botId rest
          else if Js.startsWith s ("<@" +:+ botId +:+ ">")
          then stripMentions (String.length botId + 2) botId rest
          else String c (stripMentions 0 botId rest)
      end
  end.

Definition buildEvent (b : Bot) (message : Incoming) (type : EventType)
    : DiscordEvent :=
  let text :=
    match botUserId b with
    | Some botId =>
        if Js.truthy botId
        then Js.trim (stripMentions 0 botId (in_content message))
        else in_content message
    | None => in_content message
    end in
  mkEvent type (in_channelId message) (in_id message) (in_authorId message)
          text
          (match in_attachments message with
           | [] => None
           | files => Some files
           end)
          None.

Definition DISCORD_EPOCH : Z := 1420070400000.

(** [Number(BigInt(ts) >> 22n) + 1420070400000], the time value that
    [logUserMessage] makes a [Date] of.  An identifier is a 64-bit
    number, for which the conversion is exact and the time value is
    one [toISOString] accepts. *)
Definition snowflakeDate (ts : N) : Z :=
  (Z.of_N (N.shiftr ts 22) + DISCORD_EPOCH)%Z.

(** [logUserMessage]: the line is written with [logToFile]. *)
Definition logUserMessage (b : Bot) (event : DiscordEvent)
    : list Attachment * Bot :=
  let u := users b !! e_user event in
  let '(attachments, st) :=
    match e_files event with
    | Some files =>
        ChannelStore.processAttachments (store b) (e_channel event) files
          (pretty (e_ts event))
    | None => ([], store b)
    end in
  let entry :=
    mkLogged (Some (snowflakeDate (e_ts event))) (pretty (e_ts event))
             (e_user event) (u_userName <$> u) (u_displayName <$> u)
             (e_text event) attachments false in
  (attachments,
   mkBot (logToFile (world b) (e_channel event) entry) st (users b)
         (botUserId b) (startupTs b) (queues b) (channelStates b) (inflight b)
         (stopping b)).

Definition withAttachments (e : DiscordEvent) (a : list Attachment) : DiscordEvent :=
  mkEvent (e_type e) (e_channel e) (e_ts e) (e_user e) (e_text e) (e_files e)
          (Some a).

Definition beforeStartup (b : Bot) (message : Incoming) : bool :=
  match startupTs b with
  | Some t => negb (t =? 0)%Z && (in_createdTimestamp message <? t)%Z
  | None => false
  end.

Definition isStop (text : string) : bool :=
  (Js.trim (Js.toLowerCase text) =? "stop")%string.

(** The ["messageCreate"] listener. *)
Definition messageCreate (b : Bot) (message : Incoming) : Bot :=
  if in_authorBot message then b
  else if bool_decide (botUserId b = Some (in_authorId message)) then b
  else
    let isDM := in_isDM message in
    let isMention := in_mentionsBot message in
    if negb isDM && negb isMention then
      snd (logUserMessage b (buildEvent b message mention))
    else
      let discordEvent := buildEvent b message (if isDM then dm else mention) in
      let '(attachments, b) := logUserMessage b discordEvent in
      let discordEvent := withAttachments discordEvent attachments in
      if beforeStartup b message then
        setWorld b
          (logInfo (world b)
             ("[" +:+ in_channelId message
                +:+ "] Logged old message (pre-startup), not triggering: "
                +:+ Js.substring0 30 (e_text discordEvent)))
      else if isStop (e_text discordEvent) then
        if isRunning b (in_channelId message)
        then handleStop b (in_channelId message)
        else setWorld b
               (snd (postMessage (world b) (in_channelId message) "_Nothing running_"))
      else if isRunning b (in_channelId message) then
        let stopHint := if isDM then "`stop`"%string else "`@mother stop`"%string in
        setWorld b
          (snd (postMessage (world b) (in_channelId message)
                  ("_Already working. Say " +:+ stopHint +:+ " to cancel._")))
      else enqueue b (in_channelId message) (mkWork discordEvent false).

(** *** The rest of [handleEvent] *)

(** The run acting on its context while it is in flight. *)
Definition runActs (b : Bot) (queueId : string) (ops : list Op) : Bot :=
  match inflight b !! queueId with
  | Some (work, ctx) =>
      let '(ctx', w) := runOps (ctx, world b) ops in
      setInflight (setWorld b w) (<[queueId := (work, ctx')]> (inflight b))
  | None => b
  end.

(** How [runner.run] came back: with a stop reason, or by throwing. *)
Inductive RunResult : Type :=
| Returned (stopReason : string)
| Threw (message : string).

(** [handleEvent] after [runner.run]: the working indicator is
    cleared, a requested stop is acknowledged, [running] is reset;
    then [processNext] resumes and starts the next queued work.  The
    tail is taken as one step, with the stop message it finds when
    it starts. *)
Definition handleEventEnd (b : Bot) (queueId : string) (result : RunResult) : Bot :=
  match inflight b !! queueId with
  | None => b
  | Some (work, ctx) =>
      let ch := e_channel (work_event work) in
      let s := default newState (channelStates b !! ch) in
      let '(s, w) :=
        match result with
        | Returned stopReason =>
            let '(_, w) := setWorking ctx (world b) false in
            if (stopReason =? "aborted")%string && stopRequested s then
              match stopMessage s with
              | Some m =>
                  (mkState (running s) (stopRequested s) None (abortCalls s),
                   updateMessage w m "*Stopped*")
              | None => (s, snd (postMessage w ch "*Stopped*"))
              end
            else (s, w)
        | Threw msg =>
            (s, logWarning (world b) ("[" +:+ ch +:+ "] Run error") (Some msg))
        end in
      let b := setState (setWorld b w) ch
                 (mkState false (stopRequested s) (stopMessage s) (abortCalls s)) in
      let b := setInflight b (delete queueId (inflight b)) in
      let q := default emptyQueue (queues b !! queueId) in
      processNext (setQueue b queueId (mkQueue (queue q) false)) queueId
  end.

Definition start (workingDir : string) (botUserId : option string)
    (startupTs : option Z) : Bot :=
  mkBot (Discord.mkWorld [] 0%N ∅ [] workingDir 0%Z)
        (ChannelStore.create workingDir) ∅ botUserId startupTs ∅ ∅ ∅ [].

(** Vocabulary for the statements about the listener. *)

(** A message the listener acts on: written by someone else, sent to
    the bot directly or mentioning it, and not older than the start. *)
Definition addressed (b : Bot) (message : Incoming) : Prop :=
  in_authorBot message = false
  /\ botUserId b <> Some (in_authorId message)
  /\ (in_isDM message = true \/ in_mentionsBot message = true)
  /\ beforeStartup b message = false.

(** The event the listener builds for it, and the bot once the
    message has been logged. *)
Definition eventOf (b : Bot) (message : Incoming) : DiscordEvent :=
  let e := buildEvent b message (if in_isDM message then dm else mention) in
  withAttachments e (fst (logUserMessage b e)).

Definition logged (b : Bot) (message : Incoming) : Bot :=
  snd (logUserMessage b
         (buildEvent b message (if in_isDM message then dm else mention))).

Definition queueOf (b : Bot) (channelId : string) : ChannelQueue :=
  default emptyQueue (queues b !! channelId).

Definition warnings (b : Bot) : list LogLine :=
  filter (fun l => l_level l = Warning) (console (world b)).

Definition stopHintFor (message : Incoming) : string :=
  if in_isDM message then "`stop`"%string else "`@mother stop`"%string.

(** What [enqueue] does with a work item, given the queue [q] it found:
    behind a work in progress it waits at the end of the queue; on an
    idle queue the head of the queue is started at once. *)
Definition admitted (q : ChannelQueue) (work : Work) (b' : Bot)
    (channelId : string) : Prop :=
  (processing q = true ->
   queueOf b' channelId = mkQueue (queue q ++ [work]) true)
  /\ (processing q = false ->
      exists first rest ctx,
        queue q ++ [work] = first :: rest
        /\ queueOf b' channelId = mkQueue rest true
        /\ inflight b' !! channelId = Some (first, ctx)).

Definition queueFullWarning (event : DiscordEvent) : LogLine :=
  mkLog Warning
    ("Event queue full for " +:+ e_channel event +:+ ", discarding: "
       +:+ Js.substring0 50 (e_text event)) None.

End Bot.

(* ===================================================================== *)
(** ** agent.ts: the texts a run writes *)
(* ===================================================================== *)

Module AgentText.
Import AgentRun.

(** [truncate(text, maxLen)], for an integer [maxLen]; a negative
    end index of [substring] counts as zero. *)
Definition truncate (text : string) (maxLen : Z) : string :=
  if (Z.of_nat (String.length text) <=? maxLen)%Z then text
  else Js.substring0 (Z.to_nat (maxLen - 3)) text +:+ "...".

(** The suffix of a part that is followed by another one. *)
Definition continued (partNum : nat) : string :=
  String "010" ("*(continued " +:+ pretty partNum +:+ "...)*").

(** The [while (remaining.length > 0)] loop of [splitForDiscord].
    Every round takes a chunk off [remaining], so its length bounds
    the rounds. *)
Fixpoint splitRounds (fuel : nat) (remaining : string) (partNum : nat)
    : list string :=
  match fuel with
  | O => []
  | S fuel' =>
      if 0 <? String.length remaining then
        let chunk := Js.substring0 (DISCORD_MAX_LENGTH - 50) remaining in
        let remaining := Js.slice (DISCORD_MAX_LENGTH - 50) remaining in
        let suffix :=
          if 0 <? String.length remaining then continued partNum
          else EmptyString in
        (chunk +:+ suffix) :: splitRounds fuel' remaining (S partNum)
      else []
  end.

Definition splitForDiscord (text : string) : list string :=
  if String.length text <=? DISCORD_MAX_LENGTH then [text]
  else splitRounds (String.length text) text 1.

(** What [run] reads off [new Date()]: the local calendar fields and
    [getTimezoneOffset()], all of them integers. *)
Record LocalTime : Type := mkLocalTime {
  fullYear : Z;
  month : Z;
  dayOfMonth : Z;
  hours : Z;
  minutes : Z;
  seconds : Z;
  timezoneOffset : Z
}.

(** [s.padStart(2, "0")] *)
Definition padStart2 (s : string) : string :=
  match String.length s with
  | 0 => "00" +:+ s
  | 1 => "0" +:+ s
  | _ => s
  end.

(** [pad]: [n.toString().padStart(2, "0")] *)
Definition pad (n : Z) : string := padStart2 (pretty n).

Definition timestampOf (now : LocalTime) : string :=
  let offset := (- timezoneOffset now)%Z in
  let offsetSign := if (0 <=? offset)%Z then "+" else "-" in
  let offsetHours := pad (Z.abs offset / 60)%Z in
  let offsetMins := pad (Z.abs offset mod 60)%Z in
  pretty (fullYear now) +:+ "-" +:+ pad (month now + 1)%Z +:+ "-"
    +:+ pad (dayOfMonth now) +:+ " " +:+ pad (hours now) +:+ ":"
    +:+ pad (minutes now) +:+ ":" +:+ pad (seconds now) +:+ offsetSign
    +:+ offsetHours +:+ ":" +:+ offsetMins.

(** [userName || "unknown"] *)
Definition nameOrUnknown (userName : option string) : string :=
  match userName with
  | Some n => if Js.truthy n then n else "unknown"
  | None => "unknown"
  end.

(** The header [run] puts before the text of the user. *)
Definition headerOf (now : LocalTime) (userName : option string) : string :=
  "[" +:+ timestampOf now +:+ "] [" +:+ nameOrUnknown userName +:+ "]: ".

(** The block that lists the attachments that are not inlined as
    images. *)
Definition attachmentsBlock (nonImagePaths : list string) : string :=
  match nonImagePaths with
  | [] => EmptyString
  | _ =>
      String "010" (String "010" ("<discord_attachments>" +:+
        String "010" (Js.join (String "010" EmptyString) nonImagePaths +:+
        String "010" "</discord_attachments>")))
  end.

(** The user message [run] prompts the session with. *)
Definition userMessageOf (now : LocalTime) (userName : option string)
    (text : string) (nonImagePaths : list string) : string :=
  headerOf now userName +:+ text +:+ attachmentsBlock nonImagePaths.

(** Vocabulary for the statements about the texts. *)

(** The fields of a date as JavaScript hands them out. *)
Definition calendar (now : LocalTime) : Prop :=
  (0 <= month now <= 11)%Z /\ (1 <= dayOfMonth now <= 31)%Z
  /\ (0 <= hours now <= 23)%Z /\ (0 <= minutes now <= 59)%Z
  /\ (0 <= seconds now <= 59)%Z
  /\ (-1440 < timezoneOffset now < 1440)%Z.

(** The parts of a split text: full chunks, each marked with its
    number, and a last chunk without a mark. *)
Definition marked (chunks : list string) (last : string) : list string :=
  imap (fun i chunk => chunk +:+ continued (S i)) chunks ++ [last].

(** The strings of a list, one after the other. *)
Definition glue (parts : list string) : string :=
  foldr String.append EmptyString parts.

(** The longest string JavaScript can hold has [2^53 - 1] code units. *)
Definition MAX_STRING_LENGTH : Z := 9007199254740991.

End AgentText.

(* ===================================================================== *)
(** ** tools/guard.ts, tools/index.ts, tools/attach.ts: configuring and
       using the guards *)
(* ===================================================================== *)

Module Tools.
Import Guard.

(** One round of the loop of [parseAllowedCommandsEnv]. *)
Definition parseToken (acc : list string * list string) (token : string)
    : list string * list string :=
  let '(add, remove) := acc in
  let trimmed := Js.trim token in
  if negb (Js.truthy trimmed) then (add, remove)
  else if Js.startsWith trimmed "-" then (add, remove ++ [Js.slice 1 trimmed])
  else if Js.startsWith trimmed "+" then (add ++ [Js.slice 1 trimmed], remove)
  else (add ++ [trimmed], remove).

(** [parseAllowedCommandsEnv]: the pair [(add, remove)]. *)
Definition parseAllowedCommandsEnv (envValue : string)
    : list string * list string :=
  fold_left parseToken (Js.split_on (Js.is_char ",") envValue) ([], []).

(** The module-level state of guard.ts, and the workspace directory
    the attach tool was created with. *)
Record Guards : Type := mkGuards {
  allowedPrefixes : list string;
  allowedCommands : gset string;
  attachWorkspaceDir : option string
}.

(** The state when the module is loaded, with the default attach tool. *)
Definition unconfigured : Guards :=
  mkGuards allowedPrefixes0 DEFAULT_ALLOWED_COMMANDS None.

(** The two variables [createMomTools] reads from [process.env]. *)
Record ProcessEnv : Type := mkEnv {
  MOTHER_ALLOWED_PATHS : option string;
  MOTHER_ALLOWED_COMMANDS : option string
}.

(** What [createMomTools] does to the guards: nothing without a
    [guardWorkspaceDir]; with one, both guards are initialized from
    the environment and the attach tool is bound to the directory. *)
Definition createMomTools (g : Guards) (env : ProcessEnv)
    (guardWorkspaceDir : option string) : Guards :=
  match guardWorkspaceDir with
  | Some dir =>
      if Js.truthy dir then
        let extraPaths :=
          (fun v => filter (fun p => Js.truthy p = true)
                           (Js.split_on (Js.is_char ":") v))
            <$> MOTHER_ALLOWED_PATHS env in
        let commands :=
          match MOTHER_ALLOWED_COMMANDS env with
          | Some envCommands =>
              if Js.truthy envCommands then
                let '(add, remove) := parseAllowedCommandsEnv envCommands in
                initCommandGuard (Some add) (Some remove)
              else initCommandGuard None None
          | None => initCommandGuard None None
          end in
        mkGuards (initPathGuard dir extraPaths) commands (Some dir)
      else mkGuards (allowedPrefixes g) (allowedCommands g) None
  | None => mkGuards (allowedPrefixes g) (allowedCommands g) None
  end.

(** [path.basename(path)]: the last segment that is not empty. *)
Definition basename (path : string) : string :=
  default EmptyString
    (last (filter (fun seg => Js.truthy seg = true)
                  (Js.split_on (Js.is_char "/") path))).

(** How a call of the attach tool ends: by throwing, or with the call
    [uploadFn(absolutePath, fileName)] and the text returned. *)
Inductive Attached : Type :=
| Threw (message : string)
| Uploaded (absolutePath fileName text : string).

(** [title || basename(absolutePath)] *)
Definition fileNameOf (title : option string) (absolutePath : string) : string :=
  match title with
  | Some t => if Js.truthy t then t else basename absolutePath
  | None => basename absolutePath
  end.

(** The [execute] of the attach tool made by [makeAttachExecute].
    [uploadConfigured] tells whether [setUploadFunction] was called,
    [aborted] is [signal?.aborted].  The fields read with a non-null
    assertion are the ones [guardPath] always sets. *)
Definition attachExecute (g : Guards) (processCwd : string)
    (uploadConfigured aborted : bool) (path : string) (title : option string)
    : Attached :=
  if negb uploadConfigured then Threw "Upload function not configured"
  else if aborted then Threw "Operation aborted"
  else
    let checked :=
      match attachWorkspaceDir g with
      | Some workspaceDir =>
          if Js.truthy workspaceDir then
            let check := guardPath (allowedPrefixes g) processCwd path workspaceDir in
            if allowed check then inl (default path (resolvedPath check))
            else inr (default EmptyString (reason check))
          else inl path
      | None => inl path
      end in
    match checked with
    | inr why => Threw why
    | inl path =>
        let absolutePath := NodePath.resolve processCwd [path] in
        let fileName := fileNameOf title absolutePath in
        Uploaded absolutePath fileName ("Attached file: " +:+ fileName)
    end.

(** Vocabulary for the statements about the configuration. *)

(** An entry of [MOTHER_ALLOWED_COMMANDS]. *)
Inductive Entry : Type :=
| Plus (name : string)    (* [+name] *)
| Minus (name : string)   (* [-name] *)
| Bare (name : string).   (* [name] *)

Definition render (e : Entry) : string :=
  match e with
  | Plus name => "+" +:+ name
  | Minus name => "-" +:+ name
  | Bare name => name
  end.

(** An entry that is read back as it was written: no comma in it, no
    white space at its end; a bare name is not empty, does not start
    with white space or with a sign. *)
Definition wellFormed (e : Entry) : Prop :=
  Js.includes_char "," (render e) = false
  /\ match e with
     | Plus name | Minus name => Js.trimEnd name = name
     | Bare name =>
         name <> EmptyString /\ Js.trim name = name
         /\ Js.startsWith name "+" = false /\ Js.startsWith name "-" = false
     end.

Definition added (entries : list Entry) : list string :=
  omap (fun e => match e with
                 | Plus name | Bare name => Some name
                 | Minus _ => None
                 end) entries.

Definition removed (entries : list Entry) : list string :=
  omap (fun e => match e with Minus name => Some name | _ => None end) entries.

(** A path at or below one of the prefixes. *)
Definition within (prefixes : list string) (path : string) : Prop :=
  exists prefix, prefix ∈ prefixes
    /\ (path = prefix \/ exists rest, path = prefix +:+ "/" +:+ rest).

End Tools.

(* ===================================================================== *)
(** ** store.ts: reading the log back, and the download queue *)
(* ===================================================================== *)

Module StoreReads.
Import Env ChannelStore.

(** [getLastTimestamp].  A log file holds one line per message, each
    the [JSON.stringify] of the message; the lines the model keeps are
    those messages, so the last line parses to the last of them. *)
Definition getLastTimestamp (s : Store) (fs : FS) (channelId : string)
    : option string :=
  let logPath := pathJoin [workingDir s; channelId; "log.jsonl"%string] in
  match fs !! logPath with
  | None => None
  | Some lines => ts <$> last lines
  end.

(** Vocabulary: the identifier Discord makes for a message created at
    the millisecond [ms], with [low] as its worker, process and
    sequence bits. *)
Definition snowflake (ms : Z) (low : N) : N :=
  N.lor (N.shiftl (Z.to_N (ms - Bot.DISCORD_EPOCH)) 22) low.

(** The largest time value of a [Date], in milliseconds; past it
    [toISOString] throws a [RangeError]. *)
Definition MAX_TIME_VALUE : Z := 8640000000000000.

End StoreReads.

Module Downloads.
Import Env Discord ChannelStore.

(** How a [fetch] of an attachment ends. *)
Inductive Fetched : Type :=
| Ok                        (* the response is ok; the body is written *)
| Failed (message : string) (* it is not, or the fetch throws *).

(** A store with its download loop.  [current] is the download the
    loop is waiting for.  [queued] and [attempts] are history: every
    download ever queued, and every download ever started. *)
Record Queue : Type := mkQueue {
  store : Store;
  current : option PendingDownload;
  queued : list PendingDownload;
  attempts : list PendingDownload;
  written : list string;
  warnings : list LogLine
}.

Definition fresh (workingDir : string) : Queue :=
  mkQueue (create workingDir) None [] [] [] [].

Definition setLoop (q : Queue) (pending : list PendingDownload)
    (downloading : bool) (cur : option PendingDownload)
    (started : list PendingDownload) : Queue :=
  mkQueue (mkStore (workingDir (store q)) pending downloading
                   (recentlyLogged (store q)))
          cur (queued q) (attempts q ++ started) (written q) (warnings q).

(** The head of the [while (pendingDownloads.length > 0)] loop: the
    next item is shifted off and its download started, or the loop
    ends and [isDownloading] is reset. *)
Definition loopHead (q : Queue) : Queue :=
  match pendingDownloads (store q) with
  | item :: rest => setLoop q rest true (Some item) [item]
  | [] => setLoop q [] false None []
  end.

(** [processDownloadQueue], up to its first [await]. *)
Definition processDownloadQueue (q : Queue) : Queue :=
  if isDownloading (store q) || (length (pendingDownloads (store q)) =? 0)
  then q
  else loopHead q.

(** [processAttachments]: the loop, then the trigger of the queue,
    with the download started kept in [current]. *)
Definition processAttachments (q : Queue) (channelId : string)
    (files : list FileRef) (timestamp : string) : list Attachment * Queue :=
  let '(attachments, s) :=
    ChannelStore.queueAttachments (store q) channelId files timestamp in
  (attachments,
   processDownloadQueue
     (mkQueue s (current q)
              (queued q ++ drop (length (pendingDownloads (store q)))
                                (pendingDownloads s))
              (attempts q) (written q) (warnings q))).

(** The download the loop waits for settles: the file is written, or
    the failure is logged; then the loop goes on. *)
Definition settle (q : Queue) (result : Fetched) : Queue :=
  match current q with
  | None => q
  | Some item =>
      let q :=
        match result with
        | Ok =>
            mkQueue (store q) (current q) (queued q) (attempts q)
                    (written q ++ [pathJoin [workingDir (store q); pd_localPath item]])
                    (warnings q)
        | Failed message =>
            mkQueue (store q) (current q) (queued q) (attempts q) (written q)
                    (warnings q ++
                       [mkLog Warning "Failed to download attachment"
                              (Some (pd_localPath item +:+ ": " +:+ message))])
        end in
      loopHead q
  end.

(** What happens to a store's downloads. *)
Inductive step : Queue -> Queue -> Prop :=
| step_attach q channelId files timestamp :
    step q (snd (processAttachments q channelId files timestamp))
| step_settle q result :
    step q (settle q result).

Inductive reachable : Queue -> Prop :=
| reach_fresh workingDir : reachable (fresh workingDir)
| reach_step q q' : reachable q -> step q q' -> reachable q'.

(** Vocabulary: what the loop keeps true.  The downloads started and
    those waiting are the downloads queued; the store is downloading
    exactly while a download is awaited, and nothing waits otherwise;
    every download started but the awaited one has ended with a file
    or a warning. *)
Definition awaited (q : Queue) : nat :=
  match current q with Some _ => 1 | None => 0 end.

Definition inOrder (q : Queue) : Prop :=
  queued q = attempts q ++ pendingDownloads (store q)
  /\ (isDownloading (store q) = true <-> is_Some (current q))
  /\ (current q = None -> pendingDownloads (store q) = [])
  /\ (forall item, current q = Some item -> last (attempts q) = Some item)
  /\ length (written q) + length (warnings q) + awaited q
     = length (attempts q).

End Downloads.

(* ===================================================================== *)
(** ** discord.ts: the rate limiter; main.ts: a run seen from Discord *)
(* ===================================================================== *)

Module RateLimiter.

Record T : Type := mkLimiter { lastEditTime : Z }.

Definition fresh : T := mkLimiter 0.

Definition minEditInterval : Z := 1000.

(** [waitForEdit], called at the time [now].  [late] is the time that
    passes between the moment the call may go on (at once, or when the
    timer it sets is due) and the moment it reads the clock again.
    The call returns at that moment, which becomes [lastEditTime]. *)
Definition waitForEdit (r : T) (now late : Z) : Z * T :=
  let elapsed := (now - lastEditTime r)%Z in
  let due :=
    if (elapsed <? minEditInterval)%Z
    then (now + (minEditInterval - elapsed))%Z
    else now in
  ((due + late)%Z, mkLimiter (due + late)%Z).

(** Calls made one after the other, each given as [(now, late)]: the
    times at which they return. *)
Fixpoint edits (r : T) (calls : list (Z * Z)) : list Z :=
  match calls with
  | [] => []
  | (now, late) :: rest =>
      let '(t, r') := waitForEdit r now late in
      t :: edits r' rest
  end.

(** Vocabulary: times that are at least the interval apart. *)
Fixpoint spaced (previous : Z) (times : list Z) : Prop :=
  match times with
  | [] => True
  | t :: rest => (previous + minEditInterval <= t)%Z /\ spaced t rest
  end.

End RateLimiter.

Module RunProtocol.
Import Discord Context AgentRun.

(** The calls [run] makes on its context while the model works. *)
Definition runCall (op : Op) : bool :=
  match op with
  | Respond _ _ | ReplaceMessage _ | RespondInThread _ | UploadFile _ _ => true
  | SetTyping _ | SetWorking _ => false
  end.

(** What [handleEvent] does with the context up to the end of [run]:
    [setTyping(true)], [setWorking(true)], then the calls of the run. *)
Definition duringRun (ops : list Op) : list Op :=
  SetTyping true :: SetWorking true :: ops.

Definition isThreadResponse (op : Op) : bool :=
  match op with RespondInThread _ => true | _ => false end.

(** Vocabulary for the statements about a run. *)

Definition lookupMessage (w : World) (id : N) : option Message :=
  find (fun m => (m_id m =? id)%N) (messages w).

(** The first status text of a run. *)
Definition statusOf (eventFilename : option string) : string :=
  match eventFilename with
  | Some f => "*Starting event: " +:+ f +:+ "*"
  | None => "*Thinking*"%string
  end.

(** A context whose main message [main] stands in the channel and
    shows the accumulated text with the working indicator; every
    later message is a thread message under it or a file. *)
Definition showing (ch : string) (main : N) (c : Ctx) (w : World) : Prop :=
  message c = Some main /\ channel c = ch /\ isWorking c = true
  /\ wellFormed w /\ (main < nextId w)%N
  /\ lookupMessage w main
     = Some (mkMsg main ch Plain (accumulatedText c +:+ workingIndicator))
  /\ (forall msg, msg ∈ messages w -> (main < m_id msg)%N ->
                  m_kind msg = InThread main \/ m_kind msg = Upload).

End RunProtocol.

(* ===================================================================== *)
(** ** discord.ts and main.ts: what can happen to the bot *)
(* ===================================================================== *)

Module BotRuns.
Import Env Discord Context AgentRun Bot.

(** The tail of [run] acting on the context of the run in flight. *)
Definition runFinishes (b : Bot) (queueId : string) (o : Outcome) : Bot :=
  match inflight b !! queueId with
  | Some (work, ctx) =>
      let '(ctx', w, _) := finish o ctx (world b) in
      setInflight (setWorld b w) (<[queueId := (work, ctx')]> (inflight b))
  | None => b
  end.

(** What can happen to a bot: a Discord message arrives, the events
    watcher hands in an event, a run in flight acts on its context or
    comes to its tail, a run returns or throws, the post of a
    [handleStop] returns. *)
Inductive step : Bot -> Bot -> Prop :=
| step_message b message : step b (messageCreate b message)
| step_event b event : step b (snd (enqueueEvent b event))
| step_acts b queueId ops : step b (runActs b queueId ops)
| step_finish b queueId o : step b (runFinishes b queueId o)
| step_end b queueId result : step b (handleEventEnd b queueId result)
| step_stopped b i : step b (handleStopEnd b i).

Inductive reachable : Bot -> Prop :=
| reach_start workingDir botUserId startupTs :
    reachable (Bot.start workingDir botUserId startupTs)
| reach_step b b' : reachable b -> step b b' -> reachable b'.

(** Vocabulary for the invariant. *)

(** The work of the run in flight on a queue. *)
Definition workOf (b : Bot) (channelId : string) : option Work :=
  fst <$> inflight b !! channelId.

(** What a channel looks like: its queue, whether it is marked as
    running, and the work in flight. *)
Definition view (b : Bot) (channelId : string)
    : ChannelQueue * bool * option Work :=
  (queueOf b channelId, isRunning b channelId, workOf b channelId).

(** A channel is served serially: its queue is processing, and it is
    marked as running, exactly while a run is in flight; that run is a
    run for this channel; work waits only behind a run in flight; at
    most five works wait, all of them scheduled events of this
    channel. *)
Definition serialAt (v : ChannelQueue * bool * option Work) (channelId : string)
    : Prop :=
  let '(q, isRunning, inFlight) := v in
  processing q = bool_decide (is_Some inFlight)
  /\ isRunning = bool_decide (is_Some inFlight)
  /\ (forall work, inFlight = Some work -> e_channel (work_event work) = channelId)
  /\ (inFlight = None -> queue q = [])
  /\ size q <= QUEUE_CAP
  /\ Forall (fun work => e_channel (work_event work) = channelId
                         /\ work_isEvent work = true) (queue q).

Definition serial (b : Bot) : Prop :=
  forall channelId, serialAt (view b channelId) channelId.

End BotRuns.

(* ===================================================================== *)
(** ** agent.ts: the directories of a channel, memory and skills *)
(* ===================================================================== *)

Module Workspace.
Import Env.

(** [s.replace(pattern, replacement)] for a string pattern and a
    replacement without a dollar sign: the first occurrence of the
    pattern is replaced. *)
Fixpoint replace (s pattern replacement : string) : string :=
  if Js.startsWith s pattern
  then replacement +:+ Js.slice (String.length pattern) s
  else match s with
       | EmptyString => EmptyString
       | String c s' => String c (replace s' pattern replacement)
       end.

(** [createRunner]: the workspace directory handed to the executor,
    to [createMomTools] and to [generateWorkspaceTree]. *)
Definition hostWorkspaceDir (channelDir channelId : string) : string :=
  replace channelDir ("/" +:+ channelId) EmptyString.

Definition translateToHostPath
    (containerPath channelDir workspacePath channelId : string) : string :=
  if (workspacePath =? "/workspace")%string then
    let prefix := "/workspace/" +:+ channelId +:+ "/" in
    if Js.startsWith containerPath prefix then
      pathJoin [channelDir; Js.slice (String.length prefix) containerPath]
    else if Js.startsWith containerPath "/workspace/" then
      pathJoin [channelDir; ".."%string;
                Js.slice (String.length "/workspace/") containerPath]
    else containerPath
  else containerPath.

End Workspace.

Module Memory.
Import Env.

(** What [existsSync] and [readFileSync] find at a path: nothing, a
    file that is read, or one whose reading throws. *)
Inductive File : Type :=
| Text (content : string)
| Unreadable (error : string).

Definition Disk : Type := gmap string File.

(** The dash of the truncation notices is U+2014, one code unit in
    JavaScript and outside the Latin-1 range of the model; one
    character stands for it here. *)
Definition dash : string := String "151" EmptyString.

Definition globalTruncated : string :=
  String "010" ("[Global memory truncated " +:+ dash
                +:+ " clean up MEMORY.md to remove outdated entries]").

Definition channelTruncated : string :=
  String "010" ("[Channel memory truncated " +:+ dash
                +:+ " clean up MEMORY.md to remove outdated entries]").

Definition notesTruncated : string :=
  String "010" ("[Truncated " +:+ dash +:+ " keep MOTHER.md concise]").

Definition newline2 : string := String "010" (String "010" EmptyString).

(** [getMemory]: the memory section of the prompt, and the warnings
    logged on the way, each with its title and details. *)
Definition getMemory (disk : Disk) (channelDir : string)
    : string * list (string * string) :=
  let MAX_GLOBAL_CHARS := 1500 in
  let MAX_CHANNEL_CHARS := 1000 in
  let workspaceMemoryPath := pathJoin [channelDir; ".."; "MEMORY.md"]%string in
  let '(parts, warnings) :=
    match disk !! workspaceMemoryPath with
    | Some (Text raw) =>
        let content := Js.trim raw in
        if Js.truthy content then
          let content :=
            if MAX_GLOBAL_CHARS <? String.length content
            then Js.substring0 MAX_GLOBAL_CHARS content +:+ globalTruncated
            else content in
          ([String.append "### Global Workspace Memory"
              (String "010" content)], [])
        else ([], [])
    | Some (Unreadable error) =>
        ([], [("Failed to read workspace memory"%string,
               workspaceMemoryPath +:+ ": " +:+ error)])
    | None => ([], [])
    end in
  let channelMemoryPath := pathJoin [channelDir; "MEMORY.md"]%string in
  let '(parts, warnings) :=
    match disk !! channelMemoryPath with
    | Some (Text raw) =>
        let content := Js.trim raw in
        if Js.truthy content then
          let content :=
            if MAX_CHANNEL_CHARS <? String.length content
            then Js.substring0 MAX_CHANNEL_CHARS content +:+ channelTruncated
            else content in
          (parts ++ [String.append "### Channel-Specific Memory"
                       (String "010" content)], warnings)
        else (parts, warnings)
    | Some (Unreadable error) =>
        (parts, warnings ++ [("Failed to read channel memory"%string,
                              channelMemoryPath +:+ ": " +:+ error)])
    | None => (parts, warnings)
    end in
  (match parts with
   | [] => "(no working memory yet)"%string
   | _ => Js.join newline2 parts
   end, warnings).

Definition getMotherNotes (disk : Disk) (channelDir : string)
    : string * list (string * string) :=
  let motherPath := pathJoin [channelDir; ".."; "MOTHER.md"]%string in
  match disk !! motherPath with
  | Some (Text raw) =>
      let content := Js.trim raw in
      if Js.truthy content then
        let MAX_MOTHER_CHARS := 3000 in
        (if MAX_MOTHER_CHARS <? String.length content
         then Js.substring0 MAX_MOTHER_CHARS content +:+ notesTruncated
         else content, [])
      else (EmptyString, [])
  | Some (Unreadable error) =>
      (EmptyString, [("Failed to read MOTHER.md"%string,
                      motherPath +:+ ": " +:+ error)])
  | None => (EmptyString, [])
  end.

(** Vocabulary: a path at which there is nothing to quote: no file,
    a file that cannot be read, or one that is blank. *)
Definition silent (disk : Disk) (path : string) : Prop :=
  match disk !! path with
  | Some (Text raw) => Js.trim raw = EmptyString
  | _ => True
  end.

End Memory.

Module Skills.
Import Env.

(** A skill of the coding-agent library: the fields [loadMotherSkills]
    reads or writes, and the rest of the object. *)
Record Skill (Rest : Type) : Type := mkSkill {
  name : string;
  filePath : string;
  baseDir : string;
  rest : Rest
}.
Arguments mkSkill {Rest}.
Arguments name {Rest}.
Arguments filePath {Rest}.
Arguments baseDir {Rest}.
Arguments rest {Rest}.

(** A [Map] keeps its keys in the order of their first [set]. *)
Fixpoint mapSet {V} (m : list (string * V)) (key : string) (value : V)
    : list (string * V) :=
  match m with
  | [] => [(key, value)]
  | (k, v) :: m' =>
      if (k =? key)%string then (k, value) :: m'
      else (k, v) :: mapSet m' key value
  end.

Definition mapValues {V} (m : list (string * V)) : list V := map snd m.

Definition translatePath (hostWorkspacePath workspacePath hostPath : string)
    : string :=
  if Js.startsWith hostPath hostWorkspacePath
  then workspacePath +:+ Js.slice (String.length hostWorkspacePath) hostPath
  else hostPath.

(** The body of both loops. *)
Definition loadInto {Rest} (hostWorkspacePath workspacePath : string)
    (skillMap : list (string * Skill Rest)) (skill : Skill Rest)
    : list (string * Skill Rest) :=
  let skill :=
    mkSkill (name skill)
            (translatePath hostWorkspacePath workspacePath (filePath skill))
            (baseDir skill) (rest skill) in
  let skill :=
    mkSkill (name skill) (filePath skill)
            (translatePath hostWorkspacePath workspacePath (baseDir skill))
            (rest skill) in
  mapSet skillMap (name skill) skill.

(** [loadMotherSkills]; [loadSkillsFromDir dir source] stands for the
    skills the library finds in a directory. *)
Definition loadMotherSkills {Rest}
    (loadSkillsFromDir : string -> string -> list (Skill Rest))
    (channelDir workspacePath : string) : list (Skill Rest) :=
  let skillMap := [] in
  let hostWorkspacePath := pathJoin [channelDir; ".."%string] in
  let workspaceSkillsDir := pathJoin [hostWorkspacePath; "skills"%string] in
  let skillMap :=
    fold_left (loadInto hostWorkspacePath workspacePath)
              (loadSkillsFromDir workspaceSkillsDir "workspace"%string)
              skillMap in
  let channelSkillsDir := pathJoin [channelDir; "skills"%string] in
  let skillMap :=
    fold_left (loadInto hostWorkspacePath workspacePath)
              (loadSkillsFromDir channelSkillsDir "channel"%string)
              skillMap in
  mapValues skillMap.

(** Vocabulary: a skill as the model is told about it, and the skill
    of a given name in a list. *)
Definition translated {Rest} (hostWorkspacePath workspacePath : string)
    (skill : Skill Rest) : Skill Rest :=
  mkSkill (name skill)
          (translatePath hostWorkspacePath workspacePath (filePath skill))
          (translatePath hostWorkspacePath workspacePath (baseDir skill))
          (rest skill).

Definition named {Rest} (n : string) (skill : Skill Rest) : bool :=
  (name skill =? n)%string.

Definition lastNamed {Rest} (n : string) (skills : list (Skill Rest))
    : option (Skill Rest) :=
  find (named n) (rev skills).

(** A map whose keys are the names of its skills, each once. *)
Definition keyed {Rest} (m : list (string * Skill Rest)) : Prop :=
  Forall (fun entry => fst entry = name (snd entry)) m /\ NoDup (map fst m).

End Skills.

(* ===================================================================== *)
(** * Properties *)
(* ===================================================================== *)

#[local] Arguments Js.is_char : simpl never.
#[local] Arguments Js.is_ws : simpl never.
#[local] Arguments Js.is_word : simpl never.
#[local] Arguments Js.is_alpha : simpl never.
#[local] Arguments Js.is_digit : simpl never.

(** ** Strings *)

Section StringFacts.

Lemma startsWith_iff (s p : string) :
  Js.startsWith s p = true <-> exists rest, s = p +:+ rest.
Proof.
  revert s. induction p as [|a p IH]; intros s; simpl.
  - split; [intros _; exists s; reflexivity | reflexivity].
  - destruct s as [|b s].
    + split; [discriminate | intros [rest H]; discriminate].
    + rewrite andb_true_iff, Ascii.eqb_eq, IH.
      split.
      * intros [-> [rest ->]]. now exists rest.
      * intros [rest H]. injection H as -> ->. split; [reflexivity|now exists rest].
Qed.

Lemma append_assoc (a b c : string) : (a +:+ b) +:+ c = a +:+ (b +:+ c).
Proof. induction a as [|x a IH]; simpl; [reflexivity | now rewrite IH]. Qed.

Lemma append_nil_r (a : string) : a +:+ EmptyString = a.
Proof. induction a as [|x a IH]; simpl; [reflexivity | now rewrite IH]. Qed.

Lemma string_eqb_iff (a b : string) : (a =? b)%string = true <-> a = b.
Proof. apply String.eqb_eq. Qed.

Lemma includes_app (s pre needle post : string) :
  s = pre +:+ needle +:+ post -> Js.includes s needle = true.
Proof.
  revert s. induction pre as [|c pre IH]; intros s ->; simpl.
  - destruct (needle +:+ post) eqn:E; simpl.
    + destruct needle; [reflexivity | discriminate].
    + apply orb_true_iff. left.
      rewrite <- E. apply startsWith_iff. now exists post.
  - apply orb_true_iff. right. now apply IH.
Qed.

Lemma isEmpty_true (s : string) : Js.isEmpty s = true <-> s = EmptyString.
Proof. destruct s; simpl; split; congruence. Qed.

Lemma truthy_false (s : string) : Js.truthy s = false <-> s = EmptyString.
Proof. unfold Js.truthy. destruct s; simpl; split; congruence. Qed.

Lemma length_append (s t : string) :
  String.length (s +:+ t) = String.length s + String.length t.
Proof. induction s as [|a s IH]; simpl; [reflexivity | now rewrite IH]. Qed.

End StringFacts.

(** ** The path guard *)

Section PathGuard.

(** What [initPathGuard] registers for the extra paths: each one
    trimmed, the empty ones skipped, the others normalized. *)
Lemma initPathGuard_extras (ps : list string) (acc : list string) :
  fold_left (fun acc p =>
               let trimmed := Js.trim p in
               if Js.truthy trimmed
               then acc ++ [NodePath.normalize trimmed] else acc) ps acc
  = acc ++ omap (fun p => if Js.truthy (Js.trim p)
                          then Some (NodePath.normalize (Js.trim p))
                          else None) ps.
Proof.
  revert acc. induction ps as [|p ps IH]; intros acc; simpl.
  - now rewrite app_nil_r.
  - rewrite IH. destruct (Js.truthy (Js.trim p)); simpl.
    + now rewrite <- app_assoc.
    + reflexivity.
Qed.

Lemma prefixAllows_iff (resolved prefix : string) :
  Guard.prefixAllows resolved prefix = true
  <-> resolved = prefix \/ exists rest, resolved = prefix +:+ "/" +:+ rest.
Proof.
  unfold Guard.prefixAllows.
  rewrite orb_true_iff, string_eqb_iff, startsWith_iff.
  split; (intros [H|[rest H]]; [now left | right; exists rest]).
  - now rewrite H, append_assoc.
  - now rewrite H, append_assoc.
Qed.

Lemma find_some_iff {A} (f : A -> bool) (l : list A) :
  (exists x, find f l = Some x) <-> exists x, x ∈ l /\ f x = true.
Proof.
  induction l as [|a l IH]; simpl.
  - split; intros [x H]; [discriminate | destruct H as [H _]; inversion H].
  - destruct (f a) eqn:E.
    + split; intros _; [exists a; split; [left|assumption] | now exists a].
    + rewrite IH. split; intros [x [Hin Hx]]; exists x; split; try assumption.
      * now right.
      * inversion Hin; subst; [congruence | assumption].
Qed.

(** *** Resolved paths are collapsed *)

Lemma includes_char_cons (a c : ascii) (s : string) :
  Js.includes_char a (String c s) = Js.is_char a c || Js.includes_char a s.
Proof. reflexivity. Qed.

Lemma includes_char_app (a : ascii) (s t : string) :
  Js.includes_char a (s +:+ t) = Js.includes_char a s || Js.includes_char a t.
Proof.
  induction s as [|c s IH]; [reflexivity|].
  cbn [String.append]. rewrite !includes_char_cons, IH. now rewrite orb_assoc.
Qed.

Lemma split_on_cons (sep : ascii -> bool) (c : ascii) (s : string) :
  Js.split_on sep (String c s)
  = if sep c then EmptyString :: Js.split_on sep s
    else match Js.split_on sep s with
         | h :: t => String c h :: t
         | [] => [String c EmptyString]
         end.
Proof. reflexivity. Qed.

Lemma split_on_no_sep (s : string) :
  Forall (fun seg => Js.includes_char "/" seg = false)
         (Js.split_on (Js.is_char "/") s).
Proof.
  induction s as [|c s IH]; [now repeat constructor|].
  rewrite split_on_cons.
  destruct (Js.is_char "/" c) eqn:E; [now constructor|].
  destruct (Js.split_on (Js.is_char "/") s) as [|h t].
  - repeat constructor. rewrite includes_char_cons, E. reflexivity.
  - apply Forall_cons in IH. destruct IH as [Hh Ht].
    constructor; [|exact Ht]. now rewrite includes_char_cons, E.
Qed.

Lemma string_eqb_false (a b : string) : a <> b -> (a =? b)%string = false.
Proof. apply String.eqb_neq. Qed.

Lemma normalizeSegments_plain (segs : list string) :
  forall acc,
    Forall (fun seg => Js.includes_char "/" seg = false) segs ->
    Forall NodePath.plainSegment acc ->
    Forall NodePath.plainSegment (NodePath.normalizeSegments false segs acc).
Proof.
  induction segs as [|seg segs IH]; intros acc Hs Hacc; simpl.
  - now apply Forall_rev.
  - apply Forall_cons in Hs. destruct Hs as [Hseg Hsegs].
    destruct (seg =? "")%string eqn:E1; simpl; [now apply IH|].
    destruct (seg =? ".")%string eqn:E2; simpl; [now apply IH|].
    destruct (seg =? "..")%string eqn:E3.
    + destruct acc as [|lastSeg acc]; [now apply IH|].
      apply Forall_cons in Hacc. destruct Hacc as [Hl Hacc].
      destruct (lastSeg =? "..")%string; apply IH; try assumption.
      now constructor.
    + apply IH; [exact Hsegs|]. constructor; [|exact Hacc].
      apply String.eqb_neq in E1, E2, E3. now repeat split.
Qed.

Lemma normalizeSegments_id (segs : list string) :
  Forall NodePath.plainSegment segs ->
  forall acc, NodePath.normalizeSegments false segs acc = rev acc ++ segs.
Proof.
  induction 1 as [|seg segs [H1 [H2 [H3 _]]] _ IH]; intros acc; simpl.
  - now rewrite app_nil_r.
  - rewrite !string_eqb_false by assumption. simpl.
    rewrite IH. simpl. now rewrite <- app_assoc.
Qed.

Lemma split_on_plain (s : string) :
  Js.includes_char "/" s = false -> Js.split_on (Js.is_char "/") s = [s].
Proof.
  induction s as [|c s IH]; [reflexivity|].
  rewrite includes_char_cons, split_on_cons.
  intros H. apply orb_false_iff in H. destruct H as [Hc Hs].
  now rewrite Hc, IH.
Qed.

Lemma split_on_append (s t : string) :
  Js.includes_char "/" s = false ->
  Js.split_on (Js.is_char "/") (s +:+ String "/" t)
  = s :: Js.split_on (Js.is_char "/") t.
Proof.
  induction s as [|c s IH]; [reflexivity|].
  rewrite includes_char_cons.
  intros H. apply orb_false_iff in H. destruct H as [Hc Hs].
  cbn [String.append]. rewrite split_on_cons, Hc, IH by exact Hs. reflexivity.
Qed.

Lemma split_join (segs : list string) :
  Forall NodePath.plainSegment segs -> segs <> [] ->
  Js.split_on (Js.is_char "/") (Js.join "/" segs) = segs.
Proof.
  induction 1 as [|seg segs [_ [_ [_ Hseg]]] Hrest IH]; intros Hne; [contradiction|].
  destruct segs as [|seg2 segs]; [now apply split_on_plain|].
  change (Js.join "/" (seg :: seg2 :: segs))
    with (seg +:+ String "/" (Js.join "/" (seg2 :: segs))).
  rewrite split_on_append by exact Hseg. f_equal. now apply IH.
Qed.

Lemma endsWithSlash_cons (c : ascii) (s : string) :
  NodePath.endsWithSlash (String c s)
  = match s with
    | EmptyString => Js.is_char "/" c
    | String _ _ => NodePath.endsWithSlash s
    end.
Proof. now destruct s. Qed.

Lemma endsWithSlash_plain (s : string) :
  Js.includes_char "/" s = false -> NodePath.endsWithSlash s = false.
Proof.
  induction s as [|c s IH]; [reflexivity|].
  rewrite includes_char_cons, endsWithSlash_cons.
  intros H. apply orb_false_iff in H. destruct H as [Hc Hs].
  destruct s; [exact Hc|now apply IH].
Qed.

Lemma endsWithSlash_append (s t : string) :
  t <> EmptyString ->
  NodePath.endsWithSlash (s +:+ t) = NodePath.endsWithSlash t.
Proof.
  intros Ht. induction s as [|c s IH]; [reflexivity|].
  cbn [String.append]. rewrite endsWithSlash_cons.
  destruct (s +:+ t) eqn:E; [|exact IH].
  destruct s; simpl in E; [contradiction|discriminate].
Qed.

Lemma join_plain (segs : list string) :
  Forall NodePath.plainSegment segs -> segs <> [] ->
  Js.join "/" segs <> EmptyString
  /\ NodePath.endsWithSlash (Js.join "/" segs) = false.
Proof.
  induction 1 as [|seg segs [Hne [_ [_ Hseg]]] Hrest IH]; intros Hnil; [contradiction|].
  destruct segs as [|seg2 segs].
  - split; [exact Hne|now apply endsWithSlash_plain].
  - destruct IH as [IH1 IH2]; [discriminate|].
    change (Js.join "/" (seg :: seg2 :: segs))
      with (seg +:+ String "/" (Js.join "/" (seg2 :: segs))).
    split.
    + destruct seg; [contradiction|discriminate].
    + rewrite endsWithSlash_append by discriminate.
      rewrite endsWithSlash_cons.
      destruct (Js.join "/" (seg2 :: segs)); [contradiction|exact IH2].
Qed.

(** Normalizing a collapsed path changes nothing. *)
Lemma normalize_collapsed (path : string) :
  NodePath.collapsed path -> NodePath.normalize path = path.
Proof.
  intros [segs [-> Hsegs]]. destruct segs as [|seg segs]; [reflexivity|].
  destruct (join_plain (seg :: segs) Hsegs) as [Hne Hend]; [discriminate|].
  unfold NodePath.normalize, NodePath.normalizeString.
  cbn [String.append Js.isEmpty NodePath.isAbsolute negb].
  change (String "/" (Js.join "/" (seg :: segs)))
    with (EmptyString +:+ String "/" (Js.join "/" (seg :: segs))).
  rewrite split_on_append by reflexivity.
  rewrite endsWithSlash_append by discriminate.
  assert (He : NodePath.endsWithSlash (String "/" (Js.join "/" (seg :: segs))) = false).
  { rewrite endsWithSlash_cons.
    destruct (Js.join "/" (seg :: segs)); [contradiction|exact Hend]. }
  rewrite He, split_join by (assumption || discriminate).
  change (NodePath.normalizeSegments false (EmptyString :: seg :: segs) [])
    with (NodePath.normalizeSegments false (seg :: segs) []).
  rewrite (normalizeSegments_id (seg :: segs) Hsegs []). cbn [rev app String.append].
  destruct (Js.join "/" (seg :: segs)); [contradiction|reflexivity].
Qed.

Lemma resolveLoop_absolute (processCwd : string) (args : list string) :
  NodePath.isAbsolute processCwd = true ->
  forall acc b, snd (NodePath.resolveLoop (args ++ [processCwd]) acc b) = true.
Proof.
  intros Hcwd. induction args as [|a args IH]; intros acc b; simpl.
  - destruct b; [reflexivity|].
    destruct processCwd; [discriminate|]. simpl. exact Hcwd.
  - destruct b; [reflexivity|]. destruct (Js.isEmpty a); apply IH.
Qed.

(** With an absolute working directory, what [path.resolve] returns
    is absolute and collapsed. *)
Lemma resolve_collapsed (processCwd : string) (args : list string) :
  NodePath.isAbsolute processCwd = true ->
  NodePath.collapsed (NodePath.resolve processCwd args).
Proof.
  intros Hcwd. unfold NodePath.resolve.
  pose proof (resolveLoop_absolute processCwd (rev args) Hcwd EmptyString false) as H.
  destruct (NodePath.resolveLoop _ _ _) as [p abs]. simpl in H. subst abs.
  simpl. unfold NodePath.normalizeString.
  eexists. split; [reflexivity|].
  apply normalizeSegments_plain; [apply split_on_no_sep|constructor].
Qed.

(** C9: with no prefix registered the guard lets every path through
    and hands the input back untouched. *)
Theorem guardPath_uninitialized (processCwd inputPath workspaceDir : string) :
  Guard.guardPath Guard.allowedPrefixes0 processCwd inputPath workspaceDir
  = Guard.mkGuardResult true None (Some inputPath)
  /\ Guard.guardPath Guard.allowedPrefixes0 processCwd "/etc/shadow" workspaceDir
     = Guard.mkGuardResult true None (Some "/etc/shadow"%string)
  /\ Guard.resolvedPath
       (Guard.guardPath Guard.allowedPrefixes0 "/" "a/../b/./c" "/home/mother/workspace")
     = Some "a/../b/./c"%string
  /\ NodePath.normalize
       (NodePath.resolve "/" ["/home/mother/workspace"; "a/../b/./c"]%string)
     = "/home/mother/workspace/b/c"%string.
Proof. repeat split; reflexivity. Qed.

(** C1: once initialized, the guard allows exactly the resolved paths
    that are a registered prefix or lie below one, and names both forms
    of the path when it refuses.  Under an absolute process directory
    the resolved path is absolute with every empty, [.] and [..]
    segment collapsed.  A sibling directory whose name merely extends
    the workspace's is refused, and so is a path that climbs out of
    the workspace through [..]. *)
Theorem guardPath_initialized
    (workspaceDir : string) (extraPaths : option (list string))
    (processCwd inputPath cwd : string) :
  let prefixes := Guard.initPathGuard workspaceDir extraPaths in
  let resolved :=
    NodePath.normalize (NodePath.resolve processCwd [cwd; inputPath]) in
  let r := Guard.guardPath prefixes processCwd inputPath cwd in
  prefixes
    = NodePath.normalize workspaceDir :: "/tmp"%string
        :: omap (fun p => if Js.truthy (Js.trim p)
                          then Some (NodePath.normalize (Js.trim p)) else None)
                (default [] extraPaths)
  /\ (Guard.allowed r = true
      <-> exists prefix, prefix ∈ prefixes
            /\ (resolved = prefix \/ exists rest, resolved = prefix +:+ "/" +:+ rest))
  /\ (Guard.allowed r = true ->
      r = Guard.mkGuardResult true None (Some resolved))
  /\ (Guard.allowed r = false ->
      r = Guard.mkGuardResult false
            (Some ("Path denied: " +:+ inputPath +:+ " (resolved: " +:+ resolved
                     +:+ ") is outside allowed directories")) None)
  /\ (NodePath.isAbsolute processCwd = true ->
      NodePath.collapsed resolved
      /\ resolved = NodePath.resolve processCwd [cwd; inputPath])
  /\ (let r' := Guard.guardPath (Guard.initPathGuard "/home/mother/workspace" None)
                  processCwd "/home/mother/workspace-evil/x" "/home/mother/workspace" in
      Guard.allowed r' = false
      /\ exists why, Guard.reason r' = Some why
                     /\ Js.includes why "outside allowed" = true)
  /\ Guard.guardPath (Guard.initPathGuard "/home/mother/workspace" None)
       processCwd "/home/mother/workspace/../../etc/passwd" "/home/mother/workspace"
     = Guard.mkGuardResult false
         (Some "Path denied: /home/mother/workspace/../../etc/passwd (resolved: /home/etc/passwd) is outside allowed directories"%string)
         None.
Proof.
  intros prefixes resolved r.
  assert (Hpre : prefixes
    = NodePath.normalize workspaceDir :: "/tmp"%string
        :: omap (fun p => if Js.truthy (Js.trim p)
                          then Some (NodePath.normalize (Js.trim p)) else None)
                (default [] extraPaths)).
  { unfold prefixes, Guard.initPathGuard.
    destruct extraPaths as [ps|]; [|reflexivity].
    now rewrite initPathGuard_extras. }
  assert (Hr : r = match find (Guard.prefixAllows resolved) prefixes with
                   | Some _ => Guard.mkGuardResult true None (Some resolved)
                   | None => Guard.mkGuardResult false
                               (Some (Guard.deniedPathReason inputPath resolved)) None
                   end).
  { unfold r, Guard.guardPath. rewrite Hpre at 1. reflexivity. }
  split; [exact Hpre|].
  split; [|split; [|split; [|split; [|split]]]].
  - rewrite Hr.
    destruct (find (Guard.prefixAllows resolved) prefixes) as [p|] eqn:E; simpl.
    + split; [intros _|reflexivity].
      destruct (proj1 (find_some_iff _ _) (ex_intro _ p E)) as [x [Hin Hx]].
      exists x. split; [assumption|]. now apply prefixAllows_iff.
    + split; [discriminate|].
      intros [p [Hin Hp]]. apply prefixAllows_iff in Hp.
      destruct (proj2 (find_some_iff (Guard.prefixAllows resolved) prefixes)
                  (ex_intro _ p (conj Hin Hp))) as [x Hx].
      congruence.
  - rewrite Hr. destruct (find _ prefixes); simpl; [reflexivity|discriminate].
  - rewrite Hr. destruct (find _ prefixes); simpl; [discriminate|reflexivity].
  - intros Hcwd.
    pose proof (resolve_collapsed processCwd [cwd; inputPath] Hcwd) as Hc.
    unfold resolved. rewrite (normalize_collapsed _ Hc). now split.
  - split; [reflexivity|].
    eexists. split; [reflexivity|]. reflexivity.
  - reflexivity.
Qed.

End PathGuard.

(** ** The matcher *)

Section RegexFacts.
Import Regex.

Lemma test_true_iff (r : regex) (s : string) :
  test r s = true <-> exists c, In c (positions None s) /\ matches_at r c = true.
Proof. unfold test. apply existsb_exists. Qed.

Lemma matches_at_iff (r : regex) (c : pos) :
  matches_at r c = true <-> exists c', In c' (ends r c).
Proof.
  unfold matches_at. destruct (ends r c) as [|x l]; split.
  - discriminate.
  - intros [c' []].
  - intros _. exists x. now left.
  - reflexivity.
Qed.

Lemma ends_seq (a b : regex) (c c' : pos) :
  In c' (ends (Seq a b) c) <-> exists m, In m (ends a c) /\ In c' (ends b m).
Proof. simpl. apply in_flat_map. Qed.

Lemma ends_seq_nil (a b : regex) (c : pos) :
  ends a c = [] -> ends (Seq a b) c = [].
Proof. intros H. simpl. now rewrite H. Qed.

Lemma ends_wordb_nil (x : regex) (c : pos) :
  ends x c = [] -> ends (Seq WordB x) c = [].
Proof.
  intros H. simpl. destruct (xorb _ _); simpl; [now rewrite H | reflexivity].
Qed.

Lemma ends_chr_cons (p : ascii -> bool) (prev : option ascii) (a : ascii)
    (rest : string) :
  p a = true -> ends (Chr p) (prev, String a rest) = [(Some a, rest)].
Proof. intros H. simpl. now rewrite H. Qed.

Lemma ends_chr_nil (p : ascii -> bool) (prev : option ascii) (a : ascii)
    (rest : string) :
  p a = false -> ends (Chr p) (prev, String a rest) = [].
Proof. intros H. simpl. now rewrite H. Qed.

(** The rounds granted to an iteration never run out: any two budgets
    that cover what is left of the subject give the same result. *)
Lemma star_iter_fuel (step : pos -> list pos) (n m : nat) (c : pos) :
  String.length (remaining c) <= n ->
  String.length (remaining c) <= m ->
  star_iter n step c = star_iter m step c.
Proof.
  revert m c. induction n as [|n IH]; intros m c Hn Hm.
  - destruct m as [|m]; [reflexivity|]. simpl.
    replace (filter (progress c) (step c)) with (@nil pos); [reflexivity|].
    symmetry. induction (step c) as [|x l IHl]; [reflexivity|].
    rewrite filter_cons. destruct (decide (progress c x)) as [Hp|Hp]; [|exact IHl].
    unfold progress in Hp. apply Is_true_true in Hp. apply Nat.ltb_lt in Hp. lia.
  - destruct m as [|m]; simpl.
    + replace (filter (progress c) (step c)) with (@nil pos); [reflexivity|].
      symmetry. induction (step c) as [|x l IHl]; [reflexivity|].
      rewrite filter_cons. destruct (decide (progress c x)) as [Hp|Hp]; [|exact IHl].
      unfold progress in Hp. apply Is_true_true in Hp. apply Nat.ltb_lt in Hp. lia.
    + f_equal.
      induction (step c) as [|x l IHl]; [reflexivity|].
      rewrite filter_cons. destruct (decide (progress c x)) as [Hp|Hp]; [|exact IHl].
      simpl. rewrite IHl. f_equal.
      unfold progress in Hp. apply Is_true_true in Hp. apply Nat.ltb_lt in Hp.
      apply IH; lia.
Qed.

Lemma star_iter_length (step : pos -> list pos) (fuel : nat) (c c' : pos) :
  (forall x y, In y (step x) ->
               String.length (remaining y) <= String.length (remaining x)) ->
  In c' (star_iter fuel step c) ->
  String.length (remaining c') <= String.length (remaining c).
Proof.
  intros Hstep. revert c. induction fuel as [|fuel IH]; intros c; simpl.
  - intros [<-|[]]. lia.
  - rewrite in_app_iff, in_flat_map. intros [[m [Hm Hc']]|[<-|[]]]; [|lia].
    apply list_elem_of_In, list_elem_of_filter in Hm. destruct Hm as [_ Hm].
    apply list_elem_of_In, Hstep in Hm. apply IH in Hc'. lia.
Qed.

(** A match never ends before it starts. *)
Lemma ends_length (r : regex) (c c' : pos) :
  In c' (ends r c) ->
  String.length (remaining c') <= String.length (remaining c).
Proof.
  revert c c'. induction r as [|p|a IHa b IHb|a IHa b IHb|a IHa|a IHa| | |];
    intros c c'; simpl.
  - intros [<-|[]]. lia.
  - destruct c as [prev s]. simpl. destruct s as [|x rest]; [intros []|].
    destruct (p x); [|intros []]. intros [<-|[]]. simpl. lia.
  - rewrite in_flat_map. intros [m [Hm Hc]].
    apply IHa in Hm. apply IHb in Hc. lia.
  - rewrite in_app_iff. intros [H|H]; [now apply IHa | now apply IHb].
  - rewrite in_app_iff. intros [H|[<-|[]]]; [now apply IHa | lia].
  - apply star_iter_length. intros x y. apply IHa.
  - intros H. assert (c' = c) as ->; [|lia].
    destruct (fst c); [destruct H | now destruct H as [<-|[]]].
  - intros H. assert (c' = c) as ->; [|lia].
    destruct (remaining c); [now destruct H as [<-|[]] | destruct H].
  - intros H. assert (c' = c) as ->; [|lia].
    destruct (xorb _ _); [now destruct H as [<-|[]] | destruct H].
Qed.

(** A pattern anchored with [^] is tried at the start only. *)
Lemma positions_after (prev : ascii) (s : string) (c : pos) :
  In c (positions (Some prev) s) -> exists a, fst c = Some a.
Proof.
  revert prev. induction s as [|x s IH]; intros prev; simpl.
  - intros [<-|[]]. now exists prev.
  - intros [<-|H]; [now exists prev | now apply IH in H].
Qed.

Lemma ends_anchored (x : regex) (s : string) :
  ends (Seq Bol x) (None, s) = ends x (None, s).
Proof. simpl. apply app_nil_r. Qed.

Lemma test_anchored (x : regex) (s : string) :
  test (Seq Bol x) s = matches_at x (None, s).
Proof.
  unfold test.
  assert (Hrest : forall prev t,
             existsb (matches_at (Seq Bol x)) (positions (Some prev) t) = false).
  { intros prev t. apply not_true_is_false. intros H.
    apply existsb_exists in H. destruct H as [c [Hin Hc]].
    apply positions_after in Hin. destruct Hin as [a Ha].
    unfold matches_at in Hc. simpl in Hc. rewrite Ha in Hc. discriminate. }
  destruct s as [|a s]; simpl positions; simpl existsb.
  - rewrite orb_false_r. unfold matches_at. simpl. now rewrite app_nil_r.
  - rewrite Hrest, orb_false_r. unfold matches_at. simpl. now rewrite app_nil_r.
Qed.

Lemma positions_allChars (p : ascii -> bool) (prev : option ascii) (s : string)
    (c : pos) :
  Js.allChars p s = true -> In c (positions prev s) ->
  Js.allChars p (remaining c) = true.
Proof.
  revert prev. induction s as [|a s IH]; intros prev Hall; simpl.
  - intros [<-|[]]. reflexivity.
  - intros [<-|H]; [exact Hall|].
    simpl in Hall. apply andb_true_iff in Hall. now apply (IH (Some a)).
Qed.

End RegexFacts.

(** ** The command guard *)

Section CommandGuard.
Import Regex.

Lemma allChars_app (p : ascii -> bool) (s t : string) :
  Js.allChars p (s +:+ t) = Js.allChars p s && Js.allChars p t.
Proof.
  induction s as [|a s IH]; simpl; [reflexivity|].
  now rewrite IH, andb_assoc.
Qed.

Lemma trimEnd_empty (s : string) :
  Js.trimEnd s = EmptyString <-> Js.allChars Js.is_ws s = true.
Proof.
  induction s as [|a s IH]; simpl; [split; reflexivity|].
  destruct (Js.is_ws a); simpl.
  - rewrite <- IH. destruct (Js.trimEnd s); simpl; split; congruence.
  - split; discriminate.
Qed.

Lemma trimStart_empty (s : string) :
  Js.trimStart s = EmptyString <-> Js.allChars Js.is_ws s = true.
Proof.
  induction s as [|a s IH]; simpl; [split; reflexivity|].
  destruct (Js.is_ws a) eqn:E; simpl; [exact IH | split; discriminate].
Qed.

Lemma trimStart_head (s : string) (a : ascii) (t : string) :
  Js.trimStart s = String a t -> Js.is_ws a = false.
Proof.
  induction s as [|b s IH]; simpl; [discriminate|].
  destruct (Js.is_ws b) eqn:E; [exact IH | congruence].
Qed.

Lemma blank_iff (s : string) :
  Guard.blank s <-> Js.allChars Js.is_ws s = true.
Proof.
  unfold Guard.blank, Js.trim. rewrite trimEnd_empty, <- (trimStart_empty s).
  destruct (Js.trimStart s) as [|a t] eqn:E; [split; reflexivity|].
  apply trimStart_head in E. simpl. rewrite E. simpl. split; discriminate.
Qed.

Lemma blank_addChar (cur : string) (ch : ascii) :
  Guard.blank (cur +:+ String ch EmptyString) ->
  Guard.blank cur /\ Js.is_ws ch = true.
Proof.
  rewrite !blank_iff, allChars_app. simpl. rewrite andb_true_r.
  apply andb_true_iff.
Qed.

(** Whatever has entered the current segment ends up in the result. *)
Lemma splitLoop_keeps (command : string) :
  forall skip st,
    Forall Guard.blank (Guard.flush (Guard.splitLoop skip st command)) ->
    Forall Guard.blank (Guard.segments st) /\ Guard.blank (Guard.current st).
Proof.
  induction command as [|ch rest IH]; intros skip st; simpl.
  - unfold Guard.flush. destruct (Js.truthy (Js.trim (Guard.current st))) eqn:E.
    + rewrite Forall_app, Forall_singleton. tauto.
    + intros H. split; [exact H|]. now apply truthy_false in E.
  - assert (Hadd : forall s e d,
      Forall Guard.blank
        (Guard.flush (Guard.splitLoop false
                  (Guard.mkSplit (Guard.segments st) (Guard.addChar st ch) s d e) rest)) ->
      Forall Guard.blank (Guard.segments st) /\ Guard.blank (Guard.current st)).
    { intros s e d H. apply IH in H. simpl in H. destruct H as [H1 H2].
      split; [exact H1|]. now apply blank_addChar in H2. }
    assert (Hpush : forall k s e d,
      Forall Guard.blank
        (Guard.flush (Guard.splitLoop k
                  (Guard.mkSplit (Guard.segments st ++ [Guard.current st])
                     EmptyString s d e) rest)) ->
      Forall Guard.blank (Guard.segments st) /\ Guard.blank (Guard.current st)).
    { intros k s e d H. apply IH in H. simpl in H. destruct H as [H1 _].
      now rewrite Forall_app, Forall_singleton in H1. }
    destruct skip; [apply IH|].
    destruct (Guard.escaped st); [apply Hadd|].
    destruct (Js.is_char "\" ch); [apply Hadd|].
    destruct (Js.is_char "'" ch && negb (Guard.inDouble st)); [apply Hadd|].
    destruct (Js.is_char "034" ch && negb (Guard.inSingle st)); [apply Hadd|].
    destruct (Guard.inSingle st || Guard.inDouble st); [apply Hadd|].
    destruct (Js.is_char ";" ch); [apply Hpush|].
    destruct (Js.is_char "|" ch); [apply Hpush|].
    destruct (Js.is_char "&" ch && Guard.nextIs "&" rest); [apply Hpush|].
    apply Hadd.
Qed.

Lemma is_char_eq (a c : ascii) : Js.is_char a c = true -> c = a.
Proof. unfold Js.is_char. intros H. now apply Ascii.eqb_eq in H. Qed.

Lemma nextIs_head (a : ascii) (ch : ascii) (rest : string) :
  Guard.nextIs a (String ch rest) = true -> ch = a.
Proof. simpl. apply is_char_eq. Qed.

(** A command all of whose segments are blank is made of white space
    and operator characters only. *)
Lemma splitLoop_blank_chars (command : string) :
  forall skip st,
    Guard.escaped st = false -> Guard.inSingle st = false ->
    Guard.inDouble st = false ->
    (skip = true ->
     Guard.nextIs "|" command = true \/ Guard.nextIs "&" command = true) ->
    Forall Guard.blank (Guard.flush (Guard.splitLoop skip st command)) ->
    Js.allChars Guard.blankOrOperator command = true.
Proof.
  induction command as [|ch rest IH]; intros skip st He Hs Hd Hskip; simpl;
    [reflexivity|].
  assert (Hbad : forall s e d,
    Js.is_ws ch = false ->
    Forall Guard.blank
      (Guard.flush (Guard.splitLoop false
                (Guard.mkSplit (Guard.segments st) (Guard.addChar st ch) s d e) rest)) ->
    Guard.blankOrOperator ch && Js.allChars Guard.blankOrOperator rest = true).
  { intros s e d Hws H. apply splitLoop_keeps in H. simpl in H.
    destruct H as [_ H]. apply blank_addChar in H. destruct H as [_ H]. congruence. }
  destruct skip.
  - intros H. apply andb_true_iff. split.
    + destruct (Hskip eq_refl) as [Hn|Hn]; apply nextIs_head in Hn; now subst.
    + apply (IH false st); try assumption. discriminate.
  - rewrite He, Hs, Hd. cbn [negb orb]. rewrite !andb_true_r.
    destruct (Js.is_char "\" ch) eqn:E1.
    { apply is_char_eq in E1. subst. now apply Hbad. }
    destruct (Js.is_char "'" ch) eqn:E2.
    { apply is_char_eq in E2. subst. now apply Hbad. }
    destruct (Js.is_char "034" ch) eqn:E3.
    { apply is_char_eq in E3. subst. now apply Hbad. }
    destruct (Js.is_char ";" ch) eqn:E4.
    { intros H. apply andb_true_iff. split.
      - apply is_char_eq in E4. now subst.
      - apply (IH false _) in H; try assumption; try reflexivity. discriminate. }
    destruct (Js.is_char "|" ch) eqn:E5.
    { intros H. apply andb_true_iff. split.
      - apply is_char_eq in E5. now subst.
      - apply (IH _ _) in H; try assumption; try reflexivity.
        intros Hn. now left. }
    destruct (Js.is_char "&" ch && Guard.nextIs "&" rest) eqn:E6.
    { apply andb_true_iff in E6. destruct E6 as [E6 E7].
      intros H. apply andb_true_iff. split.
      - apply is_char_eq in E6. now subst.
      - apply (IH _ _) in H; try assumption; try reflexivity.
        intros _. now right. }
    intros H. apply andb_true_iff. split.
    + apply splitLoop_keeps in H. simpl in H. destruct H as [_ H].
      apply blank_addChar in H. destruct H as [_ H].
      unfold Guard.blankOrOperator. now rewrite H.
    + apply (IH false _) in H; try assumption; try reflexivity. discriminate.
Qed.

Lemma blank_segments_chars (command : string) :
  Forall Guard.blank (Guard.splitCommandSegments command) ->
  Js.allChars Guard.blankOrOperator command = true.
Proof.
  apply (splitLoop_blank_chars command false Guard.splitStart);
    try reflexivity. discriminate.
Qed.

(** None of the critical patterns can start at a blank or an
    operator character, or at the end of the command. *)
Lemma critical_needs_letter (p : regex * string) (c : pos) :
  p ∈ Guard.CRITICAL_PATTERNS ->
  Js.allChars Guard.blankOrOperator (remaining c) = true ->
  matches_at (fst p) c = false.
Proof.
  intros Hp Hall. unfold matches_at.
  destruct c as [prev s]. simpl in Hall.
  assert (Hr : ends (Chr (Js.is_char "r")) (prev, s) = []).
  { destruct s as [|a s]; [reflexivity|]. apply ends_chr_nil.
    simpl in Hall. apply andb_true_iff in Hall. destruct Hall as [Ha _].
    destruct (Js.is_char "r" a) eqn:E; [|reflexivity].
    apply is_char_eq in E. now subst. }
  assert (Hc : ends (Chr (Js.is_char ":")) (prev, s) = []).
  { destruct s as [|a s]; [reflexivity|]. apply ends_chr_nil.
    simpl in Hall. apply andb_true_iff in Hall. destruct Hall as [Ha _].
    destruct (Js.is_char ":" a) eqn:E; [|reflexivity].
    apply is_char_eq in E. now subst. }
  unfold Guard.CRITICAL_PATTERNS in Hp.
  repeat (apply elem_of_cons in Hp; destruct Hp as [->|Hp]);
    [| | |now apply elem_of_nil in Hp]; simpl fst.
  - unfold Guard.rmPatternFR. cbn [seq].
    rewrite ends_wordb_nil; [reflexivity|].
    apply ends_seq_nil. cbn [lit]. apply ends_seq_nil. exact Hr.
  - unfold Guard.rmPatternRF. cbn [seq].
    rewrite ends_wordb_nil; [reflexivity|].
    apply ends_seq_nil. cbn [lit]. apply ends_seq_nil. exact Hr.
  - unfold Guard.forkBombPattern. cbn [seq].
    rewrite ends_seq_nil; [reflexivity|].
    cbn [lit]. apply ends_seq_nil. exact Hc.
Qed.

Lemma no_critical_in_blank (command : string) :
  Js.allChars Guard.blankOrOperator command = true ->
  ~ Guard.matchesCritical command.
Proof.
  intros Hall [p [Hp Ht]].
  apply test_true_iff in Ht. destruct Ht as [c [Hin Hc]].
  rewrite critical_needs_letter in Hc; [discriminate|exact Hp|].
  now apply (positions_allChars _ None command).
Qed.

Lemma guardCommand_no_critical (allowedCommands : gset string) (command : string) :
  ~ Guard.matchesCritical command ->
  Guard.guardCommand allowedCommands command
  = Guard.checkSegments allowedCommands (Guard.splitCommandSegments command).
Proof.
  intros Hno. unfold Guard.guardCommand.
  destruct (find _ Guard.CRITICAL_PATTERNS) as [p|] eqn:E; [|reflexivity].
  exfalso. apply Hno.
  destruct (proj1 (find_some_iff _ _) (ex_intro _ p E)) as [x [Hin Hx]].
  now exists x.
Qed.

Lemma extractCommandName_blank (segment : string) :
  Guard.blank segment -> Guard.extractCommandName segment = EmptyString.
Proof. unfold Guard.blank, Guard.extractCommandName. now intros ->. Qed.

Lemma checkSegments_blank (allowedCommands : gset string) (segs : list string) :
  Forall Guard.blank segs ->
  Guard.checkSegments allowedCommands segs = Guard.mkGuardResult true None None.
Proof.
  induction 1 as [|seg segs Hseg _ IH]; simpl; [reflexivity|].
  now rewrite (extractCommandName_blank seg Hseg).
Qed.

(** C10: a command that splits into blank segments only, or into
    none, is allowed: no critical pattern can match it and no
    segment names a program. *)
Theorem guardCommand_blank_allowed
    (allowedCommands : gset string) (command : string) :
  Forall Guard.blank (Guard.splitCommandSegments command) ->
  ~ Guard.matchesCritical command
  /\ Guard.programs command = []
  /\ Guard.guardCommand allowedCommands command
     = Guard.mkGuardResult true None None.
Proof.
  intros Hblank.
  assert (Hno : ~ Guard.matchesCritical command)
    by now apply no_critical_in_blank, blank_segments_chars.
  split; [exact Hno|]. split.
  - unfold Guard.programs, Guard.names.
    induction Hblank as [|seg segs Hseg _ IH]; [reflexivity|].
    simpl. rewrite filter_cons, (extractCommandName_blank seg Hseg).
    case_decide; congruence.
  - rewrite guardCommand_no_critical by exact Hno.
    now apply checkSegments_blank.
Qed.

Lemma guardCommand_blank_allowed_witness :
  Forall Guard.blank (Guard.splitCommandSegments " ; | && || ")
  /\ Guard.guardCommand Guard.DEFAULT_ALLOWED_COMMANDS " ; | && || "
     = Guard.mkGuardResult true None None.
Proof.
  assert (H : Forall Guard.blank (Guard.splitCommandSegments " ; | && || ")).
  { repeat constructor. }
  split; [exact H|].
  apply (guardCommand_blank_allowed Guard.DEFAULT_ALLOWED_COMMANDS _ H).
Defined.

Lemma rm_is_allowed_by_default : "rm"%string ∈ Guard.DEFAULT_ALLOWED_COMMANDS.
Proof. apply (bool_decide_unpack _). vm_compute. exact I. Qed.

(** *** The allow-list *)

Lemma has_iff (s : gset string) (x : string) : Guard.has s x = true <-> x ∈ s.
Proof. unfold Guard.has. apply bool_decide_eq_true. Qed.

Lemma has_false_iff (s : gset string) (x : string) :
  Guard.has s x = false <-> x ∉ s.
Proof. unfold Guard.has. apply bool_decide_eq_false. Qed.

Lemma names_cons (seg : string) (segs : list string) :
  Guard.names (seg :: segs)
  = if Js.truthy (Guard.extractCommandName seg)
    then Guard.extractCommandName seg :: Guard.names segs else Guard.names segs.
Proof.
  unfold Guard.names. simpl. rewrite filter_cons.
  case_decide as H; destruct (Guard.extractCommandName seg); simpl;
    try reflexivity; congruence.
Qed.

Lemma checkSegments_allowed_iff (allowedCommands : gset string)
    (segs : list string) :
  Guard.allowed (Guard.checkSegments allowedCommands segs) = true
  <-> Forall (Guard.permitted allowedCommands) (Guard.names segs).
Proof.
  induction segs as [|seg segs IH]; [split; [constructor|reflexivity]|].
  rewrite names_cons. simpl.
  destruct (Js.truthy (Guard.extractCommandName seg)); simpl; [|exact IH].
  rewrite Forall_cons. unfold Guard.permitted at 1.
  destruct (Guard.has Guard.SHELL_BUILTINS _) eqn:Eb.
  - apply has_iff in Eb. rewrite IH. tauto.
  - apply has_false_iff in Eb.
    destruct (Guard.has allowedCommands _) eqn:Ea; simpl.
    + apply has_iff in Ea. rewrite IH. tauto.
    + apply has_false_iff in Ea. split; [discriminate | tauto].
Qed.




(** How segments and program names come out on the forms the
    specification lists. *)
Lemma segmentation_examples :
  Guard.splitCommandSegments "a; b | c || d && e"
  = ["a"; " b "; " c "; " d "; " e"]%string
  /\ Guard.splitCommandSegments "echo 'a;b' | cat"
     = ["echo 'a;b' "; " cat"]%string
  /\ Guard.splitCommandSegments "echo a\;b"
     = ["echo a\;b"]%string
  /\ Guard.extractCommandName "  ( { FOO=1 BAR=2 /usr/bin/env x" = "env"%string
  /\ Guard.extractCommandName " sudo tee /etc/passwd" = "sudo"%string.
Proof. repeat split; reflexivity. Qed.

(** *** The loops of [extractCommandName] run to their end *)

Lemma trimStart_length (s : string) :
  String.length (Js.trimStart s) <= String.length s.
Proof.
  induction s as [|a s IH]; simpl; [lia|]. destruct (Js.is_ws a); simpl; lia.
Qed.

Lemma trimEnd_length (s : string) :
  String.length (Js.trimEnd s) <= String.length s.
Proof.
  induction s as [|a s IH]; simpl; [lia|].
  destruct (Js.is_ws a && Js.isEmpty (Js.trimEnd s)); simpl; lia.
Qed.

Lemma trim_length (s : string) : String.length (Js.trim s) <= String.length s.
Proof.
  unfold Js.trim. pose proof (trimEnd_length (Js.trimStart s)).
  pose proof (trimStart_length s). lia.
Qed.

(** The budget of [skipOpeners] is never exhausted: what it returns
    no longer starts with an opener. *)
Lemma skipOpeners_done (fuel : nat) (trimmed : string) :
  String.length trimmed <= fuel ->
  Guard.isOpener (Guard.skipOpeners fuel trimmed) = false.
Proof.
  revert trimmed. induction fuel as [|fuel IH]; intros trimmed Hlen; simpl.
  - now destruct trimmed.
  - destruct (Guard.isOpener trimmed) eqn:E; [|exact E].
    apply IH. destruct trimmed as [|c t]; [discriminate|].
    simpl in *. pose proof (trim_length t). lia.
Qed.

Lemma star_iter_self (step : pos -> list pos) (fuel : nat) (c : pos) :
  In c (star_iter fuel step c).
Proof.
  destruct fuel; simpl; [now left|]. apply in_or_app. right. now left.
Qed.

Lemma matches_seq_weaken (a e e' : regex) (c : pos) :
  (forall m, matches_at e m = true -> matches_at e' m = true) ->
  matches_at (Seq a e) c = true -> matches_at (Seq a e') c = true.
Proof.
  intros Hw H. apply matches_at_iff in H. destruct H as [c' H].
  apply ends_seq in H. destruct H as [m [Hm Hc']].
  assert (He : matches_at e m = true) by (apply matches_at_iff; now exists c').
  apply Hw, matches_at_iff in He. destruct He as [c'' He].
  apply matches_at_iff. exists c''. apply ends_seq. now exists m.
Qed.

(** Where the loop test of [skipAssignments] succeeds, the removal
    does remove something. *)
Lemma assignment_shrinks (trimmed : string) :
  test Guard.assignmentTest trimmed = true ->
  String.length (remove_prefix Guard.assignmentPrefix trimmed)
  < String.length trimmed.
Proof.
  intros Ht. unfold Guard.assignmentTest in Ht. cbn [seq] in Ht.
  rewrite test_anchored in Ht.
  assert (Hm : matches_at
                 (Seq (Chr Guard.nameStart)
                    (Seq (Star (Chr Js.is_word))
                       (Seq (chr "=") (Seq (Star Guard.non_ws) (plus Guard.ws)))))
                 (None, trimmed) = true).
  { revert Ht. do 4 (apply matches_seq_weaken; intros ?).
    intros H. apply matches_at_iff in H. destruct H as [c' H].
    apply matches_at_iff. exists c'. unfold plus. apply ends_seq.
    exists c'. split; [exact H|]. destruct c' as [p r]. apply star_iter_self. }
  unfold remove_prefix, Guard.assignmentPrefix. cbn [seq].
  rewrite ends_anchored.
  apply matches_at_iff in Hm. destruct Hm as [c0 Hc0].
  destruct (ends _ (None, trimmed)) as [|c l] eqn:E; [destruct Hc0|].
  assert (Hin : In c (ends (Seq (Chr Guard.nameStart)
                    (Seq (Star (Chr Js.is_word))
                       (Seq (chr "=") (Seq (Star Guard.non_ws) (plus Guard.ws)))))
                    (None, trimmed))) by (rewrite E; now left).
  apply ends_seq in Hin. destruct Hin as [m [Hm Hc]].
  apply ends_length in Hc.
  destruct trimmed as [|a t]; [destruct Hm|].
  simpl in Hm. destruct (Guard.nameStart a); [|destruct Hm].
  destruct Hm as [<-|[]]. simpl in *. lia.
Qed.

(** The budget of [skipAssignments] is never exhausted either. *)
Lemma skipAssignments_done (fuel : nat) (trimmed : string) :
  String.length trimmed <= fuel ->
  test Guard.assignmentTest (Guard.skipAssignments fuel trimmed) = false.
Proof.
  revert trimmed. induction fuel as [|fuel IH]; intros trimmed Hlen; simpl.
  - now destruct trimmed.
  - destruct (test Guard.assignmentTest trimmed) eqn:E; [|exact E].
    apply IH. apply assignment_shrinks in E. lia.
Qed.

(** *** The commands the critical patterns are written for *)

Lemma lastOr_append (prev : option ascii) (s t : string) :
  lastOr prev (s +:+ t) = lastOr (lastOr prev s) t.
Proof.
  revert prev. induction s as [|a s IH]; intros prev; simpl; [reflexivity|apply IH].
Qed.

Lemma reach_class (p : ascii -> bool) (a : ascii) :
  p a = true -> Reach (Chr p) (String a EmptyString).
Proof. intros H prev rest. simpl. rewrite H. now left. Qed.

Lemma reach_chr (a : ascii) : Reach (chr a) (String a EmptyString).
Proof. apply reach_class. apply Ascii.eqb_refl. Qed.

Lemma reach_seq (a b : regex) (s t : string) :
  Reach a s -> Reach b t -> Reach (Seq a b) (s +:+ t).
Proof.
  intros Ha Hb prev rest. apply ends_seq.
  exists (lastOr prev s, t +:+ rest). split.
  - rewrite append_assoc. apply Ha.
  - rewrite lastOr_append. apply Hb.
Qed.

Lemma reach_opt_skip (a : regex) : Reach (Opt a) EmptyString.
Proof. intros prev rest. simpl. apply in_or_app. right. now left. Qed.

Lemma reach_opt_take (a : regex) (s : string) : Reach a s -> Reach (Opt a) s.
Proof. intros H prev rest. simpl. apply in_or_app. left. apply H. Qed.

Lemma reach_lit (s : string) : Reach (lit s) s.
Proof.
  induction s as [|a s IH]; [intros prev rest; now left|].
  change (String a s) with (String a EmptyString +:+ s). cbn [lit].
  apply reach_seq; [apply reach_chr|exact IH].
Qed.

Lemma reach_star_class (p : ascii -> bool) (s : string) :
  Js.allChars p s = true -> Reach (Star (Chr p)) s.
Proof.
  intros Hall prev rest. cbn [ends remaining snd].
  assert (H : forall n prev,
             String.length (s +:+ rest) <= n ->
             In (lastOr prev s, rest)
                (star_iter n (ends (Chr p)) (prev, s +:+ rest))).
  { clear prev. induction s as [|a s IH]; intros n prev Hn.
    - apply star_iter_self.
    - simpl in Hall. apply andb_true_iff in Hall. destruct Hall as [Ha Hs].
      destruct n as [|n]; [simpl in Hn; lia|].
      cbn [star_iter String.append]. rewrite (ends_chr_cons p prev a _ Ha).
      rewrite filter_cons, decide_True.
      + cbn [flat_map]. apply in_or_app. left. apply in_or_app. left.
        apply IH; [exact Hs|]. simpl in Hn. lia.
      + unfold progress. simpl. apply Is_true_true, Nat.ltb_lt. lia. }
  apply H. lia.
Qed.

Lemma reach_plus_class (p : ascii -> bool) (s : string) :
  s <> EmptyString -> Js.allChars p s = true -> Reach (plus (Chr p)) s.
Proof.
  intros Hne Hall. destruct s as [|a s]; [contradiction|].
  simpl in Hall. apply andb_true_iff in Hall. destruct Hall as [Ha Hs].
  change (String a s) with (String a EmptyString +:+ s). unfold plus.
  apply reach_seq; [now apply reach_class|now apply reach_star_class].
Qed.

Lemma reach_blanks (s : string) : Guard.blanks s -> Reach (plus Guard.ws) s.
Proof. intros [Hne Hall]. now apply reach_plus_class. Qed.

Lemma reach_flagGroup (x : ascii) (g : string) :
  Guard.flagGroup x g -> Reach (Guard.flagWith x) g.
Proof.
  intros [a [b [-> [Ha Hb]]]]. unfold Guard.flagWith. cbn [seq].
  change (String x b) with (String x EmptyString +:+ b).
  apply reach_seq; [apply reach_chr|].
  apply reach_seq; [now apply reach_star_class|].
  apply reach_seq; [apply reach_chr|now apply reach_star_class].
Qed.

Lemma matches_after (a b : regex) (s rest : string) (prev : option ascii) :
  Reach a s ->
  matches_at b (lastOr prev s, rest) = true ->
  matches_at (Seq a b) (prev, s +:+ rest) = true.
Proof.
  intros Ha Hb. apply matches_at_iff in Hb. destruct Hb as [c' Hc'].
  apply matches_at_iff. exists c'. apply ends_seq.
  exists (lastOr prev s, rest). split; [apply Ha|exact Hc'].
Qed.

Lemma rootTarget_matches (prev : option ascii) (tail : string) :
  Guard.rootTail tail ->
  matches_at Guard.rootTarget (prev, "/" +:+ tail) = true.
Proof.
  intros [->|[c [t [-> Hc]]]]; [reflexivity|].
  unfold matches_at, Guard.rootTarget. simpl.
  destruct Hc as [Hc| ->].
  - unfold Guard.ws. simpl. now rewrite Hc.
  - unfold Guard.ws. simpl. destruct (Js.is_ws "*"); reflexivity.
Qed.

Lemma positions_middle (prev : option ascii) (pre s : string) :
  In (lastOr prev pre, s) (positions prev (pre +:+ s)).
Proof.
  revert prev. induction pre as [|a pre IH]; intros prev; simpl.
  - destruct s; now left.
  - right. apply IH.
Qed.

Lemma test_middle (r : regex) (pre s : string) :
  matches_at r (lastOr None pre, s) = true -> test r (pre +:+ s) = true.
Proof.
  intros H. apply test_true_iff. exists (lastOr None pre, s).
  split; [apply positions_middle|exact H].
Qed.

Lemma wordb_rm (x : regex) (pre rest : string) :
  Guard.atWordStart pre ->
  matches_at x (lastOr None pre, "rm" +:+ rest) = true ->
  matches_at (Seq WordB x) (lastOr None pre, "rm" +:+ rest) = true.
Proof.
  intros Hpre H. apply matches_at_iff in H. destruct H as [c' Hc'].
  apply matches_at_iff. exists c'. apply ends_seq.
  exists (lastOr None pre, "rm" +:+ rest). split; [|exact Hc'].
  cbn [ends]. unfold word_before, word_after, Guard.atWordStart in *. simpl.
  destruct (lastOr None pre) as [c|].
  - rewrite Hpre. now left.
  - now left.
Qed.

(** With the [r] group last, or alone: the first pattern matches. *)
Lemma rmPatternFR_one (pre sp1 g sp2 tail : string) :
  Guard.atWordStart pre -> Guard.blanks sp1 -> Guard.flagGroup "r" g ->
  Guard.blanks sp2 -> Guard.rootTail tail ->
  test Guard.rmPatternFR (pre +:+ "rm" +:+ sp1 +:+ g +:+ sp2 +:+ "/" +:+ tail) = true.
Proof.
  intros Hpre H1 Hg H2 Ht. apply test_middle.
  unfold Guard.rmPatternFR. cbn [seq]. apply wordb_rm; [exact Hpre|].
  apply matches_after; [apply reach_lit|].
  apply matches_after; [now apply reach_blanks|].
  change (g +:+ sp2 +:+ "/" +:+ tail) with (EmptyString +:+ g +:+ sp2 +:+ "/" +:+ tail).
  apply matches_after; [apply reach_opt_skip|].
  apply matches_after; [now apply reach_flagGroup|].
  apply matches_after; [now apply reach_blanks|].
  now apply rootTarget_matches.
Qed.

Lemma rmPatternFR_two (pre sp1 g1 sp g2 sp2 tail : string) :
  Guard.atWordStart pre -> Guard.blanks sp1 ->
  Guard.flagGroup "f" g1 -> Guard.blanks sp -> Guard.flagGroup "r" g2 ->
  Guard.blanks sp2 -> Guard.rootTail tail ->
  test Guard.rmPatternFR
       (pre +:+ "rm" +:+ sp1 +:+ g1 +:+ sp +:+ g2 +:+ sp2 +:+ "/" +:+ tail) = true.
Proof.
  intros Hpre H1 Hg1 Hsp Hg2 H2 Ht. apply test_middle.
  unfold Guard.rmPatternFR. cbn [seq]. apply wordb_rm; [exact Hpre|].
  apply matches_after; [apply reach_lit|].
  apply matches_after; [now apply reach_blanks|].
  rewrite <- (append_assoc g1 sp).
  apply matches_after.
  { apply reach_opt_take, reach_seq; [now apply reach_flagGroup|now apply reach_blanks]. }
  apply matches_after; [now apply reach_flagGroup|].
  apply matches_after; [now apply reach_blanks|].
  now apply rootTarget_matches.
Qed.

Lemma rmPatternRF_two (pre sp1 g1 sp g2 sp2 tail : string) :
  Guard.atWordStart pre -> Guard.blanks sp1 ->
  Guard.flagGroup "r" g1 -> Guard.blanks sp -> Guard.flagGroup "f" g2 ->
  Guard.blanks sp2 -> Guard.rootTail tail ->
  test Guard.rmPatternRF
       (pre +:+ "rm" +:+ sp1 +:+ g1 +:+ sp +:+ g2 +:+ sp2 +:+ "/" +:+ tail) = true.
Proof.
  intros Hpre H1 Hg1 Hsp Hg2 H2 Ht. apply test_middle.
  unfold Guard.rmPatternRF. cbn [seq]. apply wordb_rm; [exact Hpre|].
  apply matches_after; [apply reach_lit|].
  apply matches_after; [now apply reach_blanks|].
  rewrite <- (append_assoc g1 sp).
  apply matches_after.
  { apply reach_opt_take, reach_seq; [now apply reach_flagGroup|now apply reach_blanks]. }
  apply matches_after; [now apply reach_flagGroup|].
  apply matches_after; [now apply reach_blanks|].
  now apply rootTarget_matches.
Qed.

(** Every command of these shapes is matched by an [rm] pattern. *)
Lemma rmRoot_matches (command : string) :
  Guard.rmRoot command ->
  test Guard.rmPatternFR command = true \/ test Guard.rmPatternRF command = true.
Proof.
  intros [pre sp1 g sp2 tail Hpre H1 Hr Hf H2 Ht
         |pre sp1 g1 sp g2 sp2 tail Hpre H1 [[Hr Hf]|[Hf Hr]] Hsp H2 Ht].
  - left. now apply rmPatternFR_one.
  - right. now apply rmPatternRF_two.
  - left. now apply rmPatternFR_two.
Qed.

(** *** Critical patterns *)

Lemma matchesCritical_tests (command : string) :
  Guard.matchesCritical command
  <-> test Guard.rmPatternFR command = true
      \/ test Guard.rmPatternRF command = true
      \/ test Guard.forkBombPattern command = true.
Proof.
  split.
  - intros [p [Hp Ht]]. unfold Guard.CRITICAL_PATTERNS in Hp.
    repeat (apply elem_of_cons in Hp; destruct Hp as [->|Hp]);
      [tauto|tauto|tauto|now apply elem_of_nil in Hp].
  - unfold Guard.matchesCritical, Guard.CRITICAL_PATTERNS. intros [H|[H|H]].
    + exists (Guard.rmPatternFR, "Blocked: rm -rf /"%string). split; [left|exact H].
    + exists (Guard.rmPatternRF, "Blocked: rm -rf /"%string).
      split; [right; left|exact H].
    + exists (Guard.forkBombPattern, "Blocked: fork bomb"%string).
      split; [right; right; left|exact H].
Qed.

(** C2: a command that one of the critical patterns matches is
    refused whatever the allow-list holds, [rm] being on the default
    one.  That covers [rm] with an [r] and an [f] flag, in either
    order, applied to [/] or [/*], and the fork bomb.  The reason is
    the [rm -rf] one when an [rm] pattern matches and the fork-bomb
    one otherwise. *)
Theorem guardCommand_critical_rejected
    (allowedCommands : gset string) (command : string) :
  Guard.matchesCritical command \/ Guard.rmRoot command
  \/ command = Guard.forkBomb ->
  let r := Guard.guardCommand allowedCommands command in
  Guard.matchesCritical command
  /\ Guard.allowed r = false
  /\ (Guard.rmRoot command
      \/ test Guard.rmPatternFR command = true
      \/ test Guard.rmPatternRF command = true ->
      Guard.reason r = Some "Blocked: rm -rf /"%string)
  /\ (command = Guard.forkBomb
      \/ (test Guard.rmPatternFR command = false
          /\ test Guard.rmPatternRF command = false) ->
      Guard.reason r = Some "Blocked: fork bomb"%string)
  /\ Js.includes "Blocked: rm -rf /" "rm -rf" = true
  /\ Js.includes "Blocked: fork bomb" "fork bomb" = true
  /\ "rm"%string ∈ Guard.DEFAULT_ALLOWED_COMMANDS.
Proof.
  intros Hin r.
  assert (Hany : test Guard.rmPatternFR command = true
                 \/ test Guard.rmPatternRF command = true
                 \/ test Guard.forkBombPattern command = true).
  { destruct Hin as [H|[H| ->]].
    - now apply matchesCritical_tests.
    - apply rmRoot_matches in H. tauto.
    - right. right. reflexivity. }
  split; [now apply matchesCritical_tests|].
  assert (Hrm : Guard.rmRoot command
                \/ test Guard.rmPatternFR command = true
                \/ test Guard.rmPatternRF command = true ->
                test Guard.rmPatternFR command = true
                \/ test Guard.rmPatternRF command = true).
  { intros [H|H]; [now apply rmRoot_matches|exact H]. }
  assert (Hfork : command = Guard.forkBomb ->
                  test Guard.rmPatternFR command = false
                  /\ test Guard.rmPatternRF command = false).
  { intros ->. split; reflexivity. }
  unfold r, Guard.guardCommand, Guard.CRITICAL_PATTERNS. cbn [find fst].
  destruct (test Guard.rmPatternFR command) eqn:E1;
    [|destruct (test Guard.rmPatternRF command) eqn:E2;
      [|destruct (test Guard.forkBombPattern command) eqn:E3]];
    cbn [Guard.allowed Guard.reason].
  - split; [reflexivity|]. split; [reflexivity|].
    split; [intros [H|[H _]]; [apply Hfork in H; destruct H|]; discriminate|].
    split; [reflexivity|]. split; [reflexivity|apply rm_is_allowed_by_default].
  - split; [reflexivity|]. split; [reflexivity|].
    split; [intros [H|[_ H]]; [apply Hfork in H; destruct H|]; discriminate|].
    split; [reflexivity|]. split; [reflexivity|apply rm_is_allowed_by_default].
  - split; [reflexivity|].
    split; [intros H; apply Hrm in H; destruct H; discriminate|].
    split; [reflexivity|].
    split; [reflexivity|]. split; [reflexivity|apply rm_is_allowed_by_default].
  - exfalso. destruct Hany as [H|[H|H]]; discriminate.
Qed.

Lemma guardCommand_critical_rejected_witness :
  Guard.rmRoot "rm -f -r /*"
  /\ Guard.allowed (Guard.guardCommand Guard.DEFAULT_ALLOWED_COMMANDS "rm -f -r /*")
     = false.
Proof.
  assert (H : Guard.rmRoot "rm -f -r /*").
  { apply (Guard.rm_two_groups EmptyString " " "-f" " " "-r" " " "*").
    - exact I.
    - split; [discriminate|reflexivity].
    - right. split; exists EmptyString, EmptyString; repeat split; reflexivity.
    - split; [discriminate|reflexivity].
    - split; [discriminate|reflexivity].
    - right. exists "*"%char, EmptyString. split; [reflexivity|now right]. }
  split; [exact H|].
  exact (proj1 (proj2 (guardCommand_critical_rejected
                         Guard.DEFAULT_ALLOWED_COMMANDS "rm -f -r /*"
                         (or_intror (or_introl H))))).
Defined.

End CommandGuard.

(** ** Patterns that can match in one way only *)

Section ExactMatches.
Import Regex.

Lemma exact_eps : Exact Eps EmptyString.
Proof. intros prev rest. reflexivity. Qed.

Lemma exact_class (p : ascii -> bool) (a : ascii) :
  p a = true -> Exact (Chr p) (String a EmptyString).
Proof. intros H prev rest. simpl. now rewrite H. Qed.

Lemma exact_chr (a : ascii) : Exact (chr a) (String a EmptyString).
Proof. apply exact_class. apply Ascii.eqb_refl. Qed.

Lemma exact_seq (a b : regex) (s t : string) :
  Exact a s -> Exact b t -> Exact (Seq a b) (s +:+ t).
Proof.
  intros Ha Hb prev rest. cbn [ends].
  rewrite append_assoc, Ha. cbn [flat_map]. rewrite Hb, app_nil_r.
  now rewrite lastOr_append.
Qed.

Lemma exact_times (p : ascii -> bool) (n : nat) (s : string) :
  String.length s = n -> Js.allChars p s = true -> Exact (times n (Chr p)) s.
Proof.
  revert s. induction n as [|n IH]; intros s Hlen Hall.
  - destruct s; [apply exact_eps|discriminate].
  - destruct s as [|a s]; [discriminate|].
    simpl in Hall. apply andb_true_iff in Hall. destruct Hall as [Ha Hs].
    change (String a s) with (String a EmptyString +:+ s). cbn [times].
    apply exact_seq; [now apply exact_class|].
    apply IH; [now injection Hlen|exact Hs].
Qed.

(** A greedy run of [p]-characters before a character that is not one,
    followed by something that cannot start at a [p]-character: only
    the longest run leads anywhere. *)
Lemma star_then (p : ascii -> bool) (f : pos -> list pos) (x : ascii) (name : string) :
  p x = false ->
  (forall q a t, p a = true -> f (q, String a t) = []) ->
  Js.allChars p name = true ->
  forall n prev tail,
    String.length (name +:+ String x tail) <= n ->
    flat_map f (star_iter n (ends (Chr p)) (prev, name +:+ String x tail))
    = f (lastOr prev name, String x tail).
Proof.
  intros Hx Hf. induction name as [|a name IH]; intros Hall n prev tail Hn.
  - simpl. destruct n as [|n]; simpl.
    + now rewrite app_nil_r.
    + rewrite Hx. rewrite filter_nil. simpl. now rewrite app_nil_r.
  - simpl in Hall. apply andb_true_iff in Hall. destruct Hall as [Ha Hall].
    destruct n as [|n]; [simpl in Hn; lia|].
    cbn [star_iter]. cbn [String.append]. rewrite (ends_chr_cons p prev a _ Ha).
    rewrite filter_cons. destruct (decide _) as [_|Hno].
    + rewrite filter_nil. cbn [flat_map]. rewrite app_nil_r, flat_map_app.
      rewrite IH; [|exact Hall|simpl in Hn; lia].
      cbn [flat_map]. rewrite (Hf prev a _ Ha). now rewrite !app_nil_r.
    + exfalso. apply Hno. unfold progress. simpl. apply Is_true_true.
      apply Nat.ltb_lt. lia.
Qed.

Lemma ends_Seq_eq (a b : regex) (c : pos) :
  ends (Seq a b) c = flat_map (ends b) (ends a c).
Proof. reflexivity. Qed.

Lemma ends_Star_eq (a : regex) (prev : option ascii) (s : string) :
  ends (Star a) (prev, s) = star_iter (String.length s) (ends a) (prev, s).
Proof. reflexivity. Qed.

Lemma exact_plus_then (p : ascii -> bool) (k : regex) (x : ascii) (name ktail : string) :
  p x = false ->
  (forall q a t, p a = true -> ends k (q, String a t) = []) ->
  Exact k (String x ktail) ->
  name <> EmptyString ->
  Js.allChars p name = true ->
  Exact (Seq (plus (Chr p)) k) (name +:+ String x ktail).
Proof.
  intros Hx Hk Hexact Hne Hall prev rest.
  destruct name as [|a name]; [contradiction|].
  simpl in Hall. apply andb_true_iff in Hall. destruct Hall as [Ha Hall].
  unfold plus. cbn [String.append].
  rewrite (ends_Seq_eq (Seq (Chr p) (Star (Chr p))) k).
  rewrite (ends_Seq_eq (Chr p) (Star (Chr p))).
  rewrite (ends_chr_cons p prev a _ Ha). cbn [flat_map]. rewrite app_nil_r.
  rewrite ends_Star_eq, append_assoc. cbn [String.append].
  rewrite (star_then p (ends k) x name Hx Hk Hall); [|lia].
  pose proof (Hexact (lastOr (Some a) name) rest) as He.
  cbn [String.append] in He. rewrite He.
  f_equal. f_equal. cbn [lastOr]. now rewrite lastOr_append.
Qed.

End ExactMatches.


(** ** The shape of a command line *)

Section CommandShape.
Import Regex Guard Shell.












(** *** Trimming *)



Lemma trimEnd_cons (c : ascii) (s : string) :
  Js.trimEnd (String c s)
  = if Js.is_ws c && Js.isEmpty (Js.trimEnd s) then EmptyString
    else String c (Js.trimEnd s).
Proof. reflexivity. Qed.





(** *** The word at the start, and its base name *)

Lemma split_on_nonempty (sep : ascii -> bool) (s : string) :
  Js.split_on sep s <> [].
Proof.
  destruct s as [|c s]; [discriminate|]. rewrite split_on_cons.
  destruct (sep c); [discriminate|]. now destruct (Js.split_on sep s).
Qed.






(** *** Openers *)




(** *** Assignments *)


























End CommandShape.

(** ** The header of a user message *)

Section Header.
Import Regex Transcript.

Lemma exact_header_tail (name : string) :
  name <> EmptyString ->
  Js.allChars (fun c => negb (Js.is_char "]" c)) name = true ->
  Exact (Seq (plus (Chr (fun c => negb (Js.is_char "]" c))))
             (Seq (chr "]") (Seq (chr ":") (chr " "))))
        (name +:+ "]: ").
Proof.
  intros Hne Hall. apply exact_plus_then; try assumption.
  - reflexivity.
  - intros q a t Ha. apply ends_seq_nil. unfold chr. apply ends_chr_nil.
    now apply negb_true_iff in Ha.
  - change "]: "%string with ("]" +:+ (":" +:+ " "))%string.
    apply exact_seq; [apply exact_chr|].
    apply exact_seq; apply exact_chr.
Qed.

Lemma exact_header_body (Y Mo D H Mi S oh om name : string) (sign : ascii) :
  digits 4 Y -> digits 2 Mo -> digits 2 D ->
  digits 2 H -> digits 2 Mi -> digits 2 S ->
  sign = "+"%char \/ sign = "-"%char ->
  digits 2 oh -> digits 2 om ->
  name <> EmptyString ->
  Js.allChars (fun c => negb (Js.is_char "]" c)) name = true ->
  Exact
    (seq [chr "["; times 4 digit; chr "-"; times 2 digit; chr "-";
          times 2 digit; chr " "; times 2 digit; chr ":"; times 2 digit;
          chr ":"; times 2 digit;
          Chr (fun c => Js.is_char "+" c || Js.is_char "-" c);
          times 2 digit; chr ":"; times 2 digit; chr "]"; chr " "; chr "[";
          plus (Chr (fun c => negb (Js.is_char "]" c))); chr "]"; chr ":";
          chr " "])
    ("[" +:+ Y +:+ "-" +:+ Mo +:+ "-" +:+ D +:+ " " +:+ H +:+ ":" +:+ Mi
       +:+ ":" +:+ S +:+ String sign EmptyString +:+ oh +:+ ":" +:+ om
       +:+ "]" +:+ " " +:+ "[" +:+ (name +:+ "]: ")).
Proof.
  intros [HY1 HY2] [HMo1 HMo2] [HD1 HD2] [HH1 HH2] [HMi1 HMi2] [HS1 HS2]
         Hsign [Hoh1 Hoh2] [Hom1 Hom2] Hname Hchars.
  cbn [seq]. unfold digit.
  repeat (apply exact_seq;
          [first [ apply exact_chr
                 | now apply exact_times
                 | apply exact_class ] |]).
  - destruct Hsign as [-> | ->]; reflexivity.
  - now apply exact_header_tail.
Qed.

(** The pattern removes a well-formed header, whatever follows it. *)
Lemma stripHeader_header (h rest : string) :
  isHeader h -> stripHeader (h +:+ rest) = rest.
Proof.
  intros [Y Mo D H Mi S oh om name sign HY HMo HD HH HMi HS Hsign Hoh Hom
          Hname Hchars].
  pose proof (exact_header_body Y Mo D H Mi S oh om name sign
                HY HMo HD HH HMi HS Hsign Hoh Hom Hname Hchars None rest) as Hex.
  unfold stripHeader, remove_prefix.
  change headerPattern with (Seq Bol (seq (tl [Bol; chr "["; times 4 digit; chr "-"; times 2 digit; chr "-";
         times 2 digit; chr " "; times 2 digit; chr ":"; times 2 digit;
         chr ":"; times 2 digit;
         Chr (fun c => Js.is_char "+" c || Js.is_char "-" c);
         times 2 digit; chr ":"; times 2 digit; chr "]"; chr " "; chr "[";
         plus (Chr (fun c => negb (Js.is_char "]" c))); chr "]"; chr ":";
         chr " "]))).
  rewrite ends_Seq_eq. cbn [ends fst flat_map tl]. rewrite app_nil_r.
  cbn [String.append] in Hex |- *. now rewrite Hex.
Qed.

End Header.

(** ** Trimming by turns *)

Section Turns.
Import Transcript.

#[local] Arguments turnStep : simpl never.

Lemma turnStep_other (turns : list (list AgentMessage)) (cur : list AgentMessage)
    (m : AgentMessage) :
  notUser m -> turnStep (turns, cur) m = (turns, cur ++ [m]).
Proof. unfold notUser, turnStep. now intros ->. Qed.

Lemma turnStep_first (turns : list (list AgentMessage)) (m : AgentMessage) :
  turnStep (turns, []) m = (turns, [m]).
Proof. unfold turnStep. simpl. now rewrite andb_false_r. Qed.

Lemma turnStep_user (turns : list (list AgentMessage)) (cur : list AgentMessage)
    (u : AgentMessage) :
  isUser u = true -> cur <> [] -> turnStep (turns, cur) u = (turns ++ [cur], [u]).
Proof.
  unfold turnStep. intros -> Hcur. destruct cur; [contradiction|reflexivity].
Qed.

Lemma fold_others (rest : list AgentMessage) :
  forall turns cur,
    Forall notUser rest ->
    fold_left turnStep rest (turns, cur) = (turns, cur ++ rest).
Proof.
  induction rest as [|m rest IH]; intros turns cur H; simpl.
  - now rewrite app_nil_r.
  - apply Forall_cons in H. destruct H as [Hm Hrest].
    rewrite turnStep_other by exact Hm. rewrite IH by exact Hrest.
    now rewrite <- app_assoc.
Qed.

Lemma userTurn_leading (t : list AgentMessage) : userTurn t -> leadingTurn t.
Proof. intros [u [rest [-> [_ H]]]]. now exists u, rest. Qed.

(** Running the loop over turns that each start at a user message
    closes the turn in progress and opens one per turn. *)
Lemma fold_userTurns (ts : list (list AgentMessage)) :
  forall turns cur,
    Forall userTurn ts -> cur <> [] ->
    exists T c,
      fold_left turnStep (concat ts) (turns, cur) = (T, c)
      /\ c <> [] /\ T ++ [c] = turns ++ cur :: ts.
Proof.
  induction ts as [|t ts IH]; intros turns cur Hts Hcur; simpl.
  - now exists turns, cur.
  - apply Forall_cons in Hts. destruct Hts as [[u [rest [-> [Hu Hrest]]]] Hts].
    simpl. rewrite turnStep_user by assumption.
    rewrite fold_left_app, fold_others by exact Hrest.
    destruct (IH (turns ++ [cur]) ([u] ++ rest) Hts) as [T [c [Hf [Hc HT]]]];
      [discriminate|].
    exists T, c. split; [exact Hf|]. split; [exact Hc|].
    rewrite HT. now rewrite <- app_assoc.
Qed.

(** Splitting the concatenation of a partition gives the partition back. *)
Lemma splitTurns_concat (ts : list (list AgentMessage)) :
  partition ts -> splitTurns (concat ts) = ts.
Proof.
  intros [Hfirst Hrest]. destruct ts as [|t0 ts]; [reflexivity|].
  simpl in Hfirst, Hrest. rewrite ?drop_0 in Hrest.
  apply Forall_cons in Hfirst. destruct Hfirst as [[m [rest [-> Hr]]] _].
  unfold splitTurns. simpl. rewrite turnStep_first.
  rewrite fold_left_app, fold_others by exact Hr.
  destruct (fold_userTurns ts [] ([m] ++ rest) Hrest) as [T [c [Hf [Hc HT]]]];
    [discriminate|].
  rewrite Hf. destruct c; [contradiction|]. simpl. exact HT.
Qed.

Lemma partition_snoc_user (T : list (list AgentMessage)) (c : list AgentMessage)
    (u : AgentMessage) :
  partition (T ++ [c]) -> isUser u = true -> partition ((T ++ [c]) ++ [[u]]).
Proof.
  intros [H1 H2] Hu. split.
  - destruct T; simpl in *; exact H1.
  - assert (Hnew : userTurn [u]) by (exists u, []; repeat split; [assumption|constructor]).
    destruct T as [|t T]; simpl in *.
    + now constructor.
    + rewrite ?drop_0 in *. apply Forall_app. split; [exact H2|now constructor].
Qed.

Lemma partition_snoc_other (T : list (list AgentMessage)) (c : list AgentMessage)
    (m : AgentMessage) :
  partition (T ++ [c]) -> notUser m -> partition (T ++ [c ++ [m]]).
Proof.
  intros [H1 H2] Hm. destruct T as [|t T]; simpl in *.
  - split; [|rewrite ?drop_0; constructor].
    apply Forall_cons in H1. destruct H1 as [[x [rest [-> Hr]]] _].
    constructor; [|constructor]. exists x, (rest ++ [m]). split; [reflexivity|].
    apply Forall_app. split; [exact Hr|now constructor].
  - split; [exact H1|]. rewrite ?drop_0 in *.
    apply Forall_app in H2. destruct H2 as [HT Hc].
    apply Forall_app. split; [exact HT|].
    apply Forall_cons in Hc. destruct Hc as [[u [rest [-> [Hu Hr]]]] _].
    constructor; [|constructor]. exists u, (rest ++ [m]).
    split; [reflexivity|]. split; [exact Hu|].
    apply Forall_app. split; [exact Hr|now constructor].
Qed.

(** The state of the loop after any prefix of the transcript. *)
Lemma fold_partition (msgs : list AgentMessage) :
  exists T c,
    fold_left turnStep msgs ([], []) = (T, c)
    /\ (msgs = [] -> T = [] /\ c = [])
    /\ (msgs <> [] -> c <> [] /\ partition (T ++ [c]) /\ concat (T ++ [c]) = msgs).
Proof.
  induction msgs as [|m msgs IH] using rev_ind.
  - exists [], []. repeat split; try reflexivity; contradiction.
  - destruct IH as [T [c [Hf [Hnil Hcons]]]].
    rewrite fold_left_app, Hf. simpl.
    destruct msgs as [|m0 msgs'].
    + destruct (Hnil eq_refl) as [-> ->]. rewrite turnStep_first.
      exists [], [m]. split; [reflexivity|]. split; [discriminate|].
      intros _. split; [discriminate|]. split; [|reflexivity].
      split; simpl; [|constructor].
      constructor; [|constructor]. exists m, []. split; [reflexivity|constructor].
    + destruct Hcons as [Hc [Hp Hcat]]; [discriminate|].
      destruct (isUser m) eqn:Hu.
      * rewrite turnStep_user by assumption.
        exists (T ++ [c]), [m]. split; [reflexivity|].
        split; [intros H; now destruct (m0 :: msgs')|].
        intros _. split; [discriminate|]. split.
        -- now apply partition_snoc_user.
        -- rewrite concat_app, Hcat. reflexivity.
      * rewrite turnStep_other by exact Hu.
        exists T, (c ++ [m]). split; [reflexivity|].
        split; [intros H; now destruct (m0 :: msgs')|].
        intros _. split; [now destruct c|]. split.
        -- now apply partition_snoc_other.
        -- rewrite concat_app in *. simpl in *. rewrite app_nil_r in *.
           now rewrite app_assoc, Hcat.
Qed.

Lemma splitTurns_partition (msgs : list AgentMessage) :
  partition (splitTurns msgs) /\ concat (splitTurns msgs) = msgs.
Proof.
  unfold splitTurns.
  destruct (fold_partition msgs) as [T [c [Hf [Hnil Hcons]]]]. rewrite Hf.
  destruct msgs as [|m msgs].
  - destruct (Hnil eq_refl) as [-> ->]. simpl. split; [|reflexivity].
    split; constructor.
  - destruct Hcons as [Hc [Hp Hcat]]; [discriminate|].
    destruct c; [contradiction|]. simpl. now split.
Qed.

Lemma partition_drop (ts : list (list AgentMessage)) (d : nat) :
  partition ts -> 1 <= d -> Forall userTurn (drop d ts) /\ partition (drop d ts).
Proof.
  intros [_ H] Hd.
  assert (Hu : Forall userTurn (drop d ts)).
  { replace d with (1 + (d - 1)) by lia. rewrite <- drop_drop.
    now apply Forall_drop. }
  split; [exact Hu|]. split.
  - apply Forall_take. eapply Forall_impl; [exact Hu|]. apply userTurn_leading.
  - now apply Forall_drop.
Qed.

(** C5, as the code has it.  Ten turns or fewer: nothing changes.
    More: the last ten turns are kept, each starting at a user
    message, and the summary is taken from the last dropped turn: the
    header-stripped text of its user message when that has at most
    100 characters, else its first 100 characters followed by three
    dots.  A synthetic user message carrying the summary is put in
    front, unless the summary is empty. *)
Theorem trimContextByTurns_turns (msgs : list AgentMessage) (dateNow : Z) :
  let turns := splitTurns msgs in
  let r := trimContextByTurns msgs dateNow in
  partition turns /\ concat turns = msgs
  /\ (length turns <= 10 -> r = mkTrimmed msgs 0 EmptyString)
  /\ (10 < length turns ->
      let dropped := length turns - 10 in
      let keptTurns := drop dropped turns in
      exists lastDropped,
        turns !! (dropped - 1) = Some lastDropped
        /\ length keptTurns = 10
        /\ Forall userTurn keptTurns
        /\ splitTurns (concat keptTurns) = keptTurns
        /\ droppedTurns r = dropped
        /\ summary r = summaryOfTurn lastDropped
        /\ (summary r = EmptyString -> messages r = concat keptTurns)
        /\ (summary r <> EmptyString ->
            exists stamp,
              messages r
              = mkMessage (Some user)
                  (StringContent ("[Prior context trimmed. Last topic before trim: "
                                    +:+ summary r +:+ "]"))
                  stamp
                :: concat keptTurns))
  /\ (forall turn u,
        find isUser turn = Some u ->
        let text := stripHeader (userText (content u)) in
        summaryOfTurn turn
        = if 100 <? String.length text
          then Js.substring0 100 text +:+ "..." else text)
  /\ (forall turn, find isUser turn = None -> summaryOfTurn turn = EmptyString)
  /\ (forall h rest, isHeader h -> stripHeader (h +:+ rest) = rest).
Proof.
  intros turns r.
  destruct (splitTurns_partition msgs) as [Hp Hcat].
  split; [exact Hp|]. split; [exact Hcat|].
  split; [|split; [|split; [|split; [|apply stripHeader_header]]]].
  - intros Hle. unfold r, trimContextByTurns. fold turns.
    unfold MAX_TURNS. now apply Nat.leb_le in Hle as ->.
  - intros Hgt dropped keptTurns.
    assert (Hlook : is_Some (turns !! (dropped - 1)))
      by (apply lookup_lt_is_Some; unfold dropped; lia).
    destruct Hlook as [lastDropped Hlast]. exists lastDropped.
    destruct (partition_drop turns dropped Hp) as [Hu Hpk];
      [unfold dropped; lia|].
    split; [exact Hlast|].
    split; [unfold keptTurns, dropped; rewrite length_drop; lia|].
    split; [exact Hu|].
    split; [now apply splitTurns_concat|].
    unfold r, trimContextByTurns. fold turns. unfold MAX_TURNS.
    assert (Hleb : (length turns <=? 10) = false) by (apply Nat.leb_gt; lia).
    rewrite Hleb. fold dropped. rewrite Hlast. fold keptTurns.
    destruct (Js.truthy (summaryOfTurn lastDropped)) eqn:Et; simpl.
    + split; [reflexivity|]. split; [reflexivity|].
      split.
      * intros H. rewrite H in Et. discriminate.
      * intros _. eexists. reflexivity.
    + apply truthy_false in Et. split; [reflexivity|]. split; [reflexivity|].
      split; [reflexivity|]. intros H. contradiction.
  - intros turn u Hf. unfold summaryOfTurn. rewrite Hf. reflexivity.
  - intros turn Hf. unfold summaryOfTurn. now rewrite Hf.
Qed.

(** The claim as worded fails twice.  When the user message of the
    last dropped turn carries no text (here: an image only), the
    summary is empty and no synthetic message is put in front.  When
    its text is longer than 100 characters, the synthetic message
    carries three dots after the first 100. *)
Lemma trimContextByTurns_counterexample :
  let say (s : string) := mkMessage (Some user) (StringContent s) None in
  let image := mkMessage (Some user) (ArrayContent [ImagePart "image/png" "AAAA"]) None in
  let long := ("[2025-01-02 10:11:12+01:00] [bob]: "
                 +:+ "0123456789012345678901234567890123456789012345678901234567890123456789012345678901234567890123456789X")%string in
  let first100 := "0123456789012345678901234567890123456789012345678901234567890123456789012345678901234567890123456789"%string in
  let tail := replicate 10 (say "hi") in
  length (splitTurns (image :: tail)) = 11
  /\ messages (trimContextByTurns (image :: tail) 0%Z) = tail
  /\ length (splitTurns (say long :: tail)) = 11
  /\ Js.substring0 100 (stripHeader long) = first100
  /\ messages (trimContextByTurns (say long :: tail) 0%Z)
     = mkMessage (Some user)
         (StringContent ("[Prior context trimmed. Last topic before trim: "
                           +:+ first100 +:+ "...]")) (Some 0%Z)
       :: tail
  /\ messages (trimContextByTurns (say long :: tail) 0%Z)
     <> mkMessage (Some user)
          (StringContent ("[Prior context trimmed. Last topic before trim: "
                            +:+ first100 +:+ "]")) (Some 0%Z)
        :: tail.
Proof.
  intros say image long first100 tail.
  split; [reflexivity|]. split; [reflexivity|]. split; [reflexivity|].
  split; [reflexivity|]. split; [reflexivity|].
  vm_compute. discriminate.
Qed.

End Turns.

(** ** The deduplicating log of the channel store *)

Section Dedup.
Import Env ChannelStore.

Lemma armed_start (workingDir : string) (t0 : Z) : armed (start workingDir t0).
Proof. split; [intros due key []|constructor]. Qed.

Lemma logMessage_known (w : World) (channelId : string) (message : LoggedMessage) :
  is_Some (recentlyLogged (store w) !! dedupeKey channelId message) ->
  logMessage w channelId message = (false, w).
Proof. intros [t H]. unfold logMessage. now rewrite H. Qed.

Lemma logMessage_new (w : World) (channelId : string) (message : LoggedMessage) :
  recentlyLogged (store w) !! dedupeKey channelId message = None ->
  logMessage w channelId message
  = (true,
     mkWorld (mkStore (workingDir (store w)) (pendingDownloads (store w))
                (isDownloading (store w))
                (<[dedupeKey channelId message := now w]> (recentlyLogged (store w))))
             (now w)
             (timers w ++ [((now w + DEDUP_MS)%Z, dedupeKey channelId message)])
             (appendLine (fs w) (logPath (workingDir (store w)) channelId)
                         (withDate message (now w)))).
Proof. intros H. unfold logMessage. now rewrite H. Qed.

Lemma armed_step (w w' : World) : armed w -> step w w' -> armed w'.
Proof.
  intros [Hkey Hnd] Hstep. destruct Hstep as [w ch m|w d Hd|w before due key after Ht Hdue].
  - destruct (recentlyLogged (store w) !! dedupeKey ch m) as [t|] eqn:E.
    + rewrite logMessage_known by (now exists t). now split.
    + rewrite logMessage_new by exact E. split; simpl.
      * intros due key Hin. apply in_app_or in Hin.
        destruct Hin as [Hin|[Heq|[]]].
        -- assert (key <> dedupeKey ch m).
           { intros ->. apply Hkey in Hin. congruence. }
           rewrite lookup_insert_ne by congruence. now apply Hkey.
        -- injection Heq as <- <-. rewrite lookup_insert_eq. f_equal. lia.
      * rewrite map_app. simpl. apply NoDup_app. split; [exact Hnd|].
        split; [|apply NoDup_singleton].
        intros k Hk Hk'. apply list_elem_of_singleton in Hk'. subst k.
        apply list_elem_of_In, in_map_iff in Hk.
        destruct Hk as [[due key] [Hs Hin]]. simpl in Hs. subst key.
        apply Hkey in Hin. congruence.
  - now split.
  - rewrite Ht in Hkey, Hnd. rewrite map_app in Hnd. simpl in Hnd.
    apply NoDup_app in Hnd. destruct Hnd as [Hb [Hsep Ha]].
    apply NoDup_cons in Ha. destruct Ha as [Hnotin Ha].
    split; simpl.
    + intros due' key' Hin.
      assert (Hin' : In (due', key') (before ++ (due, key) :: after)).
      { apply in_app_or in Hin. apply in_or_app.
        destruct Hin as [H|H]; [now left|right; now right]. }
      assert (key' <> key).
      { intros ->. apply in_app_or in Hin. destruct Hin as [H|H].
        - apply (Hsep key); [apply list_elem_of_In, in_map_iff; now exists (due', key)|left].
        - apply Hnotin. apply list_elem_of_In, in_map_iff. now exists (due', key). }
      rewrite lookup_delete_ne by congruence. now apply Hkey.
    + rewrite map_app. apply NoDup_app. split; [exact Hb|]. split; [|exact Ha].
      intros k Hk Hk'. apply (Hsep k Hk). now right.
Qed.

Lemma armed_steps (w w' : World) : armed w -> steps w w' -> armed w'.
Proof. intros H Hs. induction Hs; [exact H|]. eauto using armed_step. Qed.

Lemma armed_reachable (w : World) : reachable w -> armed w.
Proof.
  intros [wd [t0 Hs]]. eapply armed_steps; [apply armed_start|exact Hs].
Qed.

Lemma step_now (w w' : World) : step w w' -> (now w <= now w')%Z.
Proof.
  intros Hstep. destruct Hstep as [w ch m|w d Hd|w before due key after Ht Hdue];
    simpl; try lia.
  unfold logMessage. destruct (_ !! _); simpl; lia.
Qed.

Lemma steps_now (w w' : World) : steps w w' -> (now w <= now w')%Z.
Proof.
  induction 1 as [|w1 w2 w3 H12 _ IH]; [lia|]. apply step_now in H12. lia.
Qed.

(** A recorded key stays recorded until 60 seconds after its write. *)
Lemma key_persists (w w' : World) (key : string) (t : Z) :
  armed w -> steps w w' ->
  recentlyLogged (store w) !! key = Some t ->
  (now w' < t + DEDUP_MS)%Z ->
  recentlyLogged (store w') !! key = Some t.
Proof.
  intros Harmed Hs. revert Harmed.
  induction Hs as [|w1 w2 w3 H12 H23 IH]; intros Harmed Hk Hnow; [exact Hk|].
  apply IH; [now apply (armed_step w1)| |exact Hnow].
  apply steps_now in H23.
  destruct H12 as [w ch m|w d Hd|w before due key' after Ht Hdue].
  - destruct (recentlyLogged (store w) !! dedupeKey ch m) as [t'|] eqn:E.
    + rewrite logMessage_known by (now exists t'). exact Hk.
    + rewrite logMessage_new by exact E. simpl.
      rewrite lookup_insert_ne; [exact Hk|]. intros <-. congruence.
  - exact Hk.
  - simpl in *. destruct (decide (key' = key)) as [->|Hne].
    + destruct Harmed as [Hkey _].
      assert (Hin : In (due, key) (timers w)) by (rewrite Ht; apply in_elt).
      apply Hkey in Hin. rewrite Hk in Hin. injection Hin as ->. lia.
    + now rewrite lookup_delete_ne.
Qed.

Lemma readLines_append (files : FS) (path : string) (line : LoggedMessage) :
  readLines (appendLine files path line) path = readLines files path ++ [line].
Proof. unfold readLines, appendLine. now rewrite lookup_insert_eq. Qed.

(** C4, as the code has it.  [ChannelStore.logMessage] refuses a
    second write of the same channel and timestamp for 60 seconds
    after the first: it returns false and leaves the store and the
    files as they are.  The bot's own writers, [logUserMessage] for
    incoming messages and [logBotResponse], append through [logToFile]
    unconditionally. *)
Theorem logMessage_dedup_window
    (w0 w1 w2 : World) (channelId : string) (m m' : LoggedMessage) :
  reachable w0 ->
  logMessage w0 channelId m = (true, w1) ->
  steps w1 w2 ->
  (now w2 < now w0 + 60000)%Z ->
  ts m' = ts m ->
  readLines (fs w1) (logPath (workingDir (store w0)) channelId)
  = readLines (fs w0) (logPath (workingDir (store w0)) channelId)
      ++ [withDate m (now w0)]
  /\ logMessage w2 channelId m' = (false, w2)
  /\ (forall (b : Bot.Bot) (event : Bot.DiscordEvent),
        let path := logPath (Discord.workingDir (Bot.world b)) (Bot.e_channel event) in
        exists line,
          ts line = pretty (Bot.e_ts event)
          /\ readLines (Discord.fs (Bot.world (snd (Bot.logUserMessage b event)))) path
             = readLines (Discord.fs (Bot.world b)) path ++ [line])
  /\ (forall (w : Discord.World) (channel text stamp : string),
        let path := logPath (Discord.workingDir w) channel in
        exists line,
          ts line = stamp
          /\ readLines (Discord.fs (Discord.logBotResponse w channel text stamp)) path
             = readLines (Discord.fs w) path ++ [line]).
Proof.
  intros Hreach Hlog Hsteps Hnow Hts.
  assert (Hnew : recentlyLogged (store w0) !! dedupeKey channelId m = None).
  { destruct (recentlyLogged (store w0) !! dedupeKey channelId m) eqn:E;
      [|reflexivity].
    rewrite logMessage_known in Hlog; [discriminate|rewrite E; eauto]. }
  rewrite logMessage_new in Hlog by exact Hnew. injection Hlog as <-.
  split; [apply readLines_append|]. split; [|split].
  - apply logMessage_known. exists (now w0).
    replace (dedupeKey channelId m') with (dedupeKey channelId m)
      by (unfold dedupeKey; now rewrite Hts).
    eapply key_persists; [|exact Hsteps| |].
    + apply armed_reachable in Hreach.
      apply (armed_step w0); [exact Hreach|].
      pose proof (step_log w0 channelId m) as Hs.
      now rewrite logMessage_new in Hs by exact Hnew.
    + simpl. apply lookup_insert_eq.
    + unfold DEDUP_MS. exact Hnow.
  - intros b event path. unfold Bot.logUserMessage.
    destruct (Bot.e_files event) as [files|].
    + destruct (processAttachments _ _ _ _) as [atts st]. simpl.
      eexists. split; [|apply readLines_append]. reflexivity.
    + simpl. eexists. split; [|apply readLines_append]. reflexivity.
  - intros w channel text stamp path. unfold Discord.logBotResponse. simpl.
    eexists. split; [|apply readLines_append]. reflexivity.
Qed.

Lemma logMessage_dedup_window_witness :
  let m := mkLogged None "1700000000000" "u1" None None "hello" [] false in
  let w0 := start "/ws" 0%Z in
  let w1 := snd (logMessage w0 "c1" m) in
  let w2 := mkWorld (store w1) (now w1 + 59999)%Z (timers w1) (fs w1) in
  reachable w0
  /\ logMessage w0 "c1" m = (true, w1)
  /\ steps w1 w2
  /\ logMessage w2 "c1" m = (false, w2).
Proof.
  intros m w0 w1 w2.
  assert (H0 : reachable w0) by (exists "/ws"%string, 0%Z; apply steps_refl).
  assert (H1 : logMessage w0 "c1" m = (true, w1)) by reflexivity.
  assert (H2 : steps w1 w2).
  { eapply steps_cons; [|apply steps_refl].
    apply (step_tick w1 59999%Z). lia. }
  split; [exact H0|]. split; [exact H1|]. split; [exact H2|].
  refine (proj1 (proj2 (logMessage_dedup_window w0 w1 w2 "c1" m m H0 H1 H2 _ eq_refl))).
  vm_compute. reflexivity.
Defined.

(** The claim as worded fails for incoming Discord messages: the
    listener writes the same message twice when it is delivered
    twice. *)
Lemma logMessage_dedup_counterexample :
  let incoming :=
    Bot.mkIncoming 1234567890123456789%N "u1" false "c1" false false "hello"
                   1700000000000%Z [] in
  let b0 := Bot.start "/ws" (Some "42"%string) (Some 1%Z) in
  let b2 := Bot.messageCreate (Bot.messageCreate b0 incoming) incoming in
  exists line,
    ts line = "1234567890123456789"%string
    /\ readLines (Discord.fs (Bot.world b2)) (logPath "/ws" "c1") = [line; line].
Proof.
  intros incoming b0 b2. eexists. split; [|vm_compute; reflexivity]. reflexivity.
Qed.

End Dedup.

(** ** What a run leaves on Discord *)

Section SilentRun.
Import Discord Context AgentRun.

Lemma owns_fresh (w0 : World) : wellFormed w0 -> owns w0 None [] w0.
Proof.
  intros Hwf. split; [|split; [lia|split; [exact Hwf|split; [|split]]]].
  - unfold wellFormed in Hwf. induction (messages w0) as [|m ms IH]; [reflexivity|].
    rewrite filter_cons. destruct (decide _) as [_|Hn].
    + f_equal. apply IH. intros x Hx. apply Hwf. now right.
    + exfalso. apply Hn. apply Hwf. left.
  - intros m Hm Hge. apply Hwf in Hm. lia.
  - discriminate.
  - intros i Hi. inversion Hi.
Qed.

Lemma owns_send (w0 : World) (main main' : option N) (threads threads' : list N)
    (w : World) (channelId : string) (k : Kind) (text : string) :
  owns w0 main threads w ->
  (k = Upload \/ main' = Some (nextId w) \/ nextId w ∈ threads') ->
  (forall i, main = Some i -> main' = Some i) ->
  (forall i, i ∈ threads -> i ∈ threads') ->
  (forall i, main' = Some i -> (nextId w0 <= i)%N) ->
  (forall i, i ∈ threads' -> (nextId w0 <= i)%N) ->
  owns w0 main' threads'
       (setMessages w (messages w ++ [mkMsg (nextId w) channelId k text])
                    (nextId w + 1)%N).
Proof.
  intros [Hold [Hle [Hwf [Hnew [Hmain Hthr]]]]] Hk Hm Ht Hmain' Hthr'.
  unfold owns, wellFormed. simpl.
  split; [|split; [lia|split; [|split; [|split; assumption]]]].
  - rewrite filter_app, Hold. simpl. rewrite filter_cons, filter_nil. simpl.
    destruct (decide _) as [Hlt|_]; [lia|]. apply app_nil_r.
  - intros m Hin. simpl. apply elem_of_app in Hin. destruct Hin as [Hin|Hin].
    + apply Hwf in Hin. lia.
    + apply list_elem_of_singleton in Hin. subst m. simpl. lia.
  - intros m Hin Hge. apply elem_of_app in Hin. destruct Hin as [Hin|Hin].
    + destruct (Hnew m Hin Hge) as [H|[H|H]]; [now left| |].
      * right. left. now apply Hm.
      * right. right. now apply Ht.
    + apply list_elem_of_singleton in Hin. subst m. simpl. exact Hk.
Qed.

Lemma editOne_id (i : N) (text : string) (m : Message) :
  m_id (editOne i text m) = m_id m /\ m_kind (editOne i text m) = m_kind m.
Proof. unfold editOne. now destruct (m_id m =? i)%N. Qed.

Lemma editOne_other (i : N) (text : string) (m : Message) :
  m_id m <> i -> editOne i text m = m.
Proof.
  intros H. unfold editOne. destruct (N.eqb_spec (m_id m) i); [contradiction|reflexivity].
Qed.

Lemma owns_update (w0 : World) (i : N) (threads : list N) (w : World)
    (text : string) :
  owns w0 (Some i) threads w -> owns w0 (Some i) threads (updateMessage w i text).
Proof.
  intros [Hold [Hle [Hwf [Hnew [Hmain Hthr]]]]].
  pose proof (Hmain i eq_refl) as Hi.
  unfold owns, wellFormed, updateMessage. simpl.
  split; [|split; [exact Hle|split; [|split; [|split; assumption]]]].
  - rewrite <- Hold. clear -Hi.
    induction (messages w) as [|m ms IH]; [reflexivity|].
    simpl. rewrite !filter_cons, (proj1 (editOne_id i text m)).
    destruct (decide _) as [Hlt|_]; [|exact IH].
    rewrite editOne_other by lia. now f_equal.
  - intros m Hin. simpl. apply list_elem_of_fmap in Hin.
    destruct Hin as [m0 [-> Hin]]. apply Hwf in Hin.
    now rewrite (proj1 (editOne_id i text m0)).
  - intros m Hin Hge. apply list_elem_of_fmap in Hin.
    destruct Hin as [m0 [-> Hin]].
    destruct (editOne_id i text m0) as [Hid Hkind].
    rewrite Hid in *. rewrite Hkind. now apply Hnew.
Qed.

Lemma owns_quiet (w0 : World) (main : option N) (threads : list N) (w w' : World) :
  messages w' = messages w -> nextId w' = nextId w ->
  owns w0 main threads w -> owns w0 main threads w'.
Proof.
  intros Hm Hn [Hold [Hle [Hwf [Hnew [Hmain Hthr]]]]].
  unfold owns, wellFormed. rewrite Hm, Hn. repeat split; assumption.
Qed.

Lemma showMain_owns (w0 : World) (c : Ctx) (w : World) (accumulated : string) :
  owns w0 (message c) (threadMessages c) w ->
  owns w0 (message (fst (showMain c w accumulated)))
       (threadMessages (fst (showMain c w accumulated)))
       (snd (showMain c w accumulated))
  /\ is_Some (message (fst (showMain c w accumulated))).
Proof.
  intros H. unfold showMain. destruct (message c) as [m|] eqn:E; simpl.
  - split; [now apply owns_update|eauto].
  - split; [|eauto].
    pose proof H as [Hold [Hle [Hwf [Hnew [Hmain Hthr]]]]].
    apply (owns_send w0 None _ (threadMessages c) _ w);
      [exact H|now (right; left)|discriminate|auto| |exact Hthr].
    intros i Hi. injection Hi as <-. exact Hle.
Qed.

Lemma runOp_owns (w0 : World) (c : Ctx) (w : World) (op : Op) :
  owns w0 (message c) (threadMessages c) w ->
  owns w0 (message (fst (runOp (c, w) op)))
       (threadMessages (fst (runOp (c, w) op))) (snd (runOp (c, w) op)).
Proof.
  intros H. destruct op as [text shouldLog|text|text|b|path title|b]; simpl.
  - unfold respond.
    destruct (showMain_owns w0 c w
                (if Js.truthy (accumulatedText c)
                 then accumulatedText c +:+ String "010" EmptyString +:+ text
                 else text) H) as [Ho [m Hm]].
    destruct (showMain c w _) as [c' w']. simpl in *. rewrite Hm.
    destruct shouldLog; simpl; [|exact Ho].
    eapply owns_quiet; [| |exact Ho]; reflexivity.
  - unfold replaceMessage. apply (showMain_owns w0 c w text H).
  - unfold respondInThread. destruct (message c) as [m|] eqn:E; simpl.
    + pose proof H as [Hold [Hle [Hwf [Hnew [Hmain Hthr]]]]].
      apply (owns_send w0 (Some m) _ (threadMessages c) _ w);
        [exact H| | | |exact Hmain|].
      * right. right. apply elem_of_app. right. now left.
      * auto.
      * intros i Hi. apply elem_of_app. now left.
      * intros i Hi. apply elem_of_app in Hi. destruct Hi as [Hi|Hi]; [now apply Hthr|].
        apply list_elem_of_singleton in Hi. now subst i.
    + now rewrite E.
  - unfold setTyping. destruct (message c) as [m|] eqn:E; simpl.
    + now rewrite E.
    + destruct b; simpl; [|now rewrite E].
      pose proof H as [Hold [Hle [Hwf [Hnew [Hmain Hthr]]]]].
      apply (owns_send w0 None _ (threadMessages c) _ w);
        [exact H|now (right; left)|discriminate|auto| |exact Hthr].
      intros i Hi. injection Hi as <-. exact Hle.
  - unfold uploadFile, Discord.uploadFile. simpl.
    pose proof H as [Hold [Hle [Hwf [Hnew [Hmain Hthr]]]]].
    apply (owns_send w0 (message c) _ (threadMessages c) _ w);
      [exact H|now left|auto|auto|exact Hmain|exact Hthr].
  - unfold setWorking. destruct (message c) as [m|] eqn:E; simpl.
    + now apply owns_update.
    + exact H.
Qed.

Lemma runOps_owns (w0 : World) (ops : list Op) :
  forall c w,
    owns w0 (message c) (threadMessages c) w ->
    owns w0 (message (fst (runOps (c, w) ops)))
         (threadMessages (fst (runOps (c, w) ops))) (snd (runOps (c, w) ops)).
Proof.
  induction ops as [|op ops IH]; intros c w H; [exact H|].
  change (runOps (c, w) (op :: ops)) with (runOps (runOp (c, w) op) ops).
  pose proof (runOp_owns w0 c w op H) as H1.
  destruct (runOp (c, w) op) as [c1 w1]. now apply IH.
Qed.

Lemma elem_of_rev (i : N) (l : list N) : i ∈ rev l <-> i ∈ l.
Proof. rewrite !list_elem_of_In. symmetry. apply in_rev. Qed.

Lemma deleteAll_messages (ids : list N) :
  forall w,
    messages (fold_left deleteDiscordMessage ids w)
    = filter (fun m => m_id m ∉ ids) (messages w)
    /\ nextId (fold_left deleteDiscordMessage ids w) = nextId w.
Proof.
  induction ids as [|i ids IH]; intros w; simpl.
  - split; [|reflexivity]. induction (messages w) as [|m ms IHm]; [reflexivity|].
    rewrite filter_cons_True; [now f_equal|]. intros H. inversion H.
  - destruct (IH (deleteDiscordMessage w i)) as [Hm Hn].
    rewrite Hm, Hn. split; [|reflexivity].
    unfold deleteDiscordMessage. simpl. rewrite list_filter_filter.
    apply list_filter_iff. intros m. rewrite not_elem_of_cons. tauto.
Qed.

Lemma deleteMessage_world (c : Ctx) (w : World) :
  snd (fst (deleteMessage c w)) = fold_left deleteDiscordMessage (snd (deleteMessage c w)) w
  /\ snd (deleteMessage c w)
     = rev (threadMessages c) ++ match message c with Some m => [m] | None => [] end
  /\ message (fst (fst (deleteMessage c w))) = None
  /\ threadMessages (fst (fst (deleteMessage c w))) = [].
Proof.
  unfold deleteMessage, deleteThread. destruct (message c) as [m|]; simpl.
  - rewrite fold_left_app. simpl. repeat split; reflexivity.
  - rewrite app_nil_r. repeat split; reflexivity.
Qed.

(** Text that is nothing but the marker passes the test of [run], also
    when the model's answers are stripped of a leading "Thinking" line. *)
Lemma solely_silent (o : Outcome) :
  Js.trim (rawFinalText o) = "[SILENT]"%string -> isSilent (finalTextOf o) = true.
Proof.
  intros H. unfold finalTextOf.
  assert (Hkeep : stripThinkingBlock (rawFinalText o) = rawFinalText o).
  { unfold stripThinkingBlock, Regex.remove_prefix.
    destruct (rawFinalText o) as [|a rest] eqn:E; [reflexivity|].
    assert (Ha : Js.is_char "t" (Js.lower_char a) = false).
    { unfold Js.trim in H. simpl in H. destruct (Js.is_ws a) eqn:Ews.
      - destruct (Js.is_char "t" (Js.lower_char a)) eqn:Et; [|reflexivity].
        exfalso. clear -Ews Et. apply is_char_eq in Et.
        destruct a as [[] [] [] [] [] [] [] []]; vm_compute in Et, Ews; congruence.
      - simpl in H. rewrite Ews in H. simpl in H.
        injection H as -> _. reflexivity. }
    unfold thinkingPattern. cbn [Regex.seq].
    rewrite ends_anchored, ends_seq_nil; [reflexivity|]. now apply ends_chr_nil. }
  destruct (thinkingInText o); [rewrite Hkeep|];
    unfold isSilent; now rewrite H.
Qed.

(** C6, as the code has it.  When the run did not end in error and
    its final text, trimmed, is or begins with the marker, the run
    deletes its thread messages, last posted first, and then its main
    message; of what the run posted only uploaded files remain, and
    nothing that was there before is touched. *)
Theorem silent_run_deletes_messages
    (w0 : World) (channel : string) (eventFilename : option string)
    (ops : list Op) (o : Outcome) :
  wellFormed w0 ->
  endedInError o = false ->
  Js.trim (rawFinalText o) = "[SILENT]"%string \/ isSilent (finalTextOf o) = true ->
  let before := runOps (fresh channel eventFilename, w0) ops in
  let after := finish o (fst before) (snd before) in
  let deleted := snd after in
  deleted = rev (threadMessages (fst before))
              ++ match message (fst before) with Some m => [m] | None => [] end
  /\ message (fst (fst after)) = None
  /\ threadMessages (fst (fst after)) = []
  /\ (forall m, m ∈ messages (snd (fst after)) -> m_id m ∉ deleted)
  /\ filter (fun m => (m_id m < nextId w0)%N) (messages (snd (fst after)))
     = messages w0
  /\ (forall m, m ∈ messages (snd (fst after)) ->
                (nextId w0 <= m_id m)%N -> m_kind m = Upload).
Proof.
  intros Hwf Herr Hsilent before after deleted.
  assert (Hs : isSilent (finalTextOf o) = true)
    by (destruct Hsilent; [now apply solely_silent|assumption]).
  pose proof (runOps_owns w0 ops (fresh channel eventFilename) w0 (owns_fresh w0 Hwf))
    as Ho.
  fold before in Ho. destruct before as [c1 w1]. simpl in Ho.
  destruct (deleteMessage_world c1 w1) as [Hw [Hd [Hm Ht]]].
  assert (Hafter : fst after = (fst (fst (deleteMessage c1 w1)),
                                logInfo (snd (fst (deleteMessage c1 w1)))
                                  "Silent response - deleted message and thread")
                   /\ snd after = snd (deleteMessage c1 w1)).
  { unfold after, finish. simpl. rewrite Herr, Hs.
    destruct (deleteMessage c1 w1) as [[c' w'] del] eqn:E. simpl in *.
    destruct (usageSummary o) as [summary|]; simpl; [|now split].
    unfold respondInThread. rewrite Hm. now split. }
  destruct Hafter as [Hfst Hsnd]. unfold deleted. rewrite Hfst, Hsnd. simpl.
  destruct (deleteAll_messages (snd (deleteMessage c1 w1)) w1) as [Hmsgs _].
  rewrite Hw, Hmsgs, Hd.
  destruct Ho as [Hold [Hle [Hwf1 [Hnew [Hmain Hthr]]]]].
  assert (Hids : forall i,
             i ∈ rev (threadMessages c1)
                   ++ match message c1 with Some m => [m] | None => [] end ->
             (nextId w0 <= i)%N).
  { intros i Hi. apply elem_of_app in Hi. destruct Hi as [Hi|Hi].
    - apply Hthr. now apply elem_of_rev.
    - destruct (message c1) as [m|]; [|inversion Hi].
      apply list_elem_of_singleton in Hi. subst i. now apply Hmain. }
  split; [reflexivity|]. split; [exact Hm|]. split; [exact Ht|].
  split; [|split].
  - intros m Hin. now apply list_elem_of_filter in Hin.
  - rewrite list_filter_filter_l; [exact Hold|].
    intros m Hlt Hin. apply Hids in Hin. lia.
  - intros m Hin Hge. apply list_elem_of_filter in Hin. destruct Hin as [Hnot Hin].
    destruct (Hnew m Hin Hge) as [H|[H|H]]; [exact H| |]; exfalso; apply Hnot.
    + apply elem_of_app. right. rewrite H. now left.
    + apply elem_of_app. left. now apply elem_of_rev.
Qed.

Lemma silent_run_deletes_messages_witness :
  let w0 := Discord.mkWorld [] 0%N ∅ [] "/ws" 0%Z in
  let ops := [SetTyping true; SetWorking true; RespondInThread "OK bash (0.1s)";
              UploadFile "/ws/c1/plot.png" None;
              Respond "[SILENT]" true; RespondInThread "[SILENT]"] in
  let o := mkOutcome "stop" None "[SILENT]" false (Some "usage summary"%string) in
  let before := runOps (fresh "c1" None, w0) ops in
  let after := finish o (fst before) (snd before) in
  wellFormed w0
  /\ endedInError o = false
  /\ Js.trim (rawFinalText o) = "[SILENT]"%string
  /\ snd after = [3%N; 1%N; 0%N]
  /\ messages (snd (fst after)) = [mkMsg 2%N "c1" Upload EmptyString].
Proof.
  intros w0 ops o before after.
  assert (H0 : wellFormed w0) by (intros m Hm; inversion Hm).
  split; [exact H0|]. split; [reflexivity|]. split; [reflexivity|].
  split; [|vm_compute; reflexivity].
  exact (proj1 (silent_run_deletes_messages w0 "c1" None ops o H0 eq_refl
                  (or_introl eq_refl))).
Defined.

(** The claim as worded fails when the run ends in error: the error
    branch of [run] comes first, nothing is deleted, and the main
    message and the thread stay. *)
Lemma silent_run_counterexample :
  let w0 := Discord.mkWorld [] 0%N ∅ [] "/ws" 0%Z in
  let ops := [SetTyping true; SetWorking true;
              Respond "[SILENT]" true; RespondInThread "[SILENT]"] in
  let o := mkOutcome "error" (Some "boom"%string) "[SILENT]" false None in
  let before := runOps (fresh "c1" None, w0) ops in
  let after := finish o (fst before) (snd before) in
  Js.trim (rawFinalText o) = "[SILENT]"%string
  /\ snd after = []
  /\ map m_text (messages (snd (fst after)))
     = ["*Sorry, something went wrong* ..."; "[SILENT]"; "*Error: boom*"]%string.
Proof. repeat split; vm_compute; reflexivity. Qed.

End SilentRun.

(** ** Queues, the cap and the stop command *)

Section Orchestrator.
Import Env Discord Context Bot.

Lemma logged_keeps (b : Bot) (message : Incoming) :
  messages (world (logged b message)) = messages (world b)
  /\ nextId (world (logged b message)) = nextId (world b)
  /\ console (world (logged b message)) = console (world b)
  /\ queues (logged b message) = queues b
  /\ channelStates (logged b message) = channelStates b
  /\ inflight (logged b message) = inflight b
  /\ startupTs (logged b message) = startupTs b
  /\ botUserId (logged b message) = botUserId b
  /\ stopping (logged b message) = stopping b.
Proof.
  unfold logged, logUserMessage.
  destruct (e_files _) as [files|]; [destruct (ChannelStore.processAttachments _ _ _ _)|];
    repeat split; reflexivity.
Qed.

(** What the listener does with a message addressed to the bot. *)
Lemma messageCreate_addressed (b : Bot) (message : Incoming) :
  addressed b message ->
  messageCreate b message
  = let b1 := logged b message in
    let ch := in_channelId message in
    if isStop (e_text (eventOf b message)) then
      if isRunning b1 ch then handleStop b1 ch
      else setWorld b1 (snd (postMessage (world b1) ch "_Nothing running_"))
    else if isRunning b1 ch then
      setWorld b1
        (snd (postMessage (world b1) ch
                ("_Already working. Say " +:+ stopHintFor message +:+ " to cancel._")))
    else enqueue b1 ch (mkWork (eventOf b message) false).
Proof.
  intros [Hbot [Hself [Hto Hold]]].
  unfold messageCreate. rewrite Hbot.
  rewrite bool_decide_eq_false_2 by exact Hself.
  assert (Hskip : negb (in_isDM message) && negb (in_mentionsBot message) = false)
    by (destruct Hto as [-> | ->]; [reflexivity|apply andb_false_r]).
  rewrite Hskip. unfold logged, eventOf, stopHintFor.
  assert (Hold' : forall x, beforeStartup (snd (logUserMessage b x)) message
                            = beforeStartup b message).
  { intros x. unfold beforeStartup, logUserMessage.
    destruct (e_files x); [destruct (ChannelStore.processAttachments _ _ _ _)|];
      reflexivity. }
  destruct (logUserMessage b _) as [atts b1] eqn:E. simpl.
  specialize (Hold' (buildEvent b message (if in_isDM message then dm else mention))).
  rewrite E in Hold'. simpl in Hold'. rewrite Hold', Hold. reflexivity.
Qed.

Lemma isRunning_logged (b : Bot) (message : Incoming) (channelId : string) :
  isRunning (logged b message) channelId = isRunning b channelId.
Proof.
  unfold isRunning. now rewrite (proj1 (proj2 (proj2 (proj2 (proj2 (logged_keeps b message)))))).
Qed.

Lemma warnings_info (b : Bot) (msg : string) :
  warnings (setWorld b (logInfo (world b) msg)) = warnings b.
Proof.
  unfold warnings. simpl. rewrite filter_app, filter_cons_False, filter_nil.
  - apply app_nil_r.
  - discriminate.
Qed.

Lemma handleEventStart_effects (b : Bot) (queueId : string) (work : Work) :
  queues (handleEventStart b queueId work) = queues b
  /\ (exists ctx, inflight (handleEventStart b queueId work)
                  = <[queueId := (work, ctx)]> (inflight b))
  /\ warnings (handleEventStart b queueId work) = warnings b
  /\ messages (world (handleEventStart b queueId work)) = messages (world b)
  /\ nextId (world (handleEventStart b queueId work)) = nextId (world b).
Proof.
  unfold handleEventStart, getState.
  destruct (channelStates b !! e_channel (work_event work)) as [s|]; simpl;
    (split; [reflexivity|]; split; [eexists; reflexivity|];
     split; [|split; reflexivity]);
    unfold warnings; simpl; rewrite filter_app, filter_cons_False, filter_nil;
    try apply app_nil_r; discriminate.
Qed.

Lemma queueOf_setQueue (b : Bot) (channelId : string) (q : ChannelQueue) :
  queueOf (setQueue b channelId q) channelId = q.
Proof. unfold queueOf, setQueue. simpl. now rewrite lookup_insert_eq. Qed.

(** [enqueue] never drops a work item and never warns. *)
Lemma enqueue_admitted (b : Bot) (channelId : string) (work : Work) :
  admitted (queueOf b channelId) work (enqueue b channelId work) channelId
  /\ warnings (enqueue b channelId work) = warnings b
  /\ messages (world (enqueue b channelId work)) = messages (world b).
Proof.
  unfold enqueue, getQueue, queueOf.
  set (q := default emptyQueue (queues b !! channelId)).
  assert (Hb : exists b0,
             (let '(q0, b1) := match queues b !! channelId with
                               | Some q0 => (q0, b)
                               | None => (emptyQueue, setQueue b channelId emptyQueue)
                               end in
              processNext (setQueue b1 channelId
                             (mkQueue (queue q0 ++ [work]) (processing q0))) channelId)
             = processNext (setQueue b0 channelId
                              (mkQueue (queue q ++ [work]) (processing q))) channelId
             /\ world b0 = world b /\ inflight b0 = inflight b).
  { unfold q. destruct (queues b !! channelId) as [q0|]; simpl.
    - exists b. repeat split.
    - exists (setQueue b channelId emptyQueue). repeat split. }
  destruct Hb as [b0 [-> [Hw Hi]]].
  unfold processNext. simpl. rewrite lookup_insert_eq. simpl.
  destruct (processing q) eqn:Ep.
  - split; [split|split].
    + intros _. unfold queueOf. simpl. now rewrite lookup_insert_eq.
    + intros H. congruence.
    + unfold warnings. simpl. now rewrite Hw.
    + simpl. now rewrite Hw.
  - destruct (queue q ++ [work]) as [|first rest] eqn:Eq;
      [now destruct (queue q)|].
    destruct (handleEventStart_effects
                (setQueue (setQueue b0 channelId (mkQueue (first :: rest) false))
                          channelId (mkQueue rest true))
                channelId first) as [Hq [[ctx Hfl] [Hwarn [Hm Hn]]]].
    split; [split|split].
    + intros H. congruence.
    + intros _. exists first, rest, ctx. split; [first [exact Eq|reflexivity]|].
      split.
      * unfold queueOf. rewrite Hq. simpl. now rewrite lookup_insert_eq.
      * rewrite Hfl. now rewrite lookup_insert_eq.
    + rewrite Hwarn. unfold warnings. simpl. now rewrite Hw.
    + rewrite Hm. simpl. now rewrite Hw.
Qed.

(** C7, as the code has it.  The cap of five is applied by
    [enqueueEvent], the scheduler's entry: at five or more pending
    items the event is dropped and a warning is logged, below that it
    is admitted.  The listener for chat messages does not look at the
    queue's size: it admits the message when no run is active on the
    channel, and otherwise answers that it is busy, without a warning. *)
Theorem queue_cap_applies_to_events (b : Bot) :
  (forall event,
     QUEUE_CAP <= size (queueOf b (e_channel event)) ->
     enqueueEvent b event
     = (false, setWorld b (logToConsole (world b) (queueFullWarning event))))
  /\ (forall event,
        size (queueOf b (e_channel event)) < QUEUE_CAP ->
        fst (enqueueEvent b event) = true
        /\ warnings (snd (enqueueEvent b event)) = warnings b
        /\ admitted (queueOf b (e_channel event)) (mkWork event true)
                    (snd (enqueueEvent b event)) (e_channel event))
  /\ (forall message,
        addressed b message ->
        isStop (e_text (eventOf b message)) = false ->
        let ch := in_channelId message in
        let b' := messageCreate b message in
        warnings b' = warnings b
        /\ (isRunning b ch = true ->
            queues b' = queues b
            /\ messages (world b')
               = messages (world b)
                   ++ [mkMsg (nextId (world b)) ch Plain
                         ("_Already working. Say " +:+ stopHintFor message
                            +:+ " to cancel._")])
        /\ (isRunning b ch = false ->
            messages (world b') = messages (world b)
            /\ admitted (queueOf b ch) (mkWork (eventOf b message) false) b' ch)).
Proof.
  split; [|split].
  - intros event Hfull. unfold enqueueEvent, getQueue.
    unfold queueOf in Hfull.
    destruct (queues b !! e_channel event) as [q|] eqn:E; simpl in Hfull.
    + apply Nat.leb_le in Hfull. now rewrite Hfull.
    + unfold QUEUE_CAP, size, emptyQueue in Hfull. simpl in Hfull. lia.
  - intros event Hroom. unfold enqueueEvent.
    assert (Hq : exists b0,
               getQueue b (e_channel event) = (queueOf b (e_channel event), b0)
               /\ world b0 = world b
               /\ queueOf b0 (e_channel event) = queueOf b (e_channel event)).
    { unfold getQueue, queueOf.
      destruct (queues b !! e_channel event) as [q|] eqn:E; simpl.
      - exists b. rewrite E. repeat split.
      - eexists. split; [reflexivity|]. simpl. split; [reflexivity|].
        now rewrite lookup_insert_eq. }
    destruct Hq as [b0 [-> [Hw Hq0]]].
    apply Nat.leb_gt in Hroom. rewrite Hroom. cbn [fst snd].
    split; [reflexivity|].
    set (b1 := setWorld b0 (logInfo (world b0) _)).
    destruct (enqueue_admitted b1 (e_channel event) (mkWork event true))
      as [Hadm [Hwarn _]].
    split.
    + rewrite Hwarn. unfold b1. rewrite warnings_info.
      unfold warnings. now rewrite Hw.
    + assert (Heq : queueOf b1 (e_channel event) = queueOf b (e_channel event))
        by (rewrite <- Hq0; reflexivity).
      rewrite <- Heq. exact Hadm.
  - intros message Haddr Hnostop ch b'.
    unfold b'. rewrite (messageCreate_addressed b message Haddr).
    cbv zeta. rewrite Hnostop, isRunning_logged. fold ch.
    destruct (logged_keeps b message) as [Hm [Hn [Hc [Hq [Hs [Hi _]]]]]].
    destruct (isRunning b ch) eqn:Er.
    + split; [unfold warnings; simpl; now rewrite Hc|].
      split; [|discriminate]. intros _. simpl. split; [exact Hq|].
      now rewrite Hm, Hn.
    + destruct (enqueue_admitted (logged b message) ch
                  (mkWork (eventOf b message) false)) as [Hadm [Hwarn Hmsgs]].
      split; [rewrite Hwarn; unfold warnings; now rewrite Hc|].
      split; [discriminate|]. intros _. split; [now rewrite Hmsgs|].
      assert (Heq : queueOf (logged b message) ch = queueOf b ch)
        by (unfold queueOf; now rewrite Hq).
      rewrite <- Heq. exact Hadm.
Qed.

(** The claim as worded fails for chat messages.  Six scheduler events
    leave one run active and five items pending; a seventh event is
    dropped with a warning; a chat message that arrives then is
    turned away with a reply and no warning is logged.  The same
    reply is given with nothing pending at all. *)
Lemma queue_cap_counterexample :
  let ev (n : N) :=
    mkEvent mention "c1" n "scheduler" "[EVENT:tick.json:periodic:0] tick" None None in
  let b0 := start "/ws" (Some "42"%string) (Some 1%Z) in
  let b1 := snd (enqueueEvent b0 (ev 1%N)) in
  let b6 := fold_left (fun b n => snd (enqueueEvent b (ev n))) [2; 3; 4; 5; 6]%N b1 in
  let hello :=
    mkIncoming 100%N "u1" false "c1" false true "<@42> hello" 1700000000000%Z [] in
  size (queueOf b6 "c1") = 5 /\ isRunning b6 "c1" = true
  /\ addressed b6 hello
  /\ enqueueEvent b6 (ev 7%N)
     = (false, setWorld b6 (logToConsole (world b6) (queueFullWarning (ev 7%N))))
  /\ queueOf (messageCreate b6 hello) "c1" = queueOf b6 "c1"
  /\ warnings (messageCreate b6 hello) = []
  /\ map m_text (messages (world (messageCreate b6 hello)))
     = ["_Already working. Say `@mother stop` to cancel._"%string]
  /\ size (queueOf b1 "c1") = 0
  /\ map m_text (messages (world (messageCreate b1 hello)))
     = ["_Already working. Say `@mother stop` to cancel._"%string].
Proof.
  intros ev b0 b1 b6 hello.
  split; [vm_compute; reflexivity|]. split; [vm_compute; reflexivity|].
  split.
  { split; [reflexivity|]. split; [discriminate|]. split; [now right|reflexivity]. }
  split; [vm_compute; reflexivity|]. split; [vm_compute; reflexivity|].
  split; [vm_compute; reflexivity|]. split; [vm_compute; reflexivity|].
  split; vm_compute; reflexivity.
Qed.

Lemma isRunning_true (b : Bot) (channelId : string) :
  isRunning b channelId = true ->
  exists s, channelStates b !! channelId = Some s /\ running s = true.
Proof.
  unfold isRunning. destruct (channelStates b !! channelId) as [s|]; [|discriminate].
  intros H. now exists s.
Qed.

Lemma handleEventStart_stopMessage (b : Bot) (queueId : string) (work : Work)
    (channelId : string) :
  stopMessage <$> (channelStates b !! channelId) = Some None ->
  stopMessage <$> (channelStates (handleEventStart b queueId work) !! channelId)
  = Some None.
Proof.
  intros H. unfold handleEventStart, getState.
  destruct (decide (e_channel (work_event work) = channelId)) as [->|Hne].
  - destruct (channelStates b !! channelId) as [s|] eqn:E; simpl in *.
    + rewrite lookup_insert_eq. simpl. exact H.
    + discriminate.
  - destruct (channelStates b !! e_channel (work_event work)) as [s|]; simpl;
      rewrite ?lookup_insert_ne by exact Hne; exact H.
Qed.

Lemma processNext_effects (b : Bot) (queueId channelId : string) :
  messages (world (processNext b queueId)) = messages (world b)
  /\ (stopMessage <$> (channelStates b !! channelId) = Some None ->
      stopMessage <$> (channelStates (processNext b queueId) !! channelId)
      = Some None).
Proof.
  unfold processNext. destruct (queues b !! queueId) as [q|]; [|now split].
  destruct (processing q); [now split|].
  destruct (queue q) as [|work rest]; [now split|].
  split.
  - now rewrite (proj1 (proj2 (proj2 (proj2 (handleEventStart_effects _ _ _))))).
  - intros H. now apply handleEventStart_stopMessage.
Qed.

(** C8, as the code has it.  A message addressed to the bot whose
    text, lowercased and trimmed, is "stop".  During a run the stop is
    marked as requested, the runner is told to abort and one
    [*Stopping...*] message is posted; the call then waits for the
    post, and the message is remembered as the stop message only once
    the post has returned.  Outside a run the listener posts one
    [_Nothing running_] message and aborts nothing.  In both cases
    nothing is queued.  When the run comes back with the stop reason
    "aborted" and the stop was requested, the stop message remembered
    by then is edited to [*Stopped*] and forgotten; if none is
    remembered then, because the post has not returned yet, a new
    [*Stopped*] message is posted and no message is edited. *)
Theorem stop_command (b : Bot) (message : Incoming) :
  addressed b message ->
  isStop (e_text (eventOf b message)) = true ->
  let ch := in_channelId message in
  let b' := messageCreate b message in
  queues b' = queues b /\ inflight b' = inflight b
  /\ (isRunning b ch = true ->
      exists s,
        channelStates b !! ch = Some s
        /\ messages (world b')
           = messages (world b) ++ [mkMsg (nextId (world b)) ch Plain "*Stopping...*"]
        /\ channelStates b'
           = <[ch := mkState true true (stopMessage s) (S (abortCalls s))]>
               (channelStates b)
        /\ stopping b' = stopping b ++ [(ch, nextId (world b))])
  /\ (isRunning b ch = false ->
      messages (world b')
      = messages (world b) ++ [mkMsg (nextId (world b)) ch Plain "_Nothing running_"]
      /\ channelStates b' = channelStates b
      /\ stopping b' = stopping b)
  /\ (forall (b2 : Bot) (i : nat) (channelId : string) (msg : N) (s : ChannelState),
        stopping b2 !! i = Some (channelId, msg) ->
        channelStates b2 !! channelId = Some s ->
        let posted := handleStopEnd b2 i in
        world posted = world b2
        /\ queues posted = queues b2 /\ inflight posted = inflight b2
        /\ stopping posted = delete i (stopping b2)
        /\ channelStates posted
           = <[channelId := mkState (running s) (stopRequested s) (Some msg)
                                    (abortCalls s)]> (channelStates b2))
  /\ (forall (b2 : Bot) (queueId : string) (work : Work) (ctx : Ctx) (s : ChannelState),
        inflight b2 !! queueId = Some (work, ctx) ->
        channelStates b2 !! e_channel (work_event work) = Some s ->
        stopRequested s = true ->
        let over := handleEventEnd b2 queueId (Returned "aborted") in
        let shown := messages (snd (setWorking ctx (world b2) false)) in
        (forall m,
           stopMessage s = Some m ->
           messages (world over) = map (editOne m "*Stopped*") shown
           /\ (forall x, x ∈ messages (world over) -> m_id x = m ->
                         m_text x = "*Stopped*"%string)
           /\ stopMessage <$> (channelStates over !! e_channel (work_event work))
              = Some None)
        /\ (stopMessage s = None ->
            messages (world over)
            = shown ++ [mkMsg (nextId (world b2)) (e_channel (work_event work))
                          Plain "*Stopped*"])).
Proof.
  intros Haddr Hstop ch b'.
  unfold b'. rewrite (messageCreate_addressed b message Haddr).
  cbv zeta. rewrite Hstop, isRunning_logged. fold ch.
  destruct (logged_keeps b message) as [Hm [Hn [Hc [Hq [Hs [Hi [_ [_ Hp]]]]]]]].
  assert (Hfirst :
    queues (if isRunning b ch then handleStop (logged b message) ch
            else setWorld (logged b message)
                   (snd (postMessage (world (logged b message)) ch "_Nothing running_")))
    = queues b
    /\ inflight (if isRunning b ch then handleStop (logged b message) ch
                 else setWorld (logged b message)
                        (snd (postMessage (world (logged b message)) ch
                                "_Nothing running_")))
       = inflight b).
  { destruct (isRunning b ch); [|now split].
    unfold handleStop. destruct (channelStates (logged b message) !! ch) as [s|];
      [destruct (running s)|]; now split. }
  destruct Hfirst as [Hq' Hi'].
  split; [exact Hq'|]. split; [exact Hi'|].
  split; [|split; [|split]].
  - intros Hrun. rewrite Hrun. apply isRunning_true in Hrun.
    destruct Hrun as [s [Hlook Hr]]. exists s. split; [exact Hlook|].
    unfold handleStop. rewrite Hs, Hlook, Hr. simpl.
    rewrite Hm, Hn, Hs, Hp. now repeat split.
  - intros Hrun. rewrite Hrun. simpl. rewrite Hm, Hn. now repeat split.
  - intros b2 i channelId msg s Hi2 Hst. unfold handleStopEnd. rewrite Hi2.
    simpl. rewrite Hst. now repeat split.
  - intros b2 queueId work ctx s Hfl Hst Hreq.
    assert (Hnext : nextId (snd (setWorking ctx (world b2) false)) = nextId (world b2)).
    { unfold setWorking. now destruct (Context.message ctx). }
    unfold handleEventEnd. rewrite Hfl, Hst. simpl. rewrite Hreq.
    destruct (setWorking ctx (world b2) false) as [c1 w1] eqn:Esw. simpl in *.
    split.
    + intros m Hsm. rewrite Hsm.
      match goal with
      | |- context [processNext ?bb queueId] =>
          destruct (processNext_effects bb queueId (e_channel (work_event work)))
            as [Hmsg Hkeep]
      end.
      rewrite Hmsg. simpl. split; [reflexivity|]. split.
      * intros x Hx Hid. apply list_elem_of_fmap in Hx. destruct Hx as [x0 [-> Hx0]].
        unfold editOne in *. destruct (m_id x0 =? m)%N eqn:E; [reflexivity|].
        apply N.eqb_neq in E. contradiction.
      * apply Hkeep. simpl. now rewrite lookup_insert_eq.
    + intros Hsm. rewrite Hsm.
      match goal with
      | |- context [processNext ?bb queueId] =>
          destruct (processNext_effects bb queueId (e_channel (work_event work)))
            as [Hmsg _]
      end.
      rewrite Hmsg. simpl. now rewrite Hnext.
Qed.

(** A stop during a run, in the two orders the code allows.  When the
    post of [*Stopping...*] returns before the run does, that message
    is the one edited; when the run returns first, the message stays
    and [*Stopped*] is posted after it. *)
Lemma stop_command_witness :
  let b0 := start "/ws" (Some "42"%string) (Some 1%Z) in
  let hello :=
    mkIncoming 100%N "u1" false "c1" false true "<@42> hello" 1700000000000%Z [] in
  let stop :=
    mkIncoming 101%N "u1" false "c1" false true "<@42>  Stop " 1700000000001%Z [] in
  let b1 := messageCreate b0 hello in
  let b2 := messageCreate b1 stop in
  addressed b1 stop
  /\ isStop (e_text (eventOf b1 stop)) = true
  /\ isRunning b1 "c1" = true
  /\ queues b2 = queues b1
  /\ map m_text (messages (world b2)) = ["*Stopping...*"%string]
  /\ stopping b2 = [("c1"%string, 0%N)]
  /\ stopMessage <$> (channelStates b2 !! "c1") = Some None
  /\ stopMessage <$> (channelStates (handleStopEnd b2 0) !! "c1") = Some (Some 0%N)
  /\ map m_text (messages (world (handleEventEnd (handleStopEnd b2 0) "c1"
                                     (Returned "aborted"))))
     = ["*Stopped*"%string]
  /\ map m_text (messages (world (handleStopEnd
                                     (handleEventEnd b2 "c1" (Returned "aborted")) 0)))
     = ["*Stopping...*"%string; "*Stopped*"%string].
Proof.
  intros b0 hello stop b1 b2.
  assert (Ha : addressed b1 stop).
  { split; [reflexivity|]. split; [discriminate|]. split; [now right|reflexivity]. }
  assert (Hs : isStop (e_text (eventOf b1 stop)) = true) by reflexivity.
  split; [exact Ha|]. split; [exact Hs|]. split; [reflexivity|].
  split; [exact (proj1 (stop_command b1 stop Ha Hs))|].
  repeat split; vm_compute; reflexivity.
Defined.

(** The claim as worded fails in two places.  A run that returns
    before the post of [*Stopping...*] has come back finds no stop
    message: the message posted for the stop keeps its text and a
    second message, [*Stopped*], is posted.  And outside a run the
    listener answers with underscores, [_Nothing running_], not with
    asterisks. *)
Lemma stop_command_counterexample :
  let b0 := start "/ws" (Some "42"%string) (Some 1%Z) in
  let hello :=
    mkIncoming 100%N "u1" false "c1" false true "<@42> hello" 1700000000000%Z [] in
  let stop :=
    mkIncoming 101%N "u1" false "c1" false true "<@42> stop" 1700000000001%Z [] in
  let b1 := messageCreate b0 hello in
  let b2 := messageCreate b1 stop in
  let b3 := handleEventEnd b2 "c1" (Returned "aborted") in
  (addressed b1 stop
   /\ isStop (e_text (eventOf b1 stop)) = true
   /\ isRunning b1 "c1" = true
   /\ messages (world b2) = [mkMsg 0%N "c1" Plain "*Stopping...*"]
   /\ stopRequested <$> (channelStates b2 !! "c1") = Some true
   /\ messages (world b3)
      = [mkMsg 0%N "c1" Plain "*Stopping...*"; mkMsg 1%N "c1" Plain "*Stopped*"]
   /\ messages (world (handleStopEnd b3 0)) = messages (world b3)
   /\ messages (world b3) <> [mkMsg 0%N "c1" Plain "*Stopped*"])
  /\ (addressed b0 stop
      /\ isStop (e_text (eventOf b0 stop)) = true
      /\ isRunning b0 "c1" = false
      /\ messages (world (messageCreate b0 stop))
         = [mkMsg 0%N "c1" Plain "_Nothing running_"]
      /\ messages (world (messageCreate b0 stop))
         <> [mkMsg 0%N "c1" Plain "*Nothing running*"]).
Proof.
  intros b0 hello stop b1 b2 b3.
  split.
  - split; [split; [reflexivity|split; [discriminate|split; [now right|reflexivity]]]|].
    split; [reflexivity|]. split; [reflexivity|].
    split; [vm_compute; reflexivity|]. split; [vm_compute; reflexivity|].
    split; [vm_compute; reflexivity|]. split; [vm_compute; reflexivity|].
    vm_compute. discriminate.
  - split; [split; [reflexivity|split; [discriminate|split; [now right|reflexivity]]]|].
    split; [reflexivity|]. split; [reflexivity|].
    split; [vm_compute; reflexivity|]. vm_compute. discriminate.
Qed.

End Orchestrator.

(** ** The texts of a run *)

Section Texts.
Import AgentRun AgentText.

Lemma substring0_length (n : nat) (s : string) :
  String.length (Js.substring0 n s) = Nat.min n (String.length s).
Proof.
  revert s. induction n as [|n IH]; intros [|a s]; simpl; try reflexivity.
  now rewrite IH.
Qed.

Lemma slice_length (n : nat) (s : string) :
  String.length (Js.slice n s) = String.length s - n.
Proof.
  revert s. induction n as [|n IH]; intros [|a s]; simpl; try reflexivity.
  apply IH.
Qed.

Lemma substring0_slice (n : nat) (s : string) :
  Js.substring0 n s +:+ Js.slice n s = s.
Proof.
  revert s. induction n as [|n IH]; intros [|a s]; simpl; try reflexivity.
  now rewrite IH.
Qed.

Lemma substring0_all (n : nat) (s : string) :
  String.length s <= n -> Js.substring0 n s = s.
Proof.
  revert s. induction n as [|n IH]; intros [|a s]; simpl; try reflexivity.
  - lia.
  - intros H. rewrite IH by lia. reflexivity.
Qed.

Lemma substring0_prefix (n : nat) (s : string) :
  Js.startsWith s (Js.substring0 n s) = true.
Proof. apply startsWith_iff. exists (Js.slice n s). now rewrite substring0_slice. Qed.

(** X1: [truncate] returns the text itself when it fits, and otherwise
    a prefix of it followed by three dots; the result is never longer
    than [maxLen], unless [maxLen] is below three, when the dots alone
    are returned. *)
Theorem truncate_bounded (text : string) (maxLen : Z) :
  let r := truncate text maxLen in
  (Z.of_nat (String.length r) <= Z.max maxLen 3)%Z
  /\ ((Z.of_nat (String.length text) <= maxLen)%Z -> r = text)
  /\ ((maxLen < Z.of_nat (String.length text))%Z ->
      r = Js.substring0 (Z.to_nat (maxLen - 3)) text +:+ "..."
      /\ Js.startsWith text (Js.substring0 (Z.to_nat (maxLen - 3)) text) = true
      /\ (3 <= maxLen -> Z.of_nat (String.length r) = maxLen)%Z
      /\ (maxLen < 3 -> r = "..."%string)%Z).
Proof.
  intros r. unfold r, truncate.
  destruct (Z.leb_spec (Z.of_nat (String.length text)) maxLen) as [Hle|Hgt].
  - split; [lia|]. split; [reflexivity|lia].
  - rewrite length_append, substring0_length. simpl String.length.
    split; [lia|]. split; [lia|]. intros _.
    split; [reflexivity|]. split; [apply substring0_prefix|].
    split; [lia|].
    intros H. replace (Z.to_nat (maxLen - 3)) with 0 by lia.
    destruct text; reflexivity.
Qed.

(** *** Decimal numerals *)

Lemma pretty_char_digit (x : N) : Js.is_digit (pretty_N_char x) = true.
Proof.
  destruct x as [|p]; [reflexivity|].
  do 4 (destruct p as [p|p|]; try reflexivity).
Qed.

Lemma pretty_go_digits (x : N) :
  forall s, Js.allChars Js.is_digit (pretty_N_go x s) = Js.allChars Js.is_digit s.
Proof.
  induction (N.lt_wf_0 x) as [x _ IH]. intros s.
  destruct (N.eq_dec x 0%N) as [->|Hx]; [now rewrite pretty_N_go_0|].
  rewrite pretty_N_go_step by lia.
  rewrite IH by (apply N.div_lt; lia).
  simpl. now rewrite pretty_char_digit.
Qed.

Lemma pretty_go_length_ge (x : N) :
  forall s, String.length s <= String.length (pretty_N_go x s).
Proof.
  induction (N.lt_wf_0 x) as [x _ IH]. intros s.
  destruct (N.eq_dec x 0%N) as [->|Hx]; [now rewrite pretty_N_go_0|].
  rewrite pretty_N_go_step by lia.
  etransitivity; [|apply IH; apply N.div_lt; lia]. simpl. lia.
Qed.

Lemma pretty_go_length_upper (k : nat) :
  forall x s, (x < 10 ^ N.of_nat k)%N ->
              String.length (pretty_N_go x s) <= String.length s + k.
Proof.
  induction k as [|k IH]; intros x s Hx.
  - assert (x = 0%N) as -> by (simpl in Hx; lia). rewrite pretty_N_go_0. lia.
  - destruct (N.eq_dec x 0%N) as [->|Hx0]; [rewrite pretty_N_go_0; lia|].
    rewrite pretty_N_go_step by lia.
    etransitivity; [apply IH|simpl; lia].
    rewrite Nat2N.inj_succ, N.pow_succ_r' in Hx.
    apply N.Div0.div_lt_upper_bound. lia.
Qed.

Lemma pretty_go_length_lower (k : nat) :
  forall x s, (10 ^ N.of_nat k <= x)%N ->
              String.length s + k + 1 <= String.length (pretty_N_go x s).
Proof.
  induction k as [|k IH]; intros x s Hx.
  - simpl in Hx. rewrite pretty_N_go_step by lia.
    etransitivity; [|apply pretty_go_length_ge]. simpl. lia.
  - rewrite Nat2N.inj_succ, N.pow_succ_r' in Hx.
    assert (0 < 10 ^ N.of_nat k)%N by (apply N.neq_0_lt_0, N.pow_nonzero; lia).
    rewrite pretty_N_go_step by lia.
    etransitivity; [|apply IH]; [simpl; lia|].
    apply N.div_le_lower_bound; lia.
Qed.

(** A number of exactly [k] decimal digits prints as [k] digits. *)
Lemma pretty_N_digits (k : nat) (x : N) :
  (10 ^ N.of_nat k <= x < 10 ^ N.of_nat (S k))%N ->
  Transcript.digits (S k) (pretty x).
Proof.
  intros [Hlo Hhi].
  assert (0 < 10 ^ N.of_nat k)%N by (apply N.neq_0_lt_0, N.pow_nonzero; lia).
  unfold pretty, pretty_N. destruct (decide (x = 0%N)) as [->|_]; [lia|].
  split.
  - pose proof (pretty_go_length_upper (S k) x EmptyString Hhi).
    pose proof (pretty_go_length_lower k x EmptyString Hlo).
    simpl in *. lia.
  - now rewrite pretty_go_digits.
Qed.

Lemma pretty_N_length_upper (k : nat) (x : N) :
  (x < 10 ^ N.of_nat (S k))%N -> String.length (pretty x) <= S k.
Proof.
  intros Hx. unfold pretty, pretty_N.
  destruct (decide (x = 0%N)) as [->|_]; [simpl; lia|].
  apply (pretty_go_length_upper (S k) x EmptyString Hx).
Qed.

(** *** [splitForDiscord] *)

Lemma splitRounds_empty (fuel partNum : nat) :
  splitRounds fuel EmptyString partNum = [].
Proof. destruct fuel; reflexivity. Qed.

Lemma splitRounds_parts (fuel : nat) :
  forall remaining partNum,
    String.length remaining <= fuel -> 0 < String.length remaining ->
    exists chunks last,
      splitRounds fuel remaining partNum
      = imap (fun i chunk => chunk +:+ continued (partNum + i)) chunks ++ [last]
      /\ remaining = glue chunks +:+ last
      /\ Forall (fun chunk => String.length chunk = DISCORD_MAX_LENGTH - 50) chunks
      /\ 0 < String.length last <= DISCORD_MAX_LENGTH - 50.
Proof.
  induction fuel as [|fuel IH]; intros remaining partNum Hfuel Hpos; [lia|].
  cbn [splitRounds]. destruct (Nat.ltb_spec 0 (String.length remaining)); [|lia].
  set (n := DISCORD_MAX_LENGTH - 50) in *.
  pose proof (slice_length n remaining) as Hrest.
  pose proof (substring0_length n remaining) as Hchunk.
  pose proof (substring0_slice n remaining) as Hglue.
  destruct (Nat.ltb_spec 0 (String.length (Js.slice n remaining))) as [Hmore|Hdone].
  - destruct (IH (Js.slice n remaining) (S partNum)) as (chunks & last & Heq & Hrem & Hall & Hlast);
      [unfold n, DISCORD_MAX_LENGTH in *; lia | exact Hmore |].
    exists (Js.substring0 n remaining :: chunks), last.
    split; [|split; [|split]].
    + rewrite Heq. cbn [imap app]. rewrite Nat.add_0_r. f_equal. f_equal.
      apply imap_ext. intros i chunk _. simpl. now rewrite Nat.add_succ_r.
    + cbn [glue foldr]. rewrite append_assoc. fold (glue chunks).
      rewrite <- Hrem. now rewrite Hglue.
    + constructor; [lia | exact Hall].
    + exact Hlast.
  - exists [], remaining.
    assert (Hall : Js.substring0 n remaining = remaining)
      by (apply substring0_all; lia).
    assert (Hnil : Js.slice n remaining = EmptyString)
      by (destruct (Js.slice n remaining); [reflexivity | simpl in Hdone; lia]).
    rewrite Hnil, splitRounds_empty, Hall, append_nil_r.
    split; [reflexivity|]. split; [reflexivity|]. split; [constructor|lia].
Qed.

Lemma splitForDiscord_shape (text : string) :
  (String.length text <= DISCORD_MAX_LENGTH -> splitForDiscord text = [text])
  /\ (DISCORD_MAX_LENGTH < String.length text ->
      exists chunks last,
        splitForDiscord text = marked chunks last
        /\ text = glue chunks +:+ last
        /\ chunks <> []
        /\ Forall (fun chunk => String.length chunk = 1850) chunks
        /\ 0 < String.length last <= 1850).
Proof.
  unfold splitForDiscord.
  destruct (Nat.leb_spec (String.length text) DISCORD_MAX_LENGTH) as [Hle|Hgt].
  - split; [reflexivity|lia].
  - split; [lia|]. intros _.
    destruct (splitRounds_parts (String.length text) text 1) as
      (chunks & last & Heq & Hrem & Hall & Hlast); [lia|lia|].
    exists chunks, last. split; [exact Heq|]. split; [exact Hrem|].
    split; [|split; [exact Hall|exact Hlast]].
    intros ->. simpl in Hrem. subst last. unfold DISCORD_MAX_LENGTH in *. lia.
Qed.

(** X2: a text of at most 1900 characters is sent as it is.  A longer
    one is cut into chunks of 1850 characters, the last one shorter or
    equal; every chunk but the last carries the mark [(continued n...)]
    with its number, and the chunks put together are the text. *)
Theorem splitForDiscord_parts (text : string) :
  (String.length text <= DISCORD_MAX_LENGTH -> splitForDiscord text = [text])
  /\ (DISCORD_MAX_LENGTH < String.length text ->
      exists chunks last,
        splitForDiscord text = marked chunks last
        /\ text = glue chunks +:+ last
        /\ chunks <> []
        /\ Forall (fun chunk => String.length chunk = 1850) chunks
        /\ 0 < String.length last <= 1850).
Proof. exact (splitForDiscord_shape text). Qed.

Lemma glue_length (chunks : list string) (n : nat) :
  Forall (fun chunk => String.length chunk = n) chunks ->
  String.length (glue chunks) = n * length chunks.
Proof.
  induction 1 as [|c chunks Hc _ IH]; simpl; [lia|].
  rewrite length_append, Hc. fold (glue chunks). rewrite IH. lia.
Qed.

Lemma continued_length (partNum : nat) :
  String.length (continued partNum) = 18 + String.length (pretty partNum).
Proof.
  unfold continued. cbn [String.length String.append].
  rewrite length_append. simpl. lia.
Qed.

(** X3: no part of a split text is longer than 1900 characters, the
    marks included. *)
Theorem splitForDiscord_fits (text : string) :
  (Z.of_nat (String.length text) <= MAX_STRING_LENGTH)%Z ->
  Forall (fun part => String.length part <= DISCORD_MAX_LENGTH)
         (splitForDiscord text).
Proof.
  intros Hmax.
  destruct (splitForDiscord_shape text) as [Hshort Hlong].
  destruct (Nat.leb_spec (String.length text) DISCORD_MAX_LENGTH) as [Hle|Hgt].
  - rewrite Hshort by exact Hle. constructor; [exact Hle | constructor].
  - destruct (Hlong Hgt) as (chunks & last & -> & Hrem & _ & Hall & Hlast).
    unfold marked. apply Forall_app. split.
    + apply Forall_forall. intros part Hin.
      apply elem_of_lookup_imap in Hin as (i & chunk & -> & Hi).
      rewrite Forall_forall in Hall.
      rewrite length_append, continued_length.
      rewrite (Hall chunk) by (eapply list_elem_of_lookup_2; exact Hi).
      apply lookup_lt_Some in Hi.
      assert (Hlen : String.length text = 1850 * length chunks + String.length last).
      { rewrite Hrem at 1. rewrite length_append.
        rewrite (glue_length chunks 1850); [reflexivity|].
        apply Forall_forall. exact Hall. }
      assert (Hdigits : String.length (pretty (S i)) <= 13).
      { apply (pretty_N_length_upper 12). unfold MAX_STRING_LENGTH in Hmax.
        change (10 ^ N.of_nat 13)%N with 10000000000000%N. lia. }
      unfold DISCORD_MAX_LENGTH. lia.
    + constructor; [|constructor]. unfold DISCORD_MAX_LENGTH. lia.
Qed.

Lemma splitForDiscord_fits_witness :
  Forall (fun part => String.length part <= DISCORD_MAX_LENGTH)
         (splitForDiscord (string_of_list_ascii (repeat "a"%char 4000))).
Proof.
  apply splitForDiscord_fits. apply Z.leb_le. vm_compute. reflexivity.
Defined.

(** *** The header of a user message *)

Lemma pretty_Z_digits (k : nat) (x : Z) :
  (10 ^ Z.of_nat k <= x < 10 ^ Z.of_nat (S k))%Z ->
  Transcript.digits (S k) (pretty x).
Proof.
  intros [Hlo Hhi].
  assert (0 < 10 ^ Z.of_nat k)%Z by (apply Z.pow_pos_nonneg; lia).
  destruct x as [|p|p]; try lia.
  change (pretty (Z.pos p)) with (pretty (N.pos p)).
  apply pretty_N_digits. split.
  - apply N2Z.inj_le. rewrite N2Z.inj_pow, nat_N_Z. exact Hlo.
  - apply N2Z.inj_lt. rewrite N2Z.inj_pow, nat_N_Z. exact Hhi.
Qed.

Lemma pad_digits (n : Z) : (0 <= n < 100)%Z -> Transcript.digits 2 (pad n).
Proof.
  intros Hn. unfold pad.
  destruct (Z.eq_dec n 0%Z) as [->|Hn0]; [split; reflexivity|].
  destruct (Z_lt_le_dec n 10%Z) as [Hsmall|Hbig].
  - destruct (pretty_Z_digits 0 n) as [Hlen Hall]; [simpl; lia|].
    unfold padStart2. rewrite Hlen. split; simpl; [now rewrite Hlen | exact Hall].
  - destruct (pretty_Z_digits 1 n) as [Hlen Hall]; [simpl; lia|].
    unfold padStart2. rewrite Hlen. now split.
Qed.

Lemma nameOrUnknown_nonempty (userName : option string) :
  nameOrUnknown userName <> EmptyString.
Proof.
  unfold nameOrUnknown. destruct userName as [[|c n]|]; simpl; discriminate.
Qed.

Lemma includes_char_allChars (a : ascii) (s : string) :
  Js.includes_char a s = false ->
  Js.allChars (fun c => negb (Js.is_char a c)) s = true.
Proof.
  induction s as [|c s IH]; [reflexivity|].
  rewrite includes_char_cons. intros H.
  apply orb_false_iff in H. destruct H as [Hc Hs].
  simpl. now rewrite Hc, IH.
Qed.

(** The header written by [run] has the shape the trimming looks for. *)
Lemma headerOf_isHeader (now : LocalTime) (userName : option string) :
  (1000 <= fullYear now <= 9999)%Z -> calendar now ->
  Js.includes_char "]" (nameOrUnknown userName) = false ->
  Transcript.isHeader (headerOf now userName).
Proof.
  intros Hyear (Hmo & Hd & Hh & Hmi & Hs & Htz) Hname.
  unfold headerOf, timestampOf.
  set (offset := (- timezoneOffset now)%Z).
  assert (Hsign : exists sign : ascii,
             (if (0 <=? offset)%Z then "+" else "-")%string = String sign EmptyString
             /\ (sign = "+"%char \/ sign = "-"%char)).
  { destruct (0 <=? offset)%Z; eexists; split; try reflexivity; auto. }
  destruct Hsign as (sign & -> & Hsign).
  repeat rewrite append_assoc. cbn [String.append].
  apply (Transcript.header_intro
           (pretty (fullYear now)) (pad (month now + 1)) (pad (dayOfMonth now))
           (pad (hours now)) (pad (minutes now)) (pad (seconds now))
           (pad (Z.abs offset / 60)) (pad (Z.abs offset mod 60))
           (nameOrUnknown userName) sign).
  - apply (pretty_Z_digits 3). simpl. lia.
  - apply pad_digits. lia.
  - apply pad_digits. lia.
  - apply pad_digits. lia.
  - apply pad_digits. lia.
  - apply pad_digits. lia.
  - exact Hsign.
  - apply pad_digits. unfold offset.
    split; [apply Z.div_pos; lia | apply Z.div_lt_upper_bound; lia].
  - apply pad_digits. pose proof (Z.mod_pos_bound (Z.abs offset) 60). lia.
  - apply nameOrUnknown_nonempty.
  - now apply includes_char_allChars.
Qed.

(** X4: the header that [run] writes in front of the user's text is
    exactly what the trimming of the transcript strips off again: for
    a four-digit year and a name without a closing bracket, stripping
    the user message gives back the text (and the attachment block). *)
Theorem userMessage_header_stripped
    (now : LocalTime) (userName : option string) (text : string)
    (nonImagePaths : list string) :
  (1000 <= fullYear now <= 9999)%Z -> calendar now ->
  Js.includes_char "]" (nameOrUnknown userName) = false ->
  Transcript.stripHeader (userMessageOf now userName text nonImagePaths)
  = text +:+ attachmentsBlock nonImagePaths.
Proof.
  intros Hyear Hcal Hname. unfold userMessageOf.
  apply stripHeader_header. now apply headerOf_isHeader.
Qed.

Lemma userMessage_header_stripped_witness :
  Transcript.stripHeader
    (userMessageOf (mkLocalTime 2025 0 15 9 5 7 (-60)) (Some "mario"%string)
                   "hello there" ["/workspace/123/attachments/1_a.txt"%string])
  = ("hello there" +:+
     attachmentsBlock ["/workspace/123/attachments/1_a.txt"%string])%string.
Proof.
  apply userMessage_header_stripped.
  - simpl. lia.
  - unfold calendar. simpl. lia.
  - reflexivity.
Defined.

End Texts.

(** ** Configuring the guards *)

Section GuardConfig.
Import Guard Tools.

Lemma split_on_char_plain (a : ascii) (s : string) :
  Js.includes_char a s = false -> Js.split_on (Js.is_char a) s = [s].
Proof.
  induction s as [|c s IH]; [reflexivity|].
  rewrite includes_char_cons, split_on_cons.
  intros H. apply orb_false_iff in H. destruct H as [Hc Hs].
  now rewrite Hc, IH.
Qed.

Lemma split_on_char_append (a : ascii) (s t : string) :
  Js.includes_char a s = false ->
  Js.split_on (Js.is_char a) (s +:+ String a t)
  = s :: Js.split_on (Js.is_char a) t.
Proof.
  induction s as [|c s IH].
  - intros _. cbn [String.append]. rewrite split_on_cons.
    unfold Js.is_char at 1. now rewrite Ascii.eqb_refl.
  - rewrite includes_char_cons.
    intros H. apply orb_false_iff in H. destruct H as [Hc Hs].
    cbn [String.append]. rewrite split_on_cons, Hc, IH by exact Hs. reflexivity.
Qed.

Lemma split_on_char_join (a : ascii) (parts : list string) :
  parts <> [] ->
  Forall (fun part => Js.includes_char a part = false) parts ->
  Js.split_on (Js.is_char a) (Js.join (String a EmptyString) parts) = parts.
Proof.
  intros Hne Hall. induction Hall as [|part parts Hpart Hparts IH]; [contradiction|].
  destruct parts as [|part2 parts]; [now apply split_on_char_plain|].
  change (Js.join (String a EmptyString) (part :: part2 :: parts))
    with (part +:+ String a (Js.join (String a EmptyString) (part2 :: parts))).
  rewrite split_on_char_append by exact Hpart. f_equal. now apply IH.
Qed.

Lemma trimStart_cons (c : ascii) (s : string) :
  Js.trimStart (String c s) = if Js.is_ws c then Js.trimStart s else String c s.
Proof. reflexivity. Qed.

Lemma startsWith_cons (a b : ascii) (s p : string) :
  Js.startsWith (String b s) (String a p) = Ascii.eqb a b && Js.startsWith s p.
Proof. reflexivity. Qed.

Lemma parseToken_entry (e : Entry) (add remove : list string) :
  wellFormed e ->
  parseToken (add, remove) (render e)
  = (add ++ added [e], remove ++ removed [e]).
Proof.
  intros [_ Hwf]. unfold parseToken, Js.trim.
  destruct e as [name|name|name]; cbn [render String.append added removed omap].
  - rewrite trimStart_cons. change (Js.is_ws "+") with false. cbv iota.
    rewrite trimEnd_cons. change (Js.is_ws "+") with false. cbn [andb].
    rewrite Hwf. cbn. now rewrite app_nil_r.
  - rewrite trimStart_cons. change (Js.is_ws "-") with false. cbv iota.
    rewrite trimEnd_cons. change (Js.is_ws "-") with false. cbn [andb].
    rewrite Hwf. cbn. now rewrite app_nil_r.
  - destruct Hwf as (Hne & Htrim & Hplus & Hminus).
    unfold Js.trim in Htrim. rewrite Htrim, Hplus, Hminus.
    destruct name; [contradiction|]. cbn. now rewrite app_nil_r.
Qed.

Lemma added_cons (e : Entry) (entries : list Entry) :
  added (e :: entries) = added [e] ++ added entries.
Proof. unfold added. destruct e; reflexivity. Qed.

Lemma removed_cons (e : Entry) (entries : list Entry) :
  removed (e :: entries) = removed [e] ++ removed entries.
Proof. unfold removed. destruct e; reflexivity. Qed.

Lemma parseTokens_entries (entries : list Entry) :
  Forall wellFormed entries ->
  forall add remove,
    fold_left parseToken (map render entries) (add, remove)
    = (add ++ added entries, remove ++ removed entries).
Proof.
  induction 1 as [|e entries He _ IH]; intros add remove; cbn [map fold_left].
  - unfold added, removed. cbn [omap]. now rewrite !app_nil_r.
  - rewrite parseToken_entry by exact He. rewrite IH.
    rewrite (added_cons e entries), (removed_cons e entries).
    now rewrite <- !app_assoc.
Qed.

Lemma parse_rendered (entries : list Entry) :
  Forall wellFormed entries ->
  parseAllowedCommandsEnv (Js.join "," (map render entries))
  = (added entries, removed entries).
Proof.
  intros Hwf. unfold parseAllowedCommandsEnv.
  destruct entries as [|e entries]; [reflexivity|].
  rewrite split_on_char_join.
  - now rewrite parseTokens_entries.
  - discriminate.
  - apply Forall_map. eapply Forall_impl; [exact Hwf|]. now intros x [Hx _].
Qed.

(** X5: [parseAllowedCommandsEnv] reads back what was written: for
    entries [+name], [-name] and [name] joined with commas, the names
    to add are those of the [+] and the bare entries and the names to
    remove those of the [-] entries, each list in the order written. *)
Theorem parseAllowedCommandsEnv_roundtrip (entries : list Entry) :
  Forall wellFormed entries ->
  parseAllowedCommandsEnv (Js.join "," (map render entries))
  = (added entries, removed entries).
Proof. exact (parse_rendered entries). Qed.

Lemma parseAllowedCommandsEnv_roundtrip_witness :
  parseAllowedCommandsEnv
    (Js.join "," (map render [Plus "rustup"; Minus "ssh"; Bare "htop"; Minus "scp"]%string))
  = (["rustup"; "htop"], ["ssh"; "scp"])%string.
Proof.
  apply (parseAllowedCommandsEnv_roundtrip
           [Plus "rustup"; Minus "ssh"; Bare "htop"; Minus "scp"]%string).
  repeat constructor; try reflexivity; discriminate.
Defined.

(** *** The allow-list after [initCommandGuard] *)

Lemma fold_add_elem (cs : list string) (s : gset string) (cmd : string) :
  cmd ∈ fold_left (fun acc c => acc ∪ {[c]}) cs s <-> cmd ∈ s \/ cmd ∈ cs.
Proof.
  revert s. induction cs as [|c cs IH]; intros s; simpl.
  - rewrite elem_of_nil. tauto.
  - rewrite IH, elem_of_union, elem_of_singleton, elem_of_cons. tauto.
Qed.

Lemma fold_remove_elem (cs : list string) (s : gset string) (cmd : string) :
  cmd ∈ fold_left (fun acc c => acc ∖ {[c]}) cs s <-> cmd ∈ s /\ cmd ∉ cs.
Proof.
  revert s. induction cs as [|c cs IH]; intros s; simpl.
  - rewrite elem_of_nil. tauto.
  - rewrite IH, elem_of_difference, elem_of_singleton, not_elem_of_cons. tauto.
Qed.

Lemma initCommandGuard_elem (adds removes : option (list string)) (cmd : string) :
  cmd ∈ initCommandGuard adds removes
  <-> (cmd ∈ DEFAULT_ALLOWED_COMMANDS \/ cmd ∈ default [] adds)
      /\ cmd ∉ default [] removes.
Proof.
  unfold initCommandGuard.
  destruct adds as [adds|], removes as [removes|]; simpl;
    rewrite ?fold_remove_elem, ?fold_add_elem, ?elem_of_nil; tauto.
Qed.

(** X6: after [initCommandGuard(add, remove)] the allow-list holds the
    default commands and the added ones, except those removed; a
    command free of critical patterns is then allowed exactly when
    each of its programs is a shell builtin or on that list, so
    removing a builtin from the list changes nothing for it. *)
Theorem initCommandGuard_membership (adds removes : option (list string)) :
  let allowedCommands := initCommandGuard adds removes in
  (forall cmd,
      cmd ∈ allowedCommands
      <-> (cmd ∈ DEFAULT_ALLOWED_COMMANDS \/ cmd ∈ default [] adds)
          /\ cmd ∉ default [] removes)
  /\ (forall command,
         ~ matchesCritical command ->
         allowed (guardCommand allowedCommands command) = true
         <-> Forall (fun cmd =>
                       cmd ∈ SHELL_BUILTINS
                       \/ ((cmd ∈ DEFAULT_ALLOWED_COMMANDS \/ cmd ∈ default [] adds)
                           /\ cmd ∉ default [] removes))
                    (programs command)).
Proof.
  intros allowedCommands. split.
  - intros cmd. apply initCommandGuard_elem.
  - intros command Hno. rewrite guardCommand_no_critical by exact Hno.
    rewrite checkSegments_allowed_iff. unfold programs.
    apply Forall_proper; [|reflexivity]. intros cmd. unfold permitted.
    unfold allowedCommands. now rewrite initCommandGuard_elem.
Qed.

(** *** [createMomTools] *)

Lemma omap_filter_truthy (f : string -> option string) (l : list string) :
  f EmptyString = None ->
  omap f (filter (fun p => Js.truthy p = true) l) = omap f l.
Proof.
  intros Hf. induction l as [|p l IH]; [reflexivity|].
  rewrite filter_cons. destruct p as [|c p]; simpl.
  - now rewrite Hf.
  - fold (omap f l). fold (omap f (filter (fun p => Js.truthy p = true) l)).
    now rewrite IH.
Qed.

(** X7: with a workspace directory [createMomTools] binds the attach
    tool to it, allows the directory, [/tmp] and the non-blank entries
    of [MOTHER_ALLOWED_PATHS], and sets the allow-list to the defaults
    changed as [MOTHER_ALLOWED_COMMANDS] says; without one it leaves
    the guards as they are and hands out the unguarded attach tool. *)
Theorem createMomTools_configures (g : Guards) (env : ProcessEnv) (dir : string) :
  Js.truthy dir = true ->
  let g' := createMomTools g env (Some dir) in
  attachWorkspaceDir g' = Some dir
  /\ allowedPrefixes g'
     = NodePath.normalize dir :: "/tmp"%string
         :: omap (fun p => if Js.truthy (Js.trim p)
                           then Some (NodePath.normalize (Js.trim p)) else None)
                 (default [] (Js.split_on (Js.is_char ":")
                                <$> MOTHER_ALLOWED_PATHS env))
  /\ (forall entries,
         Forall wellFormed entries ->
         MOTHER_ALLOWED_COMMANDS env = Some (Js.join "," (map render entries)) ->
         forall cmd,
           cmd ∈ allowedCommands g'
           <-> (cmd ∈ DEFAULT_ALLOWED_COMMANDS \/ cmd ∈ added entries)
               /\ cmd ∉ removed entries)
  /\ (MOTHER_ALLOWED_COMMANDS env = None ->
      allowedCommands g' = DEFAULT_ALLOWED_COMMANDS)
  /\ createMomTools g env None
     = mkGuards (allowedPrefixes g) (allowedCommands g) None.
Proof.
  intros Hdir g'. unfold g', createMomTools. rewrite Hdir. cbn [attachWorkspaceDir
    allowedPrefixes allowedCommands].
  split; [reflexivity|]. split; [|split; [|split; [|reflexivity]]].
  - unfold initPathGuard.
    destruct (MOTHER_ALLOWED_PATHS env) as [v|]; simpl; [|reflexivity].
    rewrite initPathGuard_extras. simpl. do 2 f_equal.
    now apply omap_filter_truthy.
  - intros entries Hwf -> cmd.
    destruct (Js.truthy (Js.join "," (map render entries))) eqn:Ev.
    + rewrite parse_rendered by exact Hwf. now rewrite initCommandGuard_elem.
    + apply truthy_false in Ev.
      assert (Hnil : entries = []).
      { destruct entries as [|e entries]; [reflexivity|]. exfalso.
        apply Forall_cons in Hwf. destruct Hwf as [[_ He] _].
        destruct e as [name|name|[|c name]], entries; simpl in Ev;
          try discriminate Ev; now destruct He. }
      subst entries. rewrite initCommandGuard_elem. simpl.
      rewrite !elem_of_nil. tauto.
  - intros ->. reflexivity.
Qed.

Lemma createMomTools_configures_witness :
  let g' := createMomTools unconfigured
              (mkEnv (Some "/opt/data::/srv/files"%string) (Some "-ssh,+rustup"%string))
              (Some "/home/mother/workspace"%string) in
  allowedPrefixes g'
  = ["/home/mother/workspace"; "/tmp"; "/opt/data"; "/srv/files"]%string
  /\ "rustup"%string ∈ allowedCommands g'
  /\ "ssh"%string ∉ allowedCommands g'.
Proof.
  intros g'.
  destruct (createMomTools_configures unconfigured
              (mkEnv (Some "/opt/data::/srv/files"%string) (Some "-ssh,+rustup"%string))
              "/home/mother/workspace" eq_refl)
    as (_ & Hpaths & Hcmds & _).
  split; [exact Hpaths|].
  pose proof (Hcmds [Minus "ssh"; Plus "rustup"]%string) as H.
  split.
  - apply H; [repeat constructor | reflexivity |].
    split; [right; constructor|].
    intros Hin. apply elem_of_cons in Hin as [Hin|Hin];
      [discriminate | now apply elem_of_nil in Hin].
  - intros Hin. apply H in Hin; [|repeat constructor | reflexivity].
    destruct Hin as [_ Hno]. apply Hno. constructor.
Defined.

End GuardConfig.

(** ** The attach tool *)

Section Attach.
Import Guard Tools.

Lemma normalizeSegments_through (segs : list string) :
  Forall NodePath.plainSegment segs ->
  forall acc rest,
    NodePath.normalizeSegments false (segs ++ rest) acc
    = NodePath.normalizeSegments false rest (rev segs ++ acc).
Proof.
  induction 1 as [|seg segs [H1 [H2 [H3 _]]] _ IH]; intros acc rest; [reflexivity|].
  cbn [app NodePath.normalizeSegments].
  rewrite !string_eqb_false by assumption. cbn [orb].
  rewrite IH. cbn [rev]. now rewrite <- app_assoc.
Qed.

Lemma join_snoc (segs : list string) (x : string) :
  segs <> [] ->
  Js.join "/" (segs ++ [x]) = Js.join "/" segs +:+ "/" +:+ x.
Proof.
  induction segs as [|seg segs IH]; intros Hne; [contradiction|].
  destruct segs as [|seg2 segs]; [reflexivity|].
  change (Js.join "/" ((seg :: seg2 :: segs) ++ [x]))
    with (seg +:+ "/" +:+ Js.join "/" ((seg2 :: segs) ++ [x])).
  rewrite IH by discriminate.
  change (Js.join "/" (seg :: seg2 :: segs))
    with (seg +:+ "/" +:+ Js.join "/" (seg2 :: segs)).
  now rewrite !append_assoc.
Qed.

(** Resolving a collapsed path gives the path itself, wherever the
    process is. *)
Lemma resolve_of_collapsed (processCwd path : string) :
  NodePath.collapsed path -> NodePath.resolve processCwd [path] = path.
Proof.
  intros [segs [-> Hsegs]]. unfold NodePath.resolve.
  cbn [rev app NodePath.resolveLoop String.append Js.isEmpty NodePath.isAbsolute negb].
  unfold NodePath.normalizeString. f_equal.
  destruct segs as [|seg segs]; [reflexivity|].
  rewrite split_on_cons. change (Js.is_char "/" "/") with true. cbv iota.
  replace (Js.join "/" (seg :: segs) +:+ "/")
    with (Js.join "/" ((seg :: segs) ++ [EmptyString]))
    by (rewrite join_snoc by discriminate; reflexivity).
  rewrite (split_on_char_join "/").
  - change (NodePath.normalizeSegments false
              (EmptyString :: (seg :: segs) ++ [EmptyString]) [])
      with (NodePath.normalizeSegments false ((seg :: segs) ++ [EmptyString]) []).
    rewrite normalizeSegments_through by exact Hsegs.
    cbn [NodePath.normalizeSegments String.eqb orb].
    now rewrite app_nil_r, rev_involutive.
  - destruct segs; discriminate.
  - apply Forall_app. split; [|now repeat constructor].
    eapply Forall_impl; [exact Hsegs|]. now intros x (_ & _ & _ & Hx).
Qed.

Lemma guardPath_checked (prefixes : list string) (processCwd path dir : string) :
  prefixes <> [] ->
  let resolved := NodePath.normalize (NodePath.resolve processCwd [dir; path]) in
  (within prefixes resolved
   /\ guardPath prefixes processCwd path dir = mkGuardResult true None (Some resolved))
  \/ (~ within prefixes resolved
      /\ guardPath prefixes processCwd path dir
         = mkGuardResult false (Some (deniedPathReason path resolved)) None).
Proof.
  intros Hne resolved. unfold guardPath.
  destruct prefixes as [|p0 prefixes]; [contradiction|].
  cbn [length Nat.eqb]. fold resolved.
  destruct (find (prefixAllows resolved) (p0 :: prefixes)) as [p|] eqn:E.
  - left. split; [|reflexivity].
    destruct (proj1 (find_some_iff _ _) (ex_intro _ p E)) as [x [Hin Hx]].
    exists x. split; [exact Hin|]. now apply prefixAllows_iff.
  - right. split; [|reflexivity].
    intros [x [Hin Hx]]. apply prefixAllows_iff in Hx.
    destruct (proj2 (find_some_iff (prefixAllows resolved) (p0 :: prefixes))
                (ex_intro _ x (conj Hin Hx))) as [y Hy].
    congruence.
Qed.

(** X8: once the guards are configured for a workspace, the attach
    tool uploads a file only from inside the allowed directories: the
    path it hands to the upload function is the resolved path the
    guard accepted, and a path outside makes it throw the guard's
    reason without uploading.  A missing upload function and an
    aborted signal are reported first. *)
Theorem attach_guarded (g : Guards) (processCwd : string) (dir path : string)
    (title : option string) :
  NodePath.isAbsolute processCwd = true ->
  attachWorkspaceDir g = Some dir -> Js.truthy dir = true ->
  allowedPrefixes g <> [] ->
  let resolved := NodePath.normalize (NodePath.resolve processCwd [dir; path]) in
  match attachExecute g processCwd true false path title with
  | Uploaded absolutePath fileName text =>
      absolutePath = resolved
      /\ within (allowedPrefixes g) absolutePath
      /\ fileName = fileNameOf title resolved
      /\ text = "Attached file: " +:+ fileName
  | Threw why =>
      why = deniedPathReason path resolved
      /\ ~ within (allowedPrefixes g) resolved
  end
  /\ (forall aborted,
        attachExecute g processCwd false aborted path title
        = Threw "Upload function not configured")
  /\ attachExecute g processCwd true true path title = Threw "Operation aborted".
Proof.
  intros Hcwd Hdir Htruthy Hne resolved.
  split; [|split; [intros aborted; reflexivity | reflexivity]].
  unfold attachExecute. cbn [negb]. rewrite Hdir, Htruthy.
  destruct (guardPath_checked (allowedPrefixes g) processCwd path dir Hne)
    as [[Hin ->]|[Hout ->]]; cbn [allowed resolvedPath reason default].
  - fold resolved.
    assert (Hc : NodePath.collapsed resolved).
    { unfold resolved.
      pose proof (resolve_collapsed processCwd [dir; path] Hcwd) as Hc.
      now rewrite (normalize_collapsed _ Hc). }
    unfold id. rewrite (resolve_of_collapsed processCwd resolved Hc).
    now repeat split.
  - fold resolved. unfold id. now split.
Qed.

Lemma attach_guarded_witness :
  attachExecute
    (createMomTools unconfigured (mkEnv None None) (Some "/home/mother/workspace"%string))
    "/" true false "notes/../../../etc/passwd" None
  = Threw "Path denied: notes/../../../etc/passwd (resolved: /home/etc/passwd) is outside allowed directories"
  /\ attachExecute
       (createMomTools unconfigured (mkEnv None None) (Some "/home/mother/workspace"%string))
       "/" true false "scratch/./out.png" None
     = Uploaded "/home/mother/workspace/scratch/out.png" "out.png"
                "Attached file: out.png".
Proof.
  pose proof (attach_guarded
                (createMomTools unconfigured (mkEnv None None)
                                (Some "/home/mother/workspace"%string))
                "/" "/home/mother/workspace" "notes/../../../etc/passwd" None
                eq_refl eq_refl eq_refl) as H.
  split; [|reflexivity].
  destruct H as [H _]; [discriminate|].
  destruct (attachExecute _ _ _ _ _ _) as [why|p f t] eqn:E.
  - destruct H as [-> _]. reflexivity.
  - vm_compute in E. discriminate E.
Defined.

End Attach.

(** ** Attachments *)

Section Attachments.
Import Env ChannelStore.

Lemma sanitizeChar_safe (c : ascii) :
  Js.is_char "/" (sanitizeChar c) = false.
Proof.
  unfold sanitizeChar.
  destruct (Js.is_alpha c || Js.is_digit c || Js.is_char "." c
            || Js.is_char "_" c || Js.is_char "-" c) eqn:E; [|reflexivity].
  destruct (Js.is_char "/" c) eqn:Es; [|reflexivity].
  apply Ascii.eqb_eq in Es. subst c. discriminate E.
Qed.

Lemma sanitize_no_slash (name : string) :
  Js.includes_char "/" (sanitize name) = false.
Proof.
  induction name as [|c name IH]; [reflexivity|].
  cbn [sanitize]. rewrite includes_char_cons, IH.
  fold (Js.is_char "/" (sanitizeChar c)). now rewrite sanitizeChar_safe.
Qed.

(** The local file name is one path segment, whatever the uploader
    called the file. *)
Lemma generateLocalFilename_plain (name timestamp : string) :
  Js.includes_char "/" timestamp = false ->
  NodePath.plainSegment (generateLocalFilename name timestamp).
Proof.
  intros Hts. unfold generateLocalFilename.
  assert (Hus : Js.includes_char "_" (timestamp +:+ "_" +:+ sanitize name) = true).
  { rewrite includes_char_app. apply orb_true_iff. right. reflexivity. }
  repeat split.
  - intros E. rewrite E in Hus. discriminate.
  - intros E. rewrite E in Hus. discriminate.
  - intros E. rewrite E in Hus. discriminate.
  - rewrite includes_char_app, Hts. cbn [String.append orb].
    rewrite includes_char_cons. change (Js.is_char "/" "_") with false.
    apply sanitize_no_slash.
Qed.

Lemma present_Some (o : option string) (s : string) :
  present o = Some s -> o = Some s.
Proof.
  destruct o as [x|]; [|discriminate]. simpl.
  destruct (Js.truthy x); [congruence|discriminate].
Qed.

Lemma attachmentsOf_local (channelId : string) (files : list FileRef)
    (timestamp : string) :
  Forall (fun found =>
            local (fst found)
            = channelId +:+ "/attachments/"
                +:+ generateLocalFilename (original (fst found)) timestamp
            /\ pd_localPath (snd found) = local (fst found)
            /\ pd_channelId (snd found) = channelId
            /\ exists file, file ∈ files
                 /\ f_name file = Some (original (fst found))
                 /\ f_url file = Some (pd_url (snd found)))
         (attachmentsOf channelId files timestamp).
Proof.
  induction files as [|file files IH]; [constructor|].
  assert (IH' : Forall (fun found =>
            local (fst found)
            = channelId +:+ "/attachments/"
                +:+ generateLocalFilename (original (fst found)) timestamp
            /\ pd_localPath (snd found) = local (fst found)
            /\ pd_channelId (snd found) = channelId
            /\ exists f, f ∈ file :: files
                 /\ f_name f = Some (original (fst found))
                 /\ f_url f = Some (pd_url (snd found)))
         (attachmentsOf channelId files timestamp)).
  { eapply Forall_impl; [exact IH|].
    intros found (H1 & H2 & H3 & f & Hin & Hn & Hu).
    repeat split; try assumption. exists f. split; [now right|now split]. }
  cbn [attachmentsOf].
  destruct (present (f_url file)) as [url|] eqn:Eu; [|exact IH'].
  destruct (present (f_name file)) as [name|] eqn:En; [|exact IH'].
  apply present_Some in Eu, En.
  constructor; [|exact IH']. cbn [fst snd local original pd_localPath pd_channelId pd_url].
  repeat split. exists file. split; [now left|now split].
Qed.

(** The trigger of the queue touches neither the directory nor the
    record of what was logged. *)
Lemma processAttachments_keeps (s : Store) (channelId : string)
    (files : list FileRef) (timestamp : string) :
  workingDir (snd (processAttachments s channelId files timestamp)) = workingDir s
  /\ recentlyLogged (snd (processAttachments s channelId files timestamp))
     = recentlyLogged s.
Proof.
  unfold processAttachments, queueAttachments, processDownloadQueue.
  cbn [fst snd pendingDownloads isDownloading].
  destruct (isDownloading s || _); [now split|].
  now destruct (pendingDownloads s ++ _).
Qed.

(** X9: [processAttachments] queues one download for every attachment
    it returns, in the same order and behind the downloads already
    waiting, and then triggers the download queue.  On a store that
    is downloading, all of them wait.  On an idle store the first
    download of the queue is started: it is taken off the queue and
    the store is downloading; the others wait.  An attachment stands
    for a file that has a name and a url; its local path is the
    channel's [attachments] directory followed by a single path
    segment made of the timestamp and the sanitized name, so a name
    cannot lead out of that directory. *)
Theorem processAttachments_local_paths (s : Store) (channelId : string)
    (files : list FileRef) (timestamp : string) :
  Js.includes_char "/" timestamp = false ->
  let attachments := fst (processAttachments s channelId files timestamp) in
  let s' := snd (processAttachments s channelId files timestamp) in
  let loop := queueAttachments s channelId files timestamp in
  exists queued,
    map pd_localPath queued = map local attachments
    /\ fst loop = attachments
    /\ pendingDownloads (snd loop) = pendingDownloads s ++ queued
    /\ (isDownloading s = true ->
        pendingDownloads s' = pendingDownloads s ++ queued
        /\ isDownloading s' = true
        /\ snd (processDownloadQueue (snd loop)) = None)
    /\ (isDownloading s = false ->
        match pendingDownloads s ++ queued with
        | started :: waiting =>
            pendingDownloads s' = waiting
            /\ isDownloading s' = true
            /\ snd (processDownloadQueue (snd loop)) = Some started
        | [] =>
            pendingDownloads s' = []
            /\ isDownloading s' = false
            /\ snd (processDownloadQueue (snd loop)) = None
        end)
    /\ Forall (fun a =>
                 exists segment,
                   local a = channelId +:+ "/attachments/" +:+ segment
                   /\ segment = timestamp +:+ "_" +:+ sanitize (original a)
                   /\ NodePath.plainSegment segment
                   /\ exists file, file ∈ files /\ f_name file = Some (original a)
                                   /\ is_Some (f_url file))
              attachments.
Proof.
  intros Hts attachments s' loop. unfold attachments, s', loop, processAttachments.
  unfold queueAttachments, processDownloadQueue.
  cbn [fst snd pendingDownloads isDownloading].
  pose proof (attachmentsOf_local channelId files timestamp) as Hall.
  exists (map snd (attachmentsOf channelId files timestamp)).
  split; [|split; [reflexivity|split; [reflexivity|split; [|split]]]].
  - rewrite !map_map. apply map_ext_Forall.
    eapply Forall_impl; [exact Hall|]. now intros found (_ & H & _).
  - intros Hbusy. rewrite Hbusy. cbn [orb fst snd pendingDownloads isDownloading].
    repeat split.
  - intros Hidle. rewrite Hidle. cbn [orb].
    destruct (pendingDownloads s ++ map snd (attachmentsOf channelId files timestamp))
      as [|started waiting]; cbn [length Nat.eqb fst snd pendingDownloads isDownloading].
    + repeat split.
    + repeat split.
  - apply Forall_map. eapply Forall_impl; [exact Hall|].
    intros found (H1 & _ & _ & file & Hin & Hn & Hu).
    exists (generateLocalFilename (original (fst found)) timestamp).
    split; [exact H1|]. split; [reflexivity|].
    split; [now apply generateLocalFilename_plain|].
    exists file. split; [exact Hin|]. split; [exact Hn|]. now rewrite Hu.
Qed.

Lemma processAttachments_local_paths_witness :
  let files :=
    [mkFileRef (Some "../../etc/passwd"%string) (Some "https://cdn/x"%string);
     mkFileRef None (Some "https://cdn/y"%string);
     mkFileRef (Some "a b.png"%string) (Some "https://cdn/z"%string)] in
  let r := processAttachments (create "/data") "42" files "1234" in
  fst r
  = [mkAttachment "../../etc/passwd" "42/attachments/1234_.._.._etc_passwd";
     mkAttachment "a b.png" "42/attachments/1234_a_b.png"]
  /\ pendingDownloads (snd r)
     = [mkPending "42" "42/attachments/1234_a_b.png" "https://cdn/z"]
  /\ isDownloading (snd r) = true
  /\ snd (processDownloadQueue (snd (queueAttachments (create "/data") "42" files "1234")))
     = Some (mkPending "42" "42/attachments/1234_.._.._etc_passwd" "https://cdn/x")
  /\ exists queued,
       map pd_localPath queued = map local (fst r) /\ length queued = 2.
Proof.
  intros files r.
  split; [reflexivity|]. split; [reflexivity|]. split; [reflexivity|].
  split; [reflexivity|].
  destruct (processAttachments_local_paths (create "/data") "42" files "1234" eq_refl)
    as (queued & Hmap & _).
  exists queued. split; [exact Hmap|].
  apply (f_equal (@length string)) in Hmap. rewrite !length_map in Hmap.
  exact Hmap.
Defined.

End Attachments.

(** ** Reading the log back *)

Section LogReads.
Import Env ChannelStore StoreReads.

Lemma join_app (segs xs : list string) :
  segs <> [] -> xs <> [] ->
  Js.join "/" (segs ++ xs) = Js.join "/" segs +:+ "/" +:+ Js.join "/" xs.
Proof.
  induction segs as [|seg segs IH]; intros Hne Hxs; [contradiction|].
  destruct segs as [|seg2 segs].
  - destruct xs as [|x xs]; [contradiction|]. reflexivity.
  - change (Js.join "/" ((seg :: seg2 :: segs) ++ xs))
      with (seg +:+ "/" +:+ Js.join "/" ((seg2 :: segs) ++ xs)).
    rewrite IH by (discriminate || assumption).
    change (Js.join "/" (seg :: seg2 :: segs))
      with (seg +:+ "/" +:+ Js.join "/" (seg2 :: segs)).
    now rewrite !append_assoc.
Qed.

Lemma filter_truthy_all (l : list string) :
  Forall (fun a => a <> EmptyString) l ->
  filter (fun a => Js.truthy a = true) l = l.
Proof.
  induction 1 as [|a l Ha _ IH]; [reflexivity|].
  rewrite filter_cons, IH. destruct a; [contradiction|reflexivity].
Qed.

Lemma plainSegment_nonempty (l : list string) :
  Forall NodePath.plainSegment l -> Forall (fun a => a <> EmptyString) l.
Proof. intros H. eapply Forall_impl; [exact H|]. now intros a [Ha _]. Qed.

Lemma normalize_double_slash (xs : list string) :
  Forall NodePath.plainSegment xs -> xs <> [] ->
  NodePath.normalize ("/" +:+ "/" +:+ Js.join "/" xs) = "/" +:+ Js.join "/" xs.
Proof.
  intros Hxs Hne.
  destruct (join_plain xs Hxs Hne) as [Hnonempty Hend].
  unfold NodePath.normalize, NodePath.normalizeString.
  cbn [String.append Js.isEmpty NodePath.isAbsolute negb].
  rewrite !split_on_cons. change (Js.is_char "/" "/") with true. cbv iota.
  rewrite split_join by assumption.
  assert (He : NodePath.endsWithSlash (String "/" (String "/" (Js.join "/" xs))) = false).
  { rewrite !endsWithSlash_cons.
    destruct (Js.join "/" xs); [contradiction|exact Hend]. }
  rewrite He.
  change (NodePath.normalizeSegments false (EmptyString :: EmptyString :: xs) [])
    with (NodePath.normalizeSegments false xs []).
  rewrite (normalizeSegments_id xs Hxs []). cbn [rev app].
  destruct (Js.join "/" xs); [contradiction|reflexivity].
Qed.

(** Joining plain segments onto a collapsed path appends them. *)
Lemma pathJoin_collapsed (segs xs : list string) :
  Forall NodePath.plainSegment segs -> Forall NodePath.plainSegment xs ->
  xs <> [] ->
  pathJoin (("/" +:+ Js.join "/" segs) :: xs) = "/" +:+ Js.join "/" (segs ++ xs).
Proof.
  intros Hsegs Hxs Hne. unfold pathJoin.
  rewrite filter_truthy_all.
  2:{ constructor; [discriminate|now apply plainSegment_nonempty]. }
  destruct xs as [|x xs]; [contradiction|].
  change (Js.join "/" (("/" +:+ Js.join "/" segs) :: x :: xs))
    with (("/" +:+ Js.join "/" segs) +:+ "/" +:+ Js.join "/" (x :: xs)).
  destruct segs as [|seg segs].
  - exact (normalize_double_slash (x :: xs) Hxs Hne).
  - rewrite append_assoc, <- join_app by discriminate.
    apply normalize_collapsed. exists ((seg :: segs) ++ x :: xs).
    split; [reflexivity|]. now apply Forall_app.
Qed.

Lemma logPath_collapsed (segs : list string) (channelId : string) :
  Forall NodePath.plainSegment segs -> NodePath.plainSegment channelId ->
  logPath ("/" +:+ Js.join "/" segs) channelId
  = "/" +:+ Js.join "/" (segs ++ [channelId; "log.jsonl"%string])
  /\ pathJoin ["/" +:+ Js.join "/" segs; channelId; "log.jsonl"%string]
     = "/" +:+ Js.join "/" (segs ++ [channelId; "log.jsonl"%string]).
Proof.
  intros Hsegs Hch.
  assert (Hlog : NodePath.plainSegment "log.jsonl")
    by (repeat split; discriminate).
  split.
  - unfold logPath.
    rewrite (pathJoin_collapsed segs [channelId]) by (auto; discriminate).
    rewrite (pathJoin_collapsed (segs ++ [channelId]) ["log.jsonl"%string]);
      [now rewrite <- app_assoc | apply Forall_app; auto | auto | discriminate].
  - apply pathJoin_collapsed; [assumption| |discriminate]. auto.
Qed.

Lemma join_inj (xs ys : list string) :
  Forall NodePath.plainSegment xs -> Forall NodePath.plainSegment ys ->
  xs <> [] -> ys <> [] ->
  Js.join "/" xs = Js.join "/" ys -> xs = ys.
Proof.
  intros Hxs Hys Hx Hy E.
  rewrite <- (split_join xs Hxs Hx), <- (split_join ys Hys Hy). now rewrite E.
Qed.

Lemma getLastTimestamp_path (s : Store) (fs : FS) (channelId : string) :
  NodePath.collapsed (workingDir s) -> NodePath.plainSegment channelId ->
  getLastTimestamp s fs channelId
  = ts <$> last (readLines fs (logPath (workingDir s) channelId)).
Proof.
  intros [segs [Hwd Hsegs]] Hch. unfold getLastTimestamp, readLines.
  destruct (logPath_collapsed segs channelId Hsegs Hch) as [H1 H2].
  rewrite Hwd, H1, H2.
  now destruct (fs !! _).
Qed.

Lemma logPath_inj (workingDir a b : string) :
  NodePath.collapsed workingDir ->
  NodePath.plainSegment a -> NodePath.plainSegment b ->
  logPath workingDir a = logPath workingDir b -> a = b.
Proof.
  intros [segs [-> Hsegs]] Ha Hb E.
  assert (Hlog : NodePath.plainSegment "log.jsonl")
    by (repeat split; discriminate).
  rewrite (proj1 (logPath_collapsed segs a Hsegs Ha)) in E.
  rewrite (proj1 (logPath_collapsed segs b Hsegs Hb)) in E.
  injection E as E.
  apply join_inj in E.
  - apply app_inv_head in E. now injection E.
  - apply Forall_app; auto.
  - apply Forall_app; auto.
  - destruct segs; discriminate.
  - destruct segs; discriminate.
Qed.

Lemma last_snoc_ts (lines : list LoggedMessage) (line : LoggedMessage) :
  ts <$> last (lines ++ [line]) = Some (ts line).
Proof. now rewrite last_snoc. Qed.

(** X10: [getLastTimestamp] reads back what [logMessage] wrote: after a
    message was written the last timestamp of its channel is that of
    the message; a refused duplicate changes nothing; the other
    channels keep theirs; a channel without a log has none. *)
Theorem getLastTimestamp_logged (w : World) (channelId : string)
    (message : LoggedMessage) :
  NodePath.collapsed (workingDir (store w)) ->
  NodePath.plainSegment channelId ->
  let ok := fst (logMessage w channelId message) in
  let w' := snd (logMessage w channelId message) in
  (ok = true ->
   getLastTimestamp (store w') (fs w') channelId = Some (ts message))
  /\ (ok = false ->
      getLastTimestamp (store w') (fs w') channelId
      = getLastTimestamp (store w) (fs w) channelId)
  /\ (forall other,
        NodePath.plainSegment other -> other <> channelId ->
        getLastTimestamp (store w') (fs w') other
        = getLastTimestamp (store w) (fs w) other)
  /\ getLastTimestamp (create (workingDir (store w))) ∅ channelId = None.
Proof.
  intros Hwd Hch ok w'.
  assert (Hwd' : workingDir (store w') = workingDir (store w)).
  { unfold w', logMessage. now destruct (recentlyLogged (store w) !! _). }
  assert (Hc' : NodePath.collapsed (workingDir (store w'))) by now rewrite Hwd'.
  split; [|split; [|split]].
  - intros Hok. rewrite getLastTimestamp_path by assumption.
    unfold ok, w', logMessage in *.
    destruct (recentlyLogged (store w) !! _); [discriminate Hok|].
    cbn [snd fs store workingDir]. unfold appendLine, readLines.
    rewrite lookup_insert_eq. cbn [default from_option id].
    rewrite last_snoc_ts. unfold withDate. now destruct (date message).
  - intros Hok. unfold ok, w', logMessage in *.
    destruct (recentlyLogged (store w) !! _); [reflexivity|discriminate Hok].
  - intros other Hother Hneq.
    rewrite !getLastTimestamp_path by assumption. rewrite Hwd'.
    unfold w', logMessage.
    destruct (recentlyLogged (store w) !! _); [reflexivity|].
    cbn [snd fs store workingDir]. unfold appendLine, readLines at 1.
    rewrite lookup_insert_ne; [reflexivity|].
    intros E. apply Hneq. symmetry.
    exact (logPath_inj (workingDir (store w)) channelId other Hwd Hch Hother E).
  - rewrite getLastTimestamp_path by assumption.
    unfold readLines. now rewrite lookup_empty.
Qed.

Lemma getLastTimestamp_logged_witness :
  let w := start "/data/mother" 1000 in
  let m := mkLogged None "1234" "u1" (Some "mario"%string) None "hi" [] false in
  getLastTimestamp (store (snd (logMessage w "42" m)))
                   (fs (snd (logMessage w "42" m))) "42"
  = Some "1234"%string.
Proof.
  intros w m.
  apply (getLastTimestamp_logged w "42" m).
  - exists ["data"; "mother"]%string. split; [reflexivity|].
    repeat constructor; discriminate.
  - repeat split; discriminate.
  - reflexivity.
Defined.

End LogReads.

(** ** What the bot logs *)

Section BotLog.
Import Env ChannelStore StoreReads Discord Bot.

Lemma getLastTimestamp_logToFile (s : Store) (w : Discord.World)
    (channel : string) (entry : LoggedMessage) :
  NodePath.collapsed (Discord.workingDir w) ->
  ChannelStore.workingDir s = Discord.workingDir w ->
  NodePath.plainSegment channel ->
  getLastTimestamp s (Discord.fs (logToFile w channel entry)) channel
  = Some (ts entry).
Proof.
  intros Hc Hs Hch.
  rewrite getLastTimestamp_path by (try rewrite Hs; assumption).
  rewrite Hs. unfold logToFile. cbn [Discord.fs]. unfold appendLine, readLines.
  rewrite lookup_insert_eq. cbn [default from_option id]. apply last_snoc_ts.
Qed.

(** X11: the store reads back what the bot logs with [logToFile]: after
    a user message was logged, the last timestamp of its channel is
    the identifier of the message, and after a bot response it is the
    identifier the response was logged under. *)
Theorem logged_message_read_back (b : Bot) (event : DiscordEvent)
    (text ts : string) :
  NodePath.collapsed (Discord.workingDir (world b)) ->
  ChannelStore.workingDir (Bot.store b) = Discord.workingDir (world b) ->
  NodePath.plainSegment (e_channel event) ->
  let b' := snd (logUserMessage b event) in
  getLastTimestamp (Bot.store b') (Discord.fs (world b')) (e_channel event)
  = Some (pretty (e_ts event))
  /\ getLastTimestamp (Bot.store b)
       (Discord.fs (Discord.logBotResponse (world b) (e_channel event) text ts))
       (e_channel event)
     = Some ts.
Proof.
  intros Hc Hs Hch b'. split.
  - unfold b', logUserMessage.
    destruct (e_files event) as [files|]; cbn [snd world Bot.store].
    + destruct (processAttachments (Bot.store b) (e_channel event) files
                  (pretty (e_ts event))) as [atts st] eqn:E.
      cbn [snd world Bot.store].
      rewrite getLastTimestamp_logToFile; [reflexivity|assumption| |assumption].
      pose proof (processAttachments_keeps (Bot.store b) (e_channel event) files
                    (pretty (e_ts event))) as [Hk _].
      rewrite E in Hk. cbn [snd] in Hk. rewrite Hk. exact Hs.
    + now rewrite getLastTimestamp_logToFile.
  - unfold Discord.logBotResponse. now rewrite getLastTimestamp_logToFile.
Qed.

Lemma logged_message_read_back_witness :
  let b := Bot.start "/data/mother" (Some "999"%string) (Some 5%Z) in
  let e := mkEvent mention "42" 1234%N "u1" "hello" None None in
  getLastTimestamp (Bot.store (snd (logUserMessage b e)))
    (Discord.fs (world (snd (logUserMessage b e)))) "42"
  = Some "1234"%string.
Proof.
  intros b e.
  refine (proj1 (logged_message_read_back b e "" "" _ eq_refl _)).
  - exists ["data"; "mother"]%string. split; [reflexivity|].
    repeat constructor; discriminate.
  - repeat split; discriminate.
Defined.

(** *** Snowflakes *)

Lemma snowflake_shift (ms : Z) (low : N) :
  (DISCORD_EPOCH <= ms)%Z -> (low < 2 ^ 22)%N ->
  N.shiftr (snowflake ms low) 22 = Z.to_N (ms - DISCORD_EPOCH).
Proof.
  intros Hms Hlow. unfold snowflake.
  rewrite N.shiftr_lor, N.shiftr_shiftl_l by lia.
  rewrite N.sub_diag, N.shiftl_0_r.
  rewrite (N.shiftr_div_pow2 low), N.div_small by exact Hlow.
  apply N.lor_0_r.
Qed.

Lemma shiftr_mono (a b n : N) : (a <= b)%N -> (N.shiftr a n <= N.shiftr b n)%N.
Proof.
  intros H. rewrite !N.shiftr_div_pow2.
  apply N.Div0.div_le_mono. exact H.
Qed.

Lemma lor_below (a b n : N) :
  (a < 2 ^ n)%N -> (b < 2 ^ n)%N -> (N.lor a b < 2 ^ n)%N.
Proof.
  intros Ha Hb.
  destruct (N.eq_dec (N.lor a b) 0%N) as [->|Hne].
  - apply N.neq_0_lt_0. apply N.pow_nonzero. discriminate.
  - apply N.log2_lt_pow2; [lia|]. rewrite N.log2_lor.
    destruct (N.eq_dec a 0%N) as [->|Ha0], (N.eq_dec b 0%N) as [->|Hb0].
    + now destruct Hne.
    + rewrite N.max_r by (cbn; lia). apply N.log2_lt_pow2; lia.
    + rewrite N.max_l by (cbn; lia). apply N.log2_lt_pow2; lia.
    + apply N.max_lub_lt; apply N.log2_lt_pow2; lia.
Qed.

Lemma shiftr_below (ts : N) : (ts < 2 ^ 64)%N -> (N.shiftr ts 22 < 2 ^ 42)%N.
Proof.
  intros H. rewrite N.shiftr_div_pow2.
  apply N.Div0.div_lt_upper_bound. change (2 ^ 22 * 2 ^ 42)%N with (2 ^ 64)%N.
  exact H.
Qed.

(** X12: the date logged for a user message is the creation time its
    identifier encodes.  An identifier is a 64-bit number, so the
    time it encodes lies less than 2^42 milliseconds after the Discord
    epoch: an identifier built from such a time is a 64-bit number and
    its date is that time; among 64-bit identifiers a larger one
    never gets an earlier date; and for each of them the shifted
    number is converted exactly (it is below 2^53) and the date lies
    between the epoch and the largest time value of a [Date], so
    [toISOString] does not throw. *)
Theorem snowflakeDate_decodes (ms : Z) (low : N) :
  (DISCORD_EPOCH <= ms < DISCORD_EPOCH + 2 ^ 42)%Z -> (low < 2 ^ 22)%N ->
  (snowflake ms low < 2 ^ 64)%N
  /\ snowflakeDate (snowflake ms low) = ms
  /\ (forall ts ts',
        (ts <= ts')%N -> (ts' < 2 ^ 64)%N ->
        (snowflakeDate ts <= snowflakeDate ts')%Z)
  /\ (forall ts,
        (ts < 2 ^ 64)%N ->
        (Z.of_N (N.shiftr ts 22) < 2 ^ 53)%Z
        /\ (DISCORD_EPOCH <= snowflakeDate ts < DISCORD_EPOCH + 2 ^ 42)%Z
        /\ (snowflakeDate ts <= MAX_TIME_VALUE)%Z).
Proof.
  intros Hms Hlow. split; [|split; [|split]].
  - unfold snowflake. apply lor_below.
    + rewrite N.shiftl_mul_pow2. change (2 ^ 64)%N with (2 ^ 42 * 2 ^ 22)%N.
      apply N.mul_lt_mono_pos_r; [reflexivity|]. lia.
    + eapply N.lt_trans; [exact Hlow|reflexivity].
  - unfold snowflakeDate. rewrite snowflake_shift by (lia || assumption).
    rewrite Z2N.id by lia. lia.
  - intros ts ts' H _. unfold snowflakeDate.
    pose proof (shiftr_mono ts ts' 22 H). lia.
  - intros ts H. apply shiftr_below in H. unfold snowflakeDate, MAX_TIME_VALUE,
      DISCORD_EPOCH. lia.
Qed.

Lemma snowflakeDate_decodes_witness :
  (snowflake 1735689600000 12345 < 2 ^ 64)%N
  /\ snowflakeDate (snowflake 1735689600000 12345) = 1735689600000%Z.
Proof.
  refine (let H := snowflakeDate_decodes 1735689600000 12345 _ _ in
          conj (proj1 H) (proj1 (proj2 H))).
  - unfold DISCORD_EPOCH. lia.
  - reflexivity.
Defined.

End BotLog.

(** ** The download queue *)

Section DownloadQueue.
Import Env ChannelStore Downloads.

Lemma loopHead_inv (q : Queue) :
  queued q = attempts q ++ pendingDownloads (store q) ->
  length (written q) + length (warnings q) = length (attempts q) ->
  inOrder (loopHead q).
Proof.
  intros Hq Hn. unfold loopHead, inOrder.
  destruct (pendingDownloads (store q)) as [|item rest];
    cbn [setLoop queued attempts store pendingDownloads isDownloading current
         written warnings].
  - rewrite !app_nil_r in *. split; [exact Hq|]. split.
    + split; [discriminate|]. intros [x Hx]. discriminate Hx.
    + split; [reflexivity|]. split; [discriminate|]. unfold awaited. simpl. lia.
  - split; [now rewrite <- app_assoc|]. split.
    + split; [now eexists|reflexivity].
    + split; [discriminate|]. split.
      * intros x [= <-]. apply last_snoc.
      * unfold awaited. rewrite length_app. simpl. lia.
Qed.

Lemma step_inv (q q' : Queue) : inOrder q -> step q q' -> inOrder q'.
Proof.
  intros (Hq & Hd & Hnone & Hlast & Hn) Hstep.
  destruct Hstep as [q channelId files timestamp | q result].
  - unfold processAttachments, ChannelStore.queueAttachments.
    cbn [snd]. set (new := map snd (attachmentsOf channelId files timestamp)).
    cbn [pendingDownloads]. rewrite drop_app_length.
    unfold processDownloadQueue.
    cbn [store isDownloading pendingDownloads].
    destruct (isDownloading (store q)) eqn:Edl; cbn [orb].
    + unfold inOrder.
      cbn [queued attempts store pendingDownloads isDownloading current written warnings].
      rewrite Hq, <- app_assoc. split; [reflexivity|]. split; [exact Hd|].
      split; [|split; [exact Hlast|exact Hn]].
      intros Hcur. destruct (proj1 Hd eq_refl) as [x Hx]. congruence.
    + assert (Hcur : current q = None).
      { destruct (current q) as [x|] eqn:E; [|reflexivity].
        assert (H : false = true) by (apply Hd; now eexists).
        discriminate H. }
      rewrite (Hnone Hcur) in *. rewrite app_nil_r in Hq. cbn [app].
      destruct new as [|item rest] eqn:Enew; cbn [length Nat.eqb].
      * unfold inOrder.
        cbn [queued attempts store pendingDownloads isDownloading current written warnings].
        rewrite !app_nil_r, Hcur. split; [exact Hq|]. split.
        -- split; [discriminate|]. intros [x Hx]. discriminate Hx.
        -- split; [reflexivity|]. split; [discriminate|].
           unfold awaited in *. cbn [current]. rewrite Hcur in *. exact Hn.
      * apply loopHead_inv;
          cbn [queued attempts store pendingDownloads written warnings].
        -- now rewrite Hq.
        -- unfold awaited in Hn. rewrite Hcur in Hn. lia.
  - unfold settle. destruct (current q) as [item|] eqn:Ecur.
    + unfold awaited in Hn. rewrite Ecur in Hn.
      destruct result as [|message]; apply loopHead_inv;
        cbn [queued attempts store pendingDownloads written warnings];
        try exact Hq; rewrite length_app; simpl; lia.
    + unfold inOrder. rewrite Ecur. repeat split; try assumption.
      * apply Hd.
      * apply Hd.
Qed.

(** X13: the downloads of a store run one at a time and none is lost:
    whatever attachments arrive and however the fetches end, the
    downloads started so far followed by those still waiting are the
    downloads queued, in order; the store is marked as downloading
    exactly while one download is awaited, and then nothing waits
    without it; every download started has ended with a file written
    or a warning logged, except the one awaited. *)
Theorem downloads_in_order (q : Queue) :
  reachable q ->
  queued q = attempts q ++ pendingDownloads (store q)
  /\ (isDownloading (store q) = true <-> is_Some (current q))
  /\ (current q = None -> pendingDownloads (store q) = [])
  /\ (forall item, current q = Some item -> last (attempts q) = Some item)
  /\ length (written q) + length (warnings q) + awaited q
     = length (attempts q).
Proof.
  intros Hr. change (inOrder q).
  induction Hr as [workingDir | q q' _ IH Hstep].
  - unfold inOrder, fresh. simpl. repeat split; try discriminate.
    intros [x Hx]. discriminate Hx.
  - exact (step_inv q q' IH Hstep).
Qed.

Lemma downloads_in_order_witness :
  let files := [mkFileRef (Some "a.png"%string) (Some "https://cdn/a"%string);
                mkFileRef (Some "b.png"%string) (Some "https://cdn/b"%string)] in
  let q := settle (snd (processAttachments (fresh "/data") "42" files "7"))
                  (Failed "HTTP 404: Not Found") in
  queued q = attempts q ++ pendingDownloads (store q)
  /\ length (attempts q) = 2 /\ length (warnings q) = 1
  /\ isDownloading (store q) = true.
Proof.
  intros files q.
  assert (Hr : reachable q).
  { eapply reach_step; [eapply reach_step; [apply (reach_fresh "/data")|]|].
    - apply (step_attach _ "42" files "7").
    - apply step_settle. }
  destruct (downloads_in_order q Hr) as (H & _).
  split; [exact H|]. repeat split; reflexivity.
Defined.

End DownloadQueue.

(** ** The rate limiter *)

Section Limiter.
Import RateLimiter.

Lemma waitForEdit_spaced (r : T) (now late : Z) :
  (0 <= late)%Z ->
  (lastEditTime r + minEditInterval <= fst (waitForEdit r now late))%Z
  /\ (now <= fst (waitForEdit r now late))%Z
  /\ lastEditTime (snd (waitForEdit r now late)) = fst (waitForEdit r now late).
Proof.
  intros Hlate. unfold waitForEdit, minEditInterval. cbn [fst snd lastEditTime].
  destruct (Z.ltb_spec (now - lastEditTime r) 1000); lia.
Qed.

Lemma edits_spaced_from (calls : list (Z * Z)) :
  forall r, Forall (fun call => (0 <= snd call)%Z) calls ->
            spaced (lastEditTime r) (edits r calls).
Proof.
  induction calls as [|[now late] calls IH]; intros r Hall; [exact I|].
  apply Forall_cons in Hall. destruct Hall as [Hlate Hall]. cbn [snd] in Hlate.
  destruct (waitForEdit_spaced r now late Hlate) as (H1 & _ & H3).
  cbn [edits]. destruct (waitForEdit r now late) as [t r'] eqn:E.
  cbn [fst snd] in *. cbn [spaced]. split; [exact H1|].
  rewrite <- H3. now apply IH.
Qed.

(** X14: edits that go through the rate limiter one after the other are
    at least a second apart: each call of [waitForEdit] returns no
    earlier than 1000 ms after the previous one returned, and no
    earlier than it was called, provided timers do not fire early. *)
Theorem waitForEdit_keeps_interval (r : T) (calls : list (Z * Z)) :
  Forall (fun call => (0 <= snd call)%Z) calls ->
  spaced (lastEditTime r) (edits r calls)
  /\ length (edits r calls) = length calls
  /\ (forall now late, (0 <= late)%Z ->
                       (now <= fst (waitForEdit r now late))%Z
                       /\ ((lastEditTime r + minEditInterval <= now)%Z ->
                           fst (waitForEdit r now late) = (now + late)%Z)).
Proof.
  intros Hall. split; [now apply edits_spaced_from|]. split.
  - clear Hall. revert r. induction calls as [|[now late] calls IH]; intros r;
      [reflexivity|].
    cbn [edits]. destruct (waitForEdit r now late) as [t r']. simpl.
    now rewrite IH.
  - intros now late Hlate. split; [now apply waitForEdit_spaced|].
    intros Hfree. unfold waitForEdit, minEditInterval in *. cbn [fst].
    destruct (Z.ltb_spec (now - lastEditTime r) 1000); lia.
Qed.

Lemma waitForEdit_keeps_interval_witness :
  edits fresh [(5000, 2); (5100, 0); (5200, 7); (9000, 0)]%Z
  = [5002; 6002; 7009; 9000]%Z
  /\ spaced 0 (edits fresh [(5000, 2); (5100, 0); (5200, 7); (9000, 0)]%Z).
Proof.
  split; [reflexivity|].
  refine (proj1 (waitForEdit_keeps_interval fresh
                   [(5000, 2); (5100, 0); (5200, 7); (9000, 0)]%Z _)).
  repeat constructor; simpl; lia.
Defined.

End Limiter.

(** ** A run, seen from Discord *)

Section RunSeen.
Import Discord Context AgentRun RunProtocol.

Lemma find_app_some {A} (f : A -> bool) (l l' : list A) (x : A) :
  find f l = Some x -> find f (l ++ l') = Some x.
Proof.
  induction l as [|a l IH]; [discriminate|]. simpl.
  destruct (f a); [trivial|exact IH].
Qed.

Lemma find_app_none {A} (f : A -> bool) (l l' : list A) :
  Forall (fun a => f a = false) l -> find f (l ++ l') = find f l'.
Proof.
  induction 1 as [|a l Ha _ IH]; [reflexivity|]. simpl. now rewrite Ha.
Qed.

Lemma lookup_send_old (w : World) (ch : string) (k : Kind) (text : string)
    (id : N) (x : Message) :
  lookupMessage w id = Some x ->
  lookupMessage (snd (send w ch k text)) id = Some x.
Proof. unfold lookupMessage, send. simpl. apply find_app_some. Qed.

Lemma lookup_send_new (w : World) (ch : string) (k : Kind) (text : string) :
  wellFormed w ->
  lookupMessage (snd (send w ch k text)) (nextId w)
  = Some (mkMsg (nextId w) ch k text).
Proof.
  intros Hwf. unfold lookupMessage, send. simpl.
  rewrite find_app_none.
  - simpl. now rewrite N.eqb_refl.
  - apply Forall_forall. intros m Hm. apply Hwf in Hm.
    apply N.eqb_neq. lia.
Qed.

Lemma lookup_update (w : World) (id : N) (text : string) (x : Message) :
  lookupMessage w id = Some x ->
  lookupMessage (updateMessage w id text) id
  = Some (mkMsg (m_id x) (m_channel x) (m_kind x) text).
Proof.
  unfold lookupMessage, updateMessage. simpl.
  induction (messages w) as [|m ms IH]; [discriminate|]. simpl.
  rewrite (proj1 (editOne_id id text m)).
  destruct (N.eqb_spec (m_id m) id) as [E|E].
  - intros [= <-]. unfold editOne. apply N.eqb_eq in E. now rewrite E.
  - exact IH.
Qed.

Lemma wellFormed_send (w : World) (ch : string) (k : Kind) (text : string) :
  wellFormed w -> wellFormed (snd (send w ch k text)).
Proof.
  intros Hwf m Hin. unfold send in *. simpl in *.
  apply elem_of_app in Hin. destruct Hin as [Hin|Hin].
  - apply Hwf in Hin. lia.
  - apply list_elem_of_singleton in Hin. subst m. simpl. lia.
Qed.

Lemma wellFormed_update (w : World) (id : N) (text : string) :
  wellFormed w -> wellFormed (updateMessage w id text).
Proof.
  intros Hwf m Hin. unfold updateMessage in *. simpl in *.
  apply list_elem_of_fmap in Hin. destruct Hin as [m0 [-> Hin]].
  rewrite (proj1 (editOne_id id text m0)). now apply Hwf.
Qed.

Lemma showing_shown (ch : string) (main : N) (c : Ctx) (w : World)
    (accumulated : string) :
  showing ch main c w ->
  showing ch main (fst (showMain c w accumulated)) (snd (showMain c w accumulated))
  /\ accumulatedText (fst (showMain c w accumulated)) = accumulated
  /\ threadMessages (fst (showMain c w accumulated)) = threadMessages c.
Proof.
  intros (Hm & Hch & Hw & Hwf & Hlt & Hlook & Hkinds).
  unfold showMain. rewrite Hm. cbn [fst snd]. split; [|now split].
  unfold showing. cbn [message channel isWorking accumulatedText].
  split; [reflexivity|]. split; [exact Hch|]. split; [exact Hw|].
  split; [now apply wellFormed_update|]. split; [exact Hlt|]. split.
  - rewrite (lookup_update w main _ _ Hlook). cbn [m_id m_channel m_kind].
    unfold displayText. now rewrite Hw.
  - intros msg Hin Hgt. unfold updateMessage in Hin. simpl in Hin.
    apply list_elem_of_fmap in Hin. destruct Hin as [m0 [-> Hin]].
    destruct (editOne_id main (displayText (isWorking c) accumulated) m0)
      as [Hid Hkind].
    rewrite Hid in Hgt. rewrite Hkind. now apply Hkinds.
Qed.

Lemma showing_quiet (ch : string) (main : N) (c : Ctx) (w w' : World) :
  messages w' = messages w -> nextId w' = nextId w ->
  showing ch main c w -> showing ch main c w'.
Proof.
  intros Hms Hn (Hm & Hch & Hw & Hwf & Hlt & Hlook & Hkinds).
  unfold showing, wellFormed, lookupMessage in *. rewrite Hms, Hn.
  repeat split; assumption.
Qed.

Lemma showing_send (ch : string) (main : N) (c c' : Ctx) (w : World)
    (ch' : string) (k : Kind) (text : string) :
  showing ch main c w ->
  (k = InThread main \/ k = Upload) ->
  message c' = message c -> channel c' = channel c ->
  isWorking c' = isWorking c -> accumulatedText c' = accumulatedText c ->
  showing ch main c' (snd (send w ch' k text)).
Proof.
  intros (Hm & Hch & Hw & Hwf & Hlt & Hlook & Hkinds) Hk E1 E2 E3 E4.
  unfold showing. rewrite E1, E2, E3, E4.
  split; [exact Hm|]. split; [exact Hch|]. split; [exact Hw|].
  split; [now apply wellFormed_send|]. split; [unfold send; simpl; lia|].
  split; [now apply lookup_send_old|].
  intros msg Hin Hgt. unfold send in Hin. simpl in Hin.
  apply elem_of_app in Hin. destruct Hin as [Hin|Hin]; [now apply Hkinds|].
  apply list_elem_of_singleton in Hin. subst msg. exact Hk.
Qed.

Lemma showing_runCall (ch : string) (main : N) (c : Ctx) (w : World) (op : Op) :
  runCall op = true ->
  showing ch main c w ->
  showing ch main (fst (runOp (c, w) op)) (snd (runOp (c, w) op))
  /\ length (threadMessages (fst (runOp (c, w) op)))
     = length (threadMessages c) + (if isThreadResponse op then 1 else 0).
Proof.
  intros Hcall Hs.
  destruct op as [text shouldLog|text|text|b|path title|b]; try discriminate Hcall;
    cbn [runOp isThreadResponse].
  - unfold respond.
    destruct (showing_shown ch main c w
                (if Js.truthy (accumulatedText c)
                 then accumulatedText c +:+ String "010" EmptyString +:+ text
                 else text) Hs) as (H1 & _ & H3).
    destruct (showMain c w _) as [c' w']. cbn [fst snd] in *.
    destruct (message c') as [m|]; [destruct shouldLog|]; cbn [fst snd];
      rewrite H3; (split; [exact H1|lia]).
  - unfold replaceMessage.
    destruct (showing_shown ch main c w text Hs) as (H1 & _ & H3).
    rewrite H3. split; [exact H1|lia].
  - unfold respondInThread. destruct Hs as (Hm & Hrest). rewrite Hm.
    unfold postInThread.
    destruct (send w (channelOf w main) (InThread main) text) as [t w'] eqn:E.
    cbn [fst snd threadMessages]. split.
    + replace w' with (snd (send w (channelOf w main) (InThread main) text))
        by now rewrite E.
      apply (showing_send ch main c); try reflexivity;
        [exact (conj Hm Hrest) | now left | cbn [message]; now rewrite Hm].
    + rewrite length_app. simpl. lia.
  - unfold uploadFile, Discord.uploadFile. cbn [fst snd]. split; [|lia].
    apply (showing_send ch main c); try reflexivity; [exact Hs|now right].
Qed.

Lemma showing_runCalls (ch : string) (main : N) (ops : list Op) :
  forall c w,
    forallb runCall ops = true ->
    showing ch main c w ->
    showing ch main (fst (runOps (c, w) ops)) (snd (runOps (c, w) ops))
    /\ length (threadMessages (fst (runOps (c, w) ops)))
       = length (threadMessages c) + length (filter isThreadResponse ops).
Proof.
  induction ops as [|op ops IH]; intros c w Hall Hs; [split; [exact Hs|simpl; lia]|].
  cbn [forallb] in Hall. apply andb_true_iff in Hall. destruct Hall as [Hop Hall].
  change (runOps (c, w) (op :: ops)) with (runOps (runOp (c, w) op) ops).
  destruct (showing_runCall ch main c w op Hop Hs) as [H1 H2].
  destruct (runOp (c, w) op) as [c1 w1]. cbn [fst snd] in *.
  destruct (IH c1 w1 Hall H1) as [H3 H4]. split; [exact H3|].
  rewrite H4, H2. rewrite filter_cons.
  destruct (isThreadResponse op); simpl; lia.
Qed.

(** How a run starts: the status message is the first thing posted. *)
Lemma showing_start (ch : string) (filename : option string) (w0 : World) :
  wellFormed w0 ->
  let cw := runOps (fresh ch filename, w0) [SetTyping true; SetWorking true] in
  showing ch (nextId w0) (fst cw) (snd cw)
  /\ accumulatedText (fst cw) = statusOf filename
  /\ threadMessages (fst cw) = [].
Proof.
  intros Hwf cw. unfold cw, runOps, fresh. cbn [fold_left runOp].
  unfold setTyping. cbn [message Context.eventFilename channel threadMessages isWorking].
  unfold postMessage. fold (statusOf filename).
  pose proof (lookup_send_new w0 ch Plain
                (statusOf filename +:+ workingIndicator) Hwf) as Hnew.
  pose proof (wellFormed_send w0 ch Plain
                (statusOf filename +:+ workingIndicator) Hwf) as Hwf1.
  unfold send in *. cbn [snd] in Hnew, Hwf1.
  set (w1 := setMessages w0
               (messages w0 ++
                  [mkMsg (nextId w0) ch Plain (statusOf filename +:+ workingIndicator)])
               (nextId w0 + 1)%N) in *.
  cbn [runOp]. unfold setWorking.
  cbn [message channel Context.eventFilename threadMessages
       accumulatedText isWorking fst snd].
  split; [|now split].
  unfold showing. cbn [message channel isWorking accumulatedText].
  split; [reflexivity|]. split; [reflexivity|]. split; [reflexivity|].
  split; [now apply wellFormed_update|].
  split; [unfold updateMessage, w1; simpl; lia|]. split.
  - rewrite (lookup_update w1 (nextId w0) _ _ Hnew). reflexivity.
  - intros msg Hin Hgt. exfalso.
    unfold updateMessage in Hin. simpl in Hin.
    apply list_elem_of_fmap in Hin. destruct Hin as [m0 [-> Hin]].
    rewrite (proj1 (editOne_id _ _ m0)) in Hgt.
    apply elem_of_app in Hin. destruct Hin as [Hin|Hin].
    + apply Hwf in Hin. lia.
    + apply list_elem_of_singleton in Hin. subst m0. simpl in Hgt. lia.
Qed.

(** X15: seen from Discord, a run is one message and its thread.  When
    [handleEvent] has called [setTyping(true)] and [setWorking(true)]
    and the run has made its calls, the main message is the first
    message posted, stands in the channel of the event and shows the
    accumulated text followed by the working indicator; every other
    message posted since is a thread message under it or a file; no
    thread response was dropped; and [setWorking(false)] leaves the
    main message showing the accumulated text alone. *)
Theorem run_shows_one_message (ch : string) (filename : option string)
    (w0 : World) (ops : list Op) :
  wellFormed w0 -> forallb runCall ops = true ->
  let cw := runOps (fresh ch filename, w0) (duringRun ops) in
  let c := fst cw in
  let w := snd cw in
  message c = Some (nextId w0)
  /\ lookupMessage w (nextId w0)
     = Some (mkMsg (nextId w0) ch Plain (accumulatedText c +:+ workingIndicator))
  /\ (forall msg, msg ∈ messages w -> (nextId w0 < m_id msg)%N ->
                  m_kind msg = InThread (nextId w0) \/ m_kind msg = Upload)
  /\ length (threadMessages c) = length (filter isThreadResponse ops)
  /\ (ops = [] -> accumulatedText c = statusOf filename)
  /\ lookupMessage (snd (setWorking c w false)) (nextId w0)
     = Some (mkMsg (nextId w0) ch Plain (accumulatedText c)).
Proof.
  intros Hwf Hall cw c w. subst c w cw.
  destruct (showing_start ch filename w0 Hwf) as (Hs & Hacc & Hthr).
  unfold duringRun.
  change (runOps (fresh ch filename, w0) (SetTyping true :: SetWorking true :: ops))
    with (runOps (runOps (fresh ch filename, w0) [SetTyping true; SetWorking true]) ops)
    in *.
  destruct (runOps (fresh ch filename, w0) [SetTyping true; SetWorking true])
    as [c1 w1]. cbn [fst snd] in Hs, Hacc, Hthr.
  destruct (showing_runCalls ch (nextId w0) ops c1 w1 Hall Hs) as [H1 H2].
  destruct H1 as (Hm & Hch & Hw & Hwf' & Hlt & Hlook & Hkinds).
  split; [exact Hm|]. split; [exact Hlook|]. split; [exact Hkinds|].
  split; [rewrite H2, Hthr; reflexivity|]. split.
  - intros ->. exact Hacc.
  - unfold setWorking. rewrite Hm. cbn [snd].
    rewrite (lookup_update _ _ _ _ Hlook). reflexivity.
Qed.

Lemma run_shows_one_message_witness :
  let w0 := Discord.mkWorld [mkMsg 3 "42" Plain "earlier"] 7%N ∅ [] "/data" 0%Z in
  let cw := runOps (fresh "42" None, w0)
              (duringRun [Respond "a" false; RespondInThread "details";
                          ReplaceMessage "done"]) in
  message (fst cw) = Some 7%N
  /\ lookupMessage (snd cw) 7 = Some (mkMsg 7 "42" Plain "done ...").
Proof.
  intros w0 cw.
  assert (Hwf : wellFormed w0).
  { intros m Hm. apply list_elem_of_singleton in Hm. subst m. simpl. lia. }
  destruct (run_shows_one_message "42" None w0
              [Respond "a" false; RespondInThread "details"; ReplaceMessage "done"]
              Hwf eq_refl) as (H1 & H2 & _).
  split; [exact H1|exact H2].
Defined.

End RunSeen.

(** ** How a run ends, seen from Discord *)

Section RunEnds.
Import Discord Context AgentRun RunProtocol.

Lemma mainTextOf_length (finalText : string) :
  String.length (mainTextOf finalText) <= DISCORD_MAX_LENGTH.
Proof.
  unfold mainTextOf.
  destruct (Nat.ltb_spec DISCORD_MAX_LENGTH (String.length finalText)) as [H|H];
    [|exact H].
  rewrite length_append, substring0_length. unfold DISCORD_MAX_LENGTH in *.
  change (String.length (String "010" (String "010" "*(see thread for full response)*")))
    with 34.
  lia.
Qed.

Lemma respondInThread_keeps (c : Ctx) (w : World) (text : string) :
  accumulatedText (fst (respondInThread c w text)) = accumulatedText c.
Proof.
  unfold respondInThread. destruct (message c); [|reflexivity].
  now destruct (postInThread w n text).
Qed.

Lemma showing_thread (ch : string) (main : N) (c : Ctx) (w : World)
    (text : string) :
  showing ch main c w ->
  showing ch main (fst (respondInThread c w text)) (snd (respondInThread c w text)).
Proof.
  intros Hs. exact (proj1 (showing_runCall ch main c w (RespondInThread text) eq_refl Hs)).
Qed.

Lemma showing_summary (ch : string) (main : N) (c : Ctx) (w : World)
    (deleted : list N) (summary : option string) :
  showing ch main c w ->
  let r := match summary with
           | Some s => let '(c2, w2) := respondInThread c w s in (c2, w2, deleted)
           | None => (c, w, deleted)
           end in
  showing ch main (fst (fst r)) (snd (fst r))
  /\ accumulatedText (fst (fst r)) = accumulatedText c
  /\ snd r = deleted.
Proof.
  intros Hs r. subst r. destruct summary as [s|].
  - pose proof (showing_thread ch main c w s Hs) as H1.
    pose proof (respondInThread_keeps c w s) as H2.
    destruct (respondInThread c w s) as [c2 w2]. cbn [fst snd] in *.
    split; [exact H1|]. split; [exact H2|reflexivity].
  - cbn [fst snd]. split; [exact Hs|]. split; reflexivity.
Qed.

Lemma shown_after (ch : string) (main : N) (c : Ctx) (w : World) :
  showing ch main c w ->
  lookupMessage (snd (setWorking c w false)) main
  = Some (mkMsg main ch Plain (accumulatedText c)).
Proof.
  intros (Hm & _ & _ & _ & _ & Hlook & _). unfold setWorking. rewrite Hm.
  cbn [snd]. now rewrite (lookup_update _ _ _ _ Hlook).
Qed.

Lemma respond_shown (ch : string) (main : N) (c : Ctx) (w : World)
    (text : string) (shouldLog : bool) :
  showing ch main c w ->
  showing ch main (fst (respond c w text shouldLog)) (snd (respond c w text shouldLog))
  /\ accumulatedText (fst (respond c w text shouldLog))
     = (if Js.truthy (accumulatedText c)
        then accumulatedText c +:+ String "010" EmptyString +:+ text
        else text)
  /\ map m_id (messages (snd (respond c w text shouldLog))) = map m_id (messages w).
Proof.
  intros Hs.
  pose proof (showing_runCall ch main c w (Respond text shouldLog) eq_refl Hs) as [H _].
  cbn [runOp] in H. split; [exact H|].
  destruct Hs as (Hm & _). unfold respond, showMain. rewrite Hm.
  cbn [message fst snd accumulatedText].
  assert (Hids : forall t, map m_id (messages (updateMessage w main t))
                           = map m_id (messages w)).
  { intros t. unfold updateMessage, setMessages. cbn [messages]. rewrite map_map.
    apply map_ext. intros m. unfold editOne. now destruct (m_id m =? main)%N. }
  destruct shouldLog; cbn [fst snd]; (split; [reflexivity|]); apply Hids.
Qed.

(** X16: what the main message shows when a run is over.  A run that
    returns at its head, because the health check of the model server
    failed, shows the text accumulated so far and, on a line of its
    own, [*Cannot connect to AI server: ...*] with the error; as the
    check is the first thing a run does, that text is the status the
    message started with.  A run that comes to its tail with an error
    shows the apology; one whose final text is not blank and not
    silent shows that text, cut to its first 1850 characters and a
    pointer to the thread when it is longer than 1900, so at most
    1900 characters; one whose final text is blank shows the text
    accumulated so far.  In none of these cases is a message
    deleted. *)
Theorem finish_shows_final_text (ch : string) (main : N) (c : Ctx) (w : World)
    (o : Outcome) :
  showing ch main c w ->
  let r := finish o c w in
  let shown := lookupMessage (snd (setWorking (fst (fst r)) (snd (fst r)) false)) main in
  (endedInError o = true ->
   shown = Some (mkMsg main ch Plain "*Sorry, something went wrong*")
   /\ snd r = [])
  /\ (endedInError o = false -> isSilent (finalTextOf o) = false ->
      Js.truthy (Js.trim (finalTextOf o)) = true ->
      shown = Some (mkMsg main ch Plain (mainTextOf (finalTextOf o)))
      /\ String.length (mainTextOf (finalTextOf o)) <= DISCORD_MAX_LENGTH
      /\ (String.length (finalTextOf o) <= DISCORD_MAX_LENGTH ->
          mainTextOf (finalTextOf o) = finalTextOf o)
      /\ snd r = [])
  /\ (endedInError o = false -> isSilent (finalTextOf o) = false ->
      Js.truthy (Js.trim (finalTextOf o)) = false ->
      shown = Some (mkMsg main ch Plain (accumulatedText c)) /\ snd r = [])
  /\ (forall healthError,
        let early := healthCheckFailed healthError c w in
        lookupMessage (snd (setWorking (fst early) (snd early) false)) main
        = Some (mkMsg main ch Plain
                  (if Js.truthy (accumulatedText c)
                   then accumulatedText c +:+ String "010" EmptyString
                          +:+ healthNotice healthError
                   else healthNotice healthError))
        /\ map m_id (messages (snd early)) = map m_id (messages w))
  /\ (forall (filename : option string) (w0 : World) (healthError : string),
        wellFormed w0 ->
        let started := runOps (fresh ch filename, w0) (duringRun []) in
        let early := healthCheckFailed healthError (fst started) (snd started) in
        lookupMessage (snd (setWorking (fst early) (snd early) false)) (nextId w0)
        = Some (mkMsg (nextId w0) ch Plain
                  (statusOf filename +:+ String "010" EmptyString
                     +:+ healthNotice healthError))).
Proof.
  intros Hs r shown.
  assert (Hearly : forall ch' main' c' w' healthError,
            showing ch' main' c' w' ->
            let early := healthCheckFailed healthError c' w' in
            lookupMessage (snd (setWorking (fst early) (snd early) false)) main'
            = Some (mkMsg main' ch' Plain
                      (if Js.truthy (accumulatedText c')
                       then accumulatedText c' +:+ String "010" EmptyString
                              +:+ healthNotice healthError
                       else healthNotice healthError))
            /\ map m_id (messages (snd early)) = map m_id (messages w')).
  { intros ch' main' c' w' healthError Hs' early. subst early.
    unfold healthCheckFailed.
    assert (Hlogged : showing ch' main' c'
                        (logWarning w' "Ollama health check failed" (Some healthError)))
      by (apply (showing_quiet ch' main' c' w'); [reflexivity|reflexivity|exact Hs']).
    destruct (respond_shown ch' main' c' _ (healthNotice healthError) true Hlogged)
      as (H1 & H2 & H3).
    rewrite (shown_after ch' main' _ _ H1), H2. split; [reflexivity|exact H3]. }
  assert (Htail :
    (endedInError o = true ->
     lookupMessage (snd (setWorking (fst (fst (finish o c w)))
                                    (snd (fst (finish o c w))) false)) main
     = Some (mkMsg main ch Plain "*Sorry, something went wrong*")
     /\ snd (finish o c w) = [])
    /\ (endedInError o = false -> isSilent (finalTextOf o) = false ->
        Js.truthy (Js.trim (finalTextOf o)) = true ->
        lookupMessage (snd (setWorking (fst (fst (finish o c w)))
                                       (snd (fst (finish o c w))) false)) main
        = Some (mkMsg main ch Plain (mainTextOf (finalTextOf o)))
        /\ String.length (mainTextOf (finalTextOf o)) <= DISCORD_MAX_LENGTH
        /\ (String.length (finalTextOf o) <= DISCORD_MAX_LENGTH ->
            mainTextOf (finalTextOf o) = finalTextOf o)
        /\ snd (finish o c w) = [])
    /\ (endedInError o = false -> isSilent (finalTextOf o) = false ->
        Js.truthy (Js.trim (finalTextOf o)) = false ->
        lookupMessage (snd (setWorking (fst (fst (finish o c w)))
                                       (snd (fst (finish o c w))) false)) main
        = Some (mkMsg main ch Plain (accumulatedText c))
        /\ snd (finish o c w) = [])).
  { unfold finish.
  destruct (endedInError o) eqn:Eerr.
  - split; [|split; intros H; discriminate H]. intros _.
    unfold replaceMessage.
    destruct (showing_shown ch main c w "*Sorry, something went wrong*" Hs)
      as (H1 & H2 & _).
    destruct (showMain c w "*Sorry, something went wrong*") as [c1 w1].
    cbn [fst snd] in H1, H2.
    pose proof (showing_thread ch main c1 w1
                  ("*Error: " +:+ default EmptyString (errorMessage o) +:+ "*") H1) as H3.
    pose proof (respondInThread_keeps c1 w1
                  ("*Error: " +:+ default EmptyString (errorMessage o) +:+ "*")) as H4.
    destruct (respondInThread c1 w1 _) as [c2 w2]. cbn [fst snd] in H3, H4.
    destruct (showing_summary ch main c2 w2 [] (usageSummary o) H3) as (H5 & H6 & H7).
    cbv zeta in H5, H6, H7.
    destruct (match usageSummary o with
              | Some s => let '(c3, w3) := respondInThread c2 w2 s in (c3, w3, [])
              | None => (c2, w2, [])
              end) as [[c3 w3] deleted].
    cbn [fst snd] in *. rewrite (shown_after ch main c3 w3 H5).
    split; [|exact H7]. now rewrite H6, H4, H2.
  - split; [intros H; discriminate H|].
    destruct (isSilent (finalTextOf o)) eqn:Esil.
    + split; intros _ H; discriminate H.
    + destruct (Js.truthy (Js.trim (finalTextOf o))) eqn:Etext.
      * split; [|intros _ _ H; discriminate H]. intros _ _ _.
        unfold replaceMessage.
        destruct (showing_shown ch main c w (mainTextOf (finalTextOf o)) Hs)
          as (H1 & H2 & _).
        destruct (showMain c w (mainTextOf (finalTextOf o))) as [c1 w1].
        cbn [fst snd] in H1, H2.
        destruct (showing_summary ch main c1 w1 [] (usageSummary o) H1)
          as (H5 & H6 & H7).
        cbv zeta in H5, H6, H7.
        destruct (match usageSummary o with
                  | Some s => let '(c3, w3) := respondInThread c1 w1 s in (c3, w3, [])
                  | None => (c1, w1, [])
                  end) as [[c3 w3] deleted].
        cbn [fst snd] in *. rewrite (shown_after ch main c3 w3 H5).
        split; [now rewrite H6, H2|]. split; [apply mainTextOf_length|].
        split; [|exact H7].
        intros Hshort. unfold mainTextOf.
        destruct (Nat.ltb_spec DISCORD_MAX_LENGTH (String.length (finalTextOf o)));
          [lia|reflexivity].
      * split; [intros _ _ H; discriminate H|]. intros _ _ _.
        destruct (showing_summary ch main c w [] (usageSummary o) Hs)
          as (H5 & H6 & H7).
        cbv zeta in H5, H6, H7.
        destruct (match usageSummary o with
                  | Some s => let '(c3, w3) := respondInThread c w s in (c3, w3, [])
                  | None => (c, w, [])
                  end) as [[c3 w3] deleted].
        cbn [fst snd] in *. rewrite (shown_after ch main c3 w3 H5).
        split; [now rewrite H6|exact H7]. }
  destruct Htail as (T1 & T2 & T3).
  split; [exact T1|]. split; [exact T2|]. split; [exact T3|].
  split; [intros healthError; apply (Hearly ch main c w healthError Hs)|].
  intros filename w0 healthError Hwf started early.
  destruct (showing_start ch filename w0 Hwf) as (Hstart & Hacc & _).
  cbv zeta in Hstart, Hacc.
  destruct (Hearly ch (nextId w0) (fst started) (snd started) healthError Hstart)
    as [H _].
  cbv zeta in H. subst early. rewrite H.
  unfold started, duringRun. rewrite Hacc.
  now destruct filename.
Qed.

Lemma finish_shows_final_text_witness :
  let w0 := Discord.mkWorld [] 7%N ∅ [] "/data" 0%Z in
  let cw := runOps (fresh "42" None, w0) (duringRun [Respond "working on it" false]) in
  let o := mkOutcome "stop" None "All done." false (Some "usage: 12 tokens"%string) in
  let r := finish o (fst cw) (snd cw) in
  let early := healthCheckFailed "Ollama returned HTTP 503" (fst cw) (snd cw) in
  lookupMessage (snd (setWorking (fst (fst r)) (snd (fst r)) false)) 7
  = Some (mkMsg 7 "42" Plain "All done.")
  /\ lookupMessage (snd (setWorking (fst early) (snd early) false)) 7
     = Some (mkMsg 7 "42" Plain
               (String.concat (String "010" EmptyString)
                  ["*Thinking*"; "working on it";
                   "*Cannot connect to AI server: Ollama returned HTTP 503*"])).
Proof.
  intros w0 cw o r early.
  assert (Hwf : wellFormed w0) by (intros m Hm; inversion Hm).
  assert (Hs : showing "42" 7 (fst cw) (snd cw)).
  { destruct (showing_start "42" None w0 Hwf) as (Hs & _).
    unfold cw, duringRun.
    change (runOps (fresh "42" None, w0)
              [SetTyping true; SetWorking true; Respond "working on it" false])
      with (runOps (runOps (fresh "42" None, w0) [SetTyping true; SetWorking true])
                   [Respond "working on it" false]).
    destruct (runOps (fresh "42" None, w0) [SetTyping true; SetWorking true])
      as [c1 w1]. cbn [fst snd] in Hs.
    exact (proj1 (showing_runCalls "42" 7 [Respond "working on it" false] c1 w1
                    eq_refl Hs)). }
  destruct (finish_shows_final_text "42" 7 (fst cw) (snd cw) o Hs)
    as (_ & H & _ & Hearly & _).
  split; [exact (proj1 (H eq_refl eq_refl eq_refl))|].
  exact (proj1 (Hearly "Ollama returned HTTP 503"%string)).
Defined.

(** *** The status of a scheduled event *)

Lemma takeUntilColon_name (name rest : string) :
  Js.includes_char ":" name = false ->
  Bot.takeUntilColon (name +:+ String ":" rest) = (name, String ":" rest).
Proof.
  induction name as [|c name IH]; [reflexivity|].
  rewrite includes_char_cons. intros H.
  apply orb_false_iff in H. destruct H as [Hc Hname].
  cbn [String.append Bot.takeUntilColon]. rewrite Hc, IH by exact Hname.
  reflexivity.
Qed.

(** X17: the status message of a scheduled event names its file.  For a
    text that starts with [[EVENT:name:], the name not empty and free
    of colons, the context made for the event carries the name, and
    the message posted by [setTyping(true)] reads
    [*Starting event: name* ...]; a run that is not an event starts
    with [*Thinking* ...]. *)
Theorem event_status_names_file (name rest ch : string) (w0 : World) :
  name <> EmptyString -> Js.includes_char ":" name = false ->
  let text := "[EVENT:" +:+ name +:+ ":" +:+ rest in
  Bot.eventFilenameOf text = Some name
  /\ messages (snd (setTyping (fresh ch (Bot.eventFilenameOf text)) w0 true))
     = messages w0
         ++ [mkMsg (nextId w0) ch Plain ("*Starting event: " +:+ name +:+ "* ...")]
  /\ messages (snd (setTyping (fresh ch None) w0 true))
     = messages w0 ++ [mkMsg (nextId w0) ch Plain "*Thinking* ..."].
Proof.
  intros Hne Hcolon text.
  assert (H : Bot.eventFilenameOf text = Some name).
  { unfold text, Bot.eventFilenameOf.
    cbn [String.append Js.startsWith Ascii.eqb Bool.eqb andb Js.slice].
    rewrite takeUntilColon_name by exact Hcolon.
    destruct name; [contradiction|reflexivity]. }
  split; [exact H|]. rewrite H. split; [|reflexivity].
  unfold setTyping, fresh, postMessage, send.
  cbn [message Context.eventFilename channel snd messages setMessages].
  do 3 f_equal. unfold workingIndicator. now rewrite !append_assoc.
Qed.

Lemma event_status_names_file_witness :
  Bot.eventFilenameOf "[EVENT:backup.json:periodic:0 3 * * *] run the backup"
  = Some "backup.json"%string.
Proof.
  refine (proj1 (event_status_names_file "backup.json"
                   "periodic:0 3 * * *] run the backup" "42"
                   (Discord.mkWorld [] 0%N ∅ [] "/data" 0%Z) _ _)).
  - discriminate.
  - reflexivity.
Defined.

End RunEnds.

(** ** One run at a time on every channel *)

Section Serial.
Import Env Discord Context AgentRun Bot BotRuns.

Lemma view_same (b b' : Bot) :
  queues b' = queues b -> channelStates b' = channelStates b ->
  (forall ch, workOf b' ch = workOf b ch) ->
  forall ch, view b' ch = view b ch.
Proof.
  intros Hq Hs Hw ch. unfold view, queueOf, isRunning. now rewrite Hq, Hs, Hw.
Qed.

Lemma serial_same (b b' : Bot) :
  (forall ch, view b' ch = view b ch) -> serial b -> serial b'.
Proof. intros Hv Hs ch. rewrite Hv. apply Hs. Qed.

Lemma view_setQueue (b : Bot) (k : string) (q : ChannelQueue) (ch : string) :
  view (setQueue b k q) ch
  = if decide (k = ch) then (q, isRunning b ch, workOf b ch) else view b ch.
Proof.
  unfold view, queueOf, setQueue, isRunning, workOf. simpl.
  destruct (decide (k = ch)) as [->|Hne].
  - now rewrite lookup_insert_eq.
  - now rewrite lookup_insert_ne.
Qed.

Lemma view_handleEventStart (b : Bot) (k : string) (work : Work) (ch : string) :
  view (handleEventStart b k work) ch
  = (queueOf b ch,
     if decide (e_channel (work_event work) = ch) then true else isRunning b ch,
     if decide (k = ch) then Some work else workOf b ch).
Proof.
  unfold view, handleEventStart, getState, queueOf, isRunning, workOf.
  destruct (channelStates b !! e_channel (work_event work)) as [s|]; simpl;
    (f_equal; [f_equal|]).
  - destruct (decide (e_channel (work_event work) = ch)) as [->|Hne].
    + now rewrite lookup_insert_eq.
    + now rewrite lookup_insert_ne.
  - destruct (decide (k = ch)) as [->|Hne].
    + now rewrite lookup_insert_eq.
    + now rewrite lookup_insert_ne.
  - destruct (decide (e_channel (work_event work) = ch)) as [->|Hne].
    + now rewrite lookup_insert_eq.
    + rewrite lookup_insert_ne by exact Hne. now rewrite lookup_insert_ne.
  - destruct (decide (k = ch)) as [->|Hne].
    + now rewrite lookup_insert_eq.
    + now rewrite lookup_insert_ne.
Qed.

(** [processNext] in terms of the queue it finds. *)
Lemma processNext_view (b : Bot) (k : string) :
  let q := queueOf b k in
  (processing q = true \/ queue q = [] -> processNext b k = b)
  /\ (forall work rest,
        processing q = false -> queue q = work :: rest ->
        processNext b k
        = handleEventStart (setQueue b k (mkQueue rest true)) k work).
Proof.
  intros q. unfold q, queueOf, processNext.
  destruct (queues b !! k) as [q0|]; simpl.
  - split.
    + intros [->|H]; [reflexivity|]. rewrite H. now destruct (processing q0).
    + intros work rest -> ->. reflexivity.
  - split; [reflexivity|]. intros work rest _ H. discriminate H.
Qed.

Lemma queueOf_setQueue_ne (b : Bot) (k : string) (q : ChannelQueue) (ch : string) :
  k <> ch -> queueOf (setQueue b k q) ch = queueOf b ch.
Proof. intros Hne. unfold queueOf, setQueue. simpl. now rewrite lookup_insert_ne. Qed.

Lemma setQueue_twice (b : Bot) (k : string) (q q' : ChannelQueue) :
  setQueue (setQueue b k q) k q' = setQueue b k q'.
Proof. unfold setQueue. simpl. now rewrite insert_insert_eq. Qed.

Lemma enqueue_eq (b : Bot) (k : string) (work : Work) :
  enqueue b k work
  = processNext
      (setQueue b k (mkQueue (queue (queueOf b k) ++ [work])
                             (processing (queueOf b k)))) k.
Proof.
  unfold enqueue, getQueue, queueOf.
  destruct (queues b !! k) as [q0|]; simpl; [reflexivity|].
  now rewrite setQueue_twice.
Qed.

Lemma bool_decide_is_Some {A} (o : option A) :
  bool_decide (is_Some o) = match o with Some _ => true | None => false end.
Proof.
  destruct o.
  - apply bool_decide_eq_true. now eexists.
  - apply bool_decide_eq_false. intros [x Hx]. discriminate Hx.
Qed.

(** A work item handed to [enqueue] for its own channel, on a channel
    that is not running or whose queue has room for an event. *)
Lemma enqueue_serial (b : Bot) (k : string) (work : Work) :
  serial b ->
  e_channel (work_event work) = k ->
  (isRunning b k = false
   \/ (size (queueOf b k) < QUEUE_CAP /\ work_isEvent work = true)) ->
  serial (enqueue b k work).
Proof.
  intros Hs Hk Hroom ch. rewrite enqueue_eq.
  pose proof (Hs k) as Hk0. pose proof (Hs ch) as Hch.
  unfold view in Hk0, Hch. cbn [serialAt] in Hk0, Hch.
  destruct Hk0 as (Hp & Hr & Hw & Hidle & Hsize & Hall).
  rewrite bool_decide_is_Some in Hp, Hr.
  set (b1 := setQueue b k (mkQueue (queue (queueOf b k) ++ [work])
                                   (processing (queueOf b k)))).
  assert (Hq1 : queueOf b1 k = mkQueue (queue (queueOf b k) ++ [work])
                                       (processing (queueOf b k)))
    by apply queueOf_setQueue.
  destruct (processNext_view b1 k) as [Hstay Hgo]. rewrite Hq1 in Hstay, Hgo.
  cbn [processing queue] in Hstay, Hgo.
  destruct (workOf b k) as [w0|] eqn:Ew.
  - (* a run is in flight: the work waits *)
    rewrite Hstay by now left. unfold b1. rewrite view_setQueue.
    destruct (decide (k = ch)) as [<-|Hne]; [|exact Hch].
    cbn [serialAt processing queue]. rewrite Ew, bool_decide_is_Some.
    destruct Hroom as [Hidle'|[Hroom Hev]]; [congruence|].
    split; [exact Hp|]. split; [exact Hr|]. split; [exact Hw|].
    split; [discriminate|]. split.
    + unfold size in *. cbn [queue]. rewrite length_app. simpl. lia.
    + apply Forall_app. split; [exact Hall|]. now repeat constructor.
  - (* the queue is idle and empty: the work is started *)
    rewrite (Hidle eq_refl) in *. cbn [app] in *.
    rewrite (Hgo work [] Hp eq_refl). rewrite view_handleEventStart.
    unfold b1. rewrite setQueue_twice. rewrite Hk.
    change (isRunning (setQueue b k (mkQueue [] true)) ch) with (isRunning b ch).
    change (workOf (setQueue b k (mkQueue [] true)) ch) with (workOf b ch).
    destruct (decide (k = ch)) as [<-|Hne].
    + rewrite queueOf_setQueue.
      cbn [serialAt processing queue]. rewrite bool_decide_is_Some.
      split; [reflexivity|]. split; [reflexivity|]. split; [now intros x [= <-]|].
      split; [discriminate|]. split; [unfold size; simpl; lia|constructor].
    + rewrite (queueOf_setQueue_ne b k _ ch Hne). exact Hch.
Qed.

Lemma view_logUserMessage (b : Bot) (event : DiscordEvent) (ch : string) :
  view (snd (logUserMessage b event)) ch = view b ch.
Proof.
  unfold logUserMessage.
  destruct (e_files event) as [files|];
    [destruct (ChannelStore.processAttachments _ _ _ _)|]; reflexivity.
Qed.

Lemma view_handleStop (b : Bot) (k ch : string) :
  view (handleStop b k) ch = view b ch.
Proof.
  unfold handleStop.
  destruct (channelStates b !! k) as [s|] eqn:Es; [|reflexivity].
  destruct (running s) eqn:Er; [|reflexivity].
  unfold view, queueOf, isRunning, workOf. simpl. f_equal. f_equal.
  destruct (decide (k = ch)) as [<-|Hne].
  - now rewrite lookup_insert_eq, Es.
  - now rewrite lookup_insert_ne.
Qed.

Lemma view_handleStopEnd (b : Bot) (i : nat) (ch : string) :
  view (handleStopEnd b i) ch = view b ch.
Proof.
  unfold handleStopEnd.
  destruct (stopping b !! i) as [[k msg]|]; [|reflexivity]. cbn [channelStates setStopping].
  destruct (channelStates b !! k) as [s|] eqn:Es; [|reflexivity].
  unfold view, queueOf, isRunning, workOf. simpl. f_equal. f_equal.
  destruct (decide (k = ch)) as [<-|Hne].
  - now rewrite lookup_insert_eq, Es.
  - now rewrite lookup_insert_ne.
Qed.

Lemma buildEvent_channel (b : Bot) (message : Incoming) (type : EventType) :
  e_channel (buildEvent b message type) = in_channelId message.
Proof. reflexivity. Qed.

Lemma messageCreate_serial (b : Bot) (message : Incoming) :
  serial b -> serial (messageCreate b message).
Proof.
  intros Hs. unfold messageCreate.
  destruct (in_authorBot message); [exact Hs|].
  destruct (bool_decide _); [exact Hs|].
  destruct (negb (in_isDM message) && negb (in_mentionsBot message)).
  { eapply serial_same; [|exact Hs]. intros ch. apply view_logUserMessage. }
  set (ev := buildEvent b message (if in_isDM message then dm else mention)).
  pose proof (view_logUserMessage b ev) as Hv.
  destruct (logUserMessage b ev) as [atts b1]. cbn [snd] in Hv.
  assert (Hs1 : serial b1) by (eapply serial_same; [exact Hv|exact Hs]).
  destruct (beforeStartup b1 message); [exact Hs1|].
  cbn [e_text withAttachments].
  destruct (isStop (e_text ev)).
  { destruct (isRunning b1 (in_channelId message)); [|exact Hs1].
    eapply serial_same; [|exact Hs1]. intros ch. apply view_handleStop. }
  destruct (isRunning b1 (in_channelId message)) eqn:Er; [exact Hs1|].
  apply enqueue_serial; [exact Hs1|reflexivity|now left].
Qed.

Lemma enqueueEvent_serial (b : Bot) (event : DiscordEvent) :
  serial b -> serial (snd (enqueueEvent b event)).
Proof.
  intros Hs. unfold enqueueEvent, getQueue.
  assert (Hq : forall b0 : Bot,
             queueOf b0 (e_channel event)
             = fst (match queues b0 !! e_channel event with
                    | Some q => (q, b0)
                    | None => (emptyQueue, setQueue b0 (e_channel event) emptyQueue)
                    end)).
  { intros b0. unfold queueOf. now destruct (queues b0 !! e_channel event). }
  assert (Hb : forall ch,
             view (snd (match queues b !! e_channel event with
                        | Some q => (q, b)
                        | None => (emptyQueue, setQueue b (e_channel event) emptyQueue)
                        end)) ch = view b ch).
  { intros ch. destruct (queues b !! e_channel event) as [q|] eqn:E; [reflexivity|].
    cbn [snd]. rewrite view_setQueue.
    destruct (decide (e_channel event = ch)) as [<-|Hne]; [|reflexivity].
    unfold view, queueOf. now rewrite E. }
  specialize (Hq b).
  destruct (match queues b !! e_channel event with
            | Some q => (q, b)
            | None => (emptyQueue, setQueue b (e_channel event) emptyQueue)
            end) as [q b1].
  cbn [fst snd] in Hq, Hb.
  assert (Hs1 : serial b1) by (eapply serial_same; [exact Hb|exact Hs]).
  assert (Hq1 : queueOf b1 (e_channel event) = q).
  { pose proof (Hb (e_channel event)) as H. unfold view in H.
    injection H as H _ _. now rewrite H, Hq. }
  destruct (Nat.leb_spec QUEUE_CAP (size q)) as [Hfull|Hroom]; cbn [snd].
  - exact Hs1.
  - apply enqueue_serial.
    + exact Hs1.
    + reflexivity.
    + right. cbn [queueOf setWorld queues]. split; [|reflexivity].
      change (queueOf (setWorld b1 _) (e_channel event))
        with (queueOf b1 (e_channel event)).
      now rewrite Hq1.
Qed.

Lemma workOf_setCtx (b : Bot) (w : World) (k : string) (work : Work)
    (ctx ctx' : Ctx) (ch : string) :
  inflight b !! k = Some (work, ctx) ->
  workOf (setInflight (setWorld b w) (<[k := (work, ctx')]> (inflight b))) ch
  = workOf b ch.
Proof.
  intros H. unfold workOf. simpl.
  destruct (decide (k = ch)) as [<-|Hne].
  - now rewrite lookup_insert_eq, H.
  - now rewrite lookup_insert_ne.
Qed.

Lemma runActs_serial (b : Bot) (k : string) (ops : list Op) :
  serial b -> serial (runActs b k ops).
Proof.
  intros Hs. unfold runActs.
  destruct (inflight b !! k) as [[work ctx]|] eqn:E; [|exact Hs].
  destruct (runOps (ctx, world b) ops) as [ctx' w].
  eapply serial_same; [|exact Hs].
  apply view_same; try reflexivity. intros ch. now apply (workOf_setCtx b w k work ctx).
Qed.

Lemma runFinishes_serial (b : Bot) (k : string) (o : Outcome) :
  serial b -> serial (runFinishes b k o).
Proof.
  intros Hs. unfold runFinishes.
  destruct (inflight b !! k) as [[work ctx]|] eqn:E; [|exact Hs].
  destruct (finish o ctx (world b)) as [[ctx' w] deleted].
  eapply serial_same; [|exact Hs].
  apply view_same; try reflexivity. intros ch. now apply (workOf_setCtx b w k work ctx).
Qed.

Lemma view_ended (b : Bot) (w : World) (k : string) (st : ChannelState)
    (q : ChannelQueue) (ch : string) :
  view (setQueue
          (setInflight (setState (setWorld b w) k st)
                       (delete k (inflight (setState (setWorld b w) k st))))
          k q) ch
  = if decide (k = ch) then (q, running st, None) else view b ch.
Proof.
  unfold view, queueOf, isRunning, workOf. simpl.
  destruct (decide (k = ch)) as [<-|Hne].
  - now rewrite !lookup_insert_eq, lookup_delete_eq.
  - now rewrite !lookup_insert_ne, lookup_delete_ne by exact Hne.
Qed.

Lemma queueOf_ended (b : Bot) (w : World) (k : string) (st : ChannelState) :
  default emptyQueue
    (queues (setInflight (setState (setWorld b w) k st)
                         (delete k (inflight (setState (setWorld b w) k st)))) !! k)
  = queueOf b k.
Proof. reflexivity. Qed.

Lemma handleEventEnd_serial (b : Bot) (k : string) (result : RunResult) :
  serial b -> serial (handleEventEnd b k result).
Proof.
  intros Hs. unfold handleEventEnd.
  destruct (inflight b !! k) as [[work ctx]|] eqn:E; [|exact Hs].
  pose proof (Hs k) as Hk. unfold view, workOf in Hk. rewrite E in Hk.
  cbn [serialAt fmap option_fmap option_map fst] in Hk.
  destruct Hk as (_ & _ & Hw & _ & Hsize & Hall).
  rewrite (Hw work eq_refl).
  set (s := default newState (channelStates b !! k)).
  destruct (match result with
            | Returned stopReason =>
                let '(_, w) := setWorking ctx (world b) false in
                if (stopReason =? "aborted")%string && stopRequested s
                then match stopMessage s with
                     | Some m =>
                         (mkState (running s) (stopRequested s) None (abortCalls s),
                          updateMessage w m "*Stopped*")
                     | None => (s, snd (postMessage w k "*Stopped*"))
                     end
                else (s, w)
            | Threw msg =>
                (s, logWarning (world b) ("[" +:+ k +:+ "] Run error") (Some msg))
            end) as [s' w].
  set (st := mkState false (stopRequested s') (stopMessage s') (abortCalls s')).
  rewrite queueOf_ended.
  set (b3 := setQueue (setInflight (setState (setWorld b w) k st)
                         (delete k (inflight (setState (setWorld b w) k st))))
                      k (mkQueue (queue (queueOf b k)) false)).
  assert (Hv3 : forall ch,
             view b3 ch
             = if decide (k = ch)
               then (mkQueue (queue (queueOf b k)) false, false, None)
               else view b ch)
    by (intros ch; apply view_ended).
  destruct (processNext_view b3 k) as [Hstay Hgo].
  assert (Hq3 : queueOf b3 k = mkQueue (queue (queueOf b k)) false)
    by apply queueOf_setQueue.
  rewrite Hq3 in Hstay, Hgo. cbn [processing queue] in Hstay, Hgo.
  intros ch.
  destruct (queue (queueOf b k)) as [|next rest] eqn:Eq.
  - rewrite Hstay by now right. rewrite Hv3.
    destruct (decide (k = ch)) as [<-|Hne]; [|apply Hs].
    cbn [serialAt processing queue]. rewrite bool_decide_is_Some.
    repeat split; try discriminate; [unfold size; simpl; lia|constructor].
  - rewrite (Hgo next rest eq_refl eq_refl).
    apply Forall_cons in Hall. destruct Hall as [[Hnext _] Hrest].
    rewrite view_handleEventStart, Hnext.
    change (isRunning (setQueue b3 k (mkQueue rest true)) ch) with (isRunning b3 ch).
    change (workOf (setQueue b3 k (mkQueue rest true)) ch) with (workOf b3 ch).
    pose proof (Hv3 ch) as Hv. unfold view in Hv.
    destruct (decide (k = ch)) as [<-|Hne].
    + rewrite queueOf_setQueue.
      cbn [serialAt processing queue]. rewrite bool_decide_is_Some.
      split; [reflexivity|]. split; [reflexivity|].
      split; [now intros x [= <-]|]. split; [discriminate|].
      split; [|exact Hrest].
      unfold size in *. rewrite Eq in Hsize. cbn [queue length] in *. lia.
    + injection Hv as Hv1 Hv2 Hv3'.
      rewrite (queueOf_setQueue_ne b3 k _ ch Hne).
      rewrite Hv1, Hv2, Hv3'. apply Hs.
Qed.

Lemma serial_start (workingDir : string) (botUserId : option string)
    (startupTs : option Z) :
  serial (Bot.start workingDir botUserId startupTs).
Proof.
  intros ch. unfold view, queueOf, isRunning, workOf, Bot.start. simpl.
  rewrite !lookup_empty. simpl.
  repeat split; try discriminate; [unfold size, QUEUE_CAP; simpl; lia|constructor].
Qed.

Lemma reachable_serial (b : Bot) : reachable b -> serial b.
Proof.
  induction 1 as [workingDir botUserId startupTs | b b' _ IH Hstep].
  - apply serial_start.
  - destruct Hstep.
    + now apply messageCreate_serial.
    + now apply enqueueEvent_serial.
    + now apply runActs_serial.
    + now apply runFinishes_serial.
    + now apply handleEventEnd_serial.
    + eapply serial_same; [|exact IH]. intros ch. apply view_handleStopEnd.
Qed.

(** X18: every channel is served one run at a time.  Whatever messages
    and events arrive and however runs end, on each channel the queue
    is processing and the channel is marked as running exactly while a
    run is in flight, and that run belongs to the channel; work waits
    only behind a run in flight; never more than five works wait, and
    those are scheduled events of the channel, a chat message being
    started at once or refused. *)
Theorem channels_served_serially (b : Bot) (channelId : string) :
  reachable b ->
  let q := queueOf b channelId in
  (processing q = true <-> is_Some (workOf b channelId))
  /\ (isRunning b channelId = true <-> is_Some (workOf b channelId))
  /\ (forall work, workOf b channelId = Some work ->
                   e_channel (work_event work) = channelId)
  /\ (workOf b channelId = None -> queue q = [])
  /\ size q <= QUEUE_CAP
  /\ Forall (fun work => e_channel (work_event work) = channelId
                         /\ work_isEvent work = true) (queue q).
Proof.
  intros Hr q. pose proof (reachable_serial b Hr channelId) as H.
  unfold view in H. cbn [serialAt] in H. fold q in H.
  destruct H as (H1 & H2 & H3 & H4 & H5 & H6).
  rewrite H1, H2, bool_decide_eq_true. tauto.
Qed.

Lemma channels_served_serially_witness :
  let e := mkEvent mention "42" 1%N "u" "[EVENT:a.json:immediate] go" None None in
  let b := snd (enqueueEvent
                  (snd (enqueueEvent (Bot.start "/data" (Some "999"%string) None) e))
                  e) in
  size (queueOf b "42") <= QUEUE_CAP
  /\ size (queueOf b "42") = 1
  /\ isRunning b "42" = true.
Proof.
  intros e b.
  assert (Hr : reachable b).
  { eapply reach_step; [eapply reach_step; [apply reach_start|]|];
      apply step_event. }
  destruct (channels_served_serially b "42" Hr) as (_ & _ & _ & _ & H & _).
  split; [exact H|]. split; reflexivity.
Defined.

End Serial.

(** ** The directories of a channel *)

Section ChannelDirs.
Import Env Workspace.

Lemma replace_eq (s pattern replacement : string) :
  replace s pattern replacement
  = if Js.startsWith s pattern
    then replacement +:+ Js.slice (String.length pattern) s
    else match s with
         | EmptyString => EmptyString
         | String c s' => String c (replace s' pattern replacement)
         end.
Proof. now destruct s. Qed.

Lemma slice_all (s : string) : Js.slice (String.length s) s = EmptyString.
Proof. induction s as [|c s IH]; [reflexivity|exact IH]. Qed.

Lemma slice_append (p r : string) : Js.slice (String.length p) (p +:+ r) = r.
Proof. induction p as [|c p IH]; [now destruct r|exact IH]. Qed.

Lemma startsWith_refl (s : string) : Js.startsWith s s = true.
Proof. apply startsWith_iff. exists EmptyString. now rewrite append_nil_r. Qed.

(** A pattern found at the start of [x +:+ y] starts in [x] or runs
    over into [y]. *)
Lemma startsWith_app_split (p : string) :
  forall x y,
    Js.startsWith (x +:+ y) p = true ->
    Js.startsWith x p = true
    \/ exists r, p = x +:+ r /\ Js.startsWith y r = true.
Proof.
  induction p as [|a p IH]; intros x y H; [now left|].
  destruct x as [|b x].
  - right. exists (String a p). split; [reflexivity|exact H].
  - cbn [String.append Js.startsWith] in H |- *.
    apply andb_true_iff in H. destruct H as [Hab H].
    destruct (IH x y H) as [Hx|[r [-> Hr]]].
    + left. now rewrite Hab, Hx.
    + right. exists r. apply Ascii.eqb_eq in Hab. subst b. now split.
Qed.

(** Removing the first [/name] from a path that ends in the only one
    it has. *)
Lemma replace_appended (w name : string) :
  Js.includes w ("/" +:+ name) = false ->
  Js.includes_char "/" name = false ->
  replace (w +:+ "/" +:+ name) ("/" +:+ name) EmptyString = w.
Proof.
  intros Hw Hname. induction w as [|a w IH].
  - cbn [String.append]. rewrite replace_eq, startsWith_refl.
    cbn [String.append]. apply (slice_all (String "/" name)).
  - assert (Hhere : Js.startsWith (String a w) ("/" +:+ name) = false
                    /\ Js.includes w ("/" +:+ name) = false).
    { cbn [Js.includes] in Hw. apply orb_false_iff in Hw. exact Hw. }
    destruct Hhere as [Hhere Hrest].
    change (String a w +:+ "/" +:+ name)
      with (String a (w +:+ "/" +:+ name)).
    rewrite replace_eq.
    destruct (Js.startsWith (String a (w +:+ "/" +:+ name)) ("/" +:+ name)) eqn:E.
    + exfalso.
      change (String a (w +:+ "/" +:+ name))
        with (String a w +:+ ("/" +:+ name)) in E.
      apply startsWith_app_split in E. destruct E as [E|[r [Hp Hr]]].
      * congruence.
      * cbn [String.append] in Hp. injection Hp as Ha Hn. subst a.
        destruct r as [|r0 r].
        -- rewrite append_nil_r in Hn. subst name.
           change ("/" +:+ w) with (String "/" w) in Hhere.
           rewrite startsWith_refl in Hhere. discriminate Hhere.
        -- cbn [String.append Js.startsWith] in Hr.
           apply andb_true_iff in Hr. destruct Hr as [Hr0 _].
           apply Ascii.eqb_eq in Hr0. subst r0. subst name.
           rewrite includes_char_app, includes_char_cons in Hname.
           change (Js.is_char "/" "/") with true in Hname.
           rewrite orb_true_l, orb_true_r in Hname. discriminate Hname.
    + f_equal. now apply IH.
Qed.

Lemma split_on_cons_shape (sep : ascii -> bool) (s : string) :
  [] = Js.split_on sep s -> False.
Proof.
  destruct s as [|c s]; [discriminate|]. rewrite split_on_cons.
  destruct (sep c); [discriminate|]. now destruct (Js.split_on sep s).
Qed.

Lemma split_join_segments (l : list string) :
  Forall (fun s => Js.includes_char "/" s = false) l -> l <> [] ->
  Js.split_on (Js.is_char "/") (Js.join "/" l) = l.
Proof.
  induction 1 as [|seg segs Hseg Hrest IH]; intros Hne; [contradiction|].
  destruct segs as [|seg2 segs]; [now apply split_on_plain|].
  change (Js.join "/" (seg :: seg2 :: segs))
    with (seg +:+ String "/" (Js.join "/" (seg2 :: segs))).
  rewrite split_on_append by exact Hseg. f_equal. now apply IH.
Qed.

(** Normalizing an absolute path given by its segments, the last of
    them not empty. *)
Lemma normalize_joined (l : list string) (x : string) :
  Forall (fun s => Js.includes_char "/" s = false) (l ++ [x]) ->
  x <> EmptyString ->
  NodePath.normalize ("/" +:+ Js.join "/" (l ++ [x]))
  = "/" +:+ Js.join "/" (NodePath.normalizeSegments false (l ++ [x]) []).
Proof.
  intros Hall Hx.
  assert (Hxs : Js.includes_char "/" x = false).
  { apply Forall_app in Hall. destruct Hall as [_ Hall].
    now apply Forall_cons in Hall. }
  assert (Hend : NodePath.endsWithSlash ("/" +:+ Js.join "/" (l ++ [x])) = false).
  { destruct l as [|y l].
    - cbn [app Js.join]. rewrite endsWithSlash_append by exact Hx.
      now apply endsWithSlash_plain.
    - rewrite join_snoc by discriminate.
      rewrite <- !append_assoc. rewrite endsWithSlash_append by exact Hx.
      now apply endsWithSlash_plain. }
  unfold NodePath.normalize, NodePath.normalizeString.
  rewrite Hend.
  cbn [String.append Js.isEmpty NodePath.isAbsolute negb].
  change (String "/" (Js.join "/" (l ++ [x])))
    with (EmptyString +:+ String "/" (Js.join "/" (l ++ [x]))).
  rewrite split_on_append by reflexivity.
  rewrite split_join_segments by (exact Hall || now destruct l).
  change (NodePath.normalizeSegments false (EmptyString :: l ++ [x]) [])
    with (NodePath.normalizeSegments false (l ++ [x]) []).
  now destruct (Js.join "/" (NodePath.normalizeSegments false (l ++ [x]) [])).
Qed.

Lemma normalizeSegments_up (name : string) (rest acc : list string) :
  NodePath.plainSegment name ->
  NodePath.normalizeSegments false (".."%string :: rest) (name :: acc)
  = NodePath.normalizeSegments false rest acc.
Proof.
  intros (_ & _ & Hup & _). cbn [NodePath.normalizeSegments].
  change ((".." =? "")%string) with false.
  change ((".." =? ".")%string) with false.
  change ((".." =? "..")%string) with true.
  cbn [orb]. now rewrite (string_eqb_false _ _ Hup).
Qed.

Lemma normalizeSegments_keep (name : string) (rest acc : list string) :
  NodePath.plainSegment name ->
  NodePath.normalizeSegments false (name :: rest) acc
  = NodePath.normalizeSegments false rest (name :: acc).
Proof.
  intros (H1 & H2 & H3 & _). cbn [NodePath.normalizeSegments].
  now rewrite (string_eqb_false _ _ H1), (string_eqb_false _ _ H2),
    (string_eqb_false _ _ H3).
Qed.

Lemma plain_no_slash (l : list string) :
  Forall NodePath.plainSegment l ->
  Forall (fun s => Js.includes_char "/" s = false) l.
Proof. intros H. eapply Forall_impl; [exact H|]. now intros a (_ & _ & _ & Ha). Qed.

(** The directory of a channel. *)
Lemma channelDir_eq (segs : list string) (channelId : string) :
  Forall NodePath.plainSegment segs -> NodePath.plainSegment channelId ->
  pathJoin ["/" +:+ Js.join "/" segs; channelId]
  = "/" +:+ Js.join "/" (segs ++ [channelId]).
Proof.
  intros Hsegs Hch. apply pathJoin_collapsed; [exact Hsegs| |discriminate].
  constructor; [exact Hch|constructor].
Qed.

(** [join(channelDir, "..", more...)], the arguments after [..] being
    given by their segments. *)
Lemma pathJoin_up (segs : list string) (channelId : string) (more : list string) :
  Forall NodePath.plainSegment segs -> NodePath.plainSegment channelId ->
  Forall NodePath.plainSegment more ->
  NodePath.normalize ("/" +:+ Js.join "/" (segs ++ [channelId])
                      +:+ "/" +:+ Js.join "/" (".."%string :: more))
  = "/" +:+ Js.join "/" (segs ++ more).
Proof.
  intros Hsegs Hch Hmore.
  rewrite <- (join_app (segs ++ [channelId]) (".."%string :: more))
    by (discriminate || now destruct segs).
  assert (Hlast : exists l x, (segs ++ [channelId]) ++ ".."%string :: more = l ++ [x]
                              /\ x <> EmptyString).
  { destruct (list_eq_nil_dec more) as [->|Hne].
    - exists (segs ++ [channelId]), ".."%string. split; [reflexivity|discriminate].
    - destruct (exists_last Hne) as [m [x ->]].
      exists ((segs ++ [channelId]) ++ ".."%string :: m), x.
      split; [exact (List.app_assoc (segs ++ [channelId]) (".."%string :: m) [x])|].
      apply Forall_app in Hmore. destruct Hmore as [_ Hx].
      apply Forall_cons in Hx. now destruct Hx as [[Hx _] _]. }
  destruct Hlast as (l & x & El & Hx).
  assert (Hall : Forall (fun s => Js.includes_char "/" s = false)
                        ((segs ++ [channelId]) ++ ".."%string :: more)).
  { apply Forall_app. split.
    - apply plain_no_slash, Forall_app. split; [exact Hsegs|].
      constructor; [exact Hch|constructor].
    - constructor; [reflexivity|now apply plain_no_slash]. }
  rewrite El in Hall |- *. rewrite (normalize_joined l x Hall Hx). rewrite <- El.
  f_equal. f_equal.
  rewrite <- app_assoc.
  rewrite (normalizeSegments_through segs Hsegs).
  change ([channelId] ++ ".."%string :: more) with (channelId :: ".."%string :: more).
  rewrite normalizeSegments_keep, normalizeSegments_up by exact Hch.
  rewrite (normalizeSegments_id more Hmore). rewrite app_nil_r.
  now rewrite rev_involutive.
Qed.

(** The parent of a channel's directory is the working directory. *)
Lemma parent_of_channelDir (segs : list string) (channelId : string) :
  Forall NodePath.plainSegment segs -> NodePath.plainSegment channelId ->
  pathJoin ["/" +:+ Js.join "/" (segs ++ [channelId]); ".."%string]
  = "/" +:+ Js.join "/" segs.
Proof.
  intros Hsegs Hch. unfold pathJoin.
  rewrite filter_truthy_all by (repeat constructor; discriminate).
  change (Js.join "/" ["/" +:+ Js.join "/" (segs ++ [channelId]); ".."%string])
    with ("/" +:+ Js.join "/" (segs ++ [channelId])
          +:+ "/" +:+ Js.join "/" [".."%string]).
  rewrite (pathJoin_up segs channelId [] Hsegs Hch) by constructor.
  now rewrite app_nil_r.
Qed.

(** [join(channelDir, "..", name)] for a plain name. *)
Lemma sibling_of_channelDir (segs : list string) (channelId name : string) :
  Forall NodePath.plainSegment segs -> NodePath.plainSegment channelId ->
  NodePath.plainSegment name ->
  pathJoin ["/" +:+ Js.join "/" (segs ++ [channelId]); ".."%string; name]
  = "/" +:+ Js.join "/" (segs ++ [name]).
Proof.
  intros Hsegs Hch Hname. unfold pathJoin.
  rewrite filter_truthy_all.
  2:{ repeat constructor; try discriminate. now destruct Hname. }
  change (Js.join "/" ["/" +:+ Js.join "/" (segs ++ [channelId]); ".."%string; name])
    with ("/" +:+ Js.join "/" (segs ++ [channelId])
          +:+ "/" +:+ Js.join "/" [".."%string; name]).
  apply (pathJoin_up segs channelId [name] Hsegs Hch).
  constructor; [exact Hname|constructor].
Qed.

(** X19: the workspace directory that [createRunner] derives from a
    channel's directory by removing [/channelId] is the working
    directory again, and agrees with the parent directory that the
    memory, the skills and the settings are read from, provided the
    working directory itself does not contain [/channelId]. *)
Theorem hostWorkspaceDir_is_workingDir (workingDir channelId : string) :
  NodePath.collapsed workingDir ->
  workingDir <> "/"%string ->
  NodePath.plainSegment channelId ->
  Js.includes workingDir ("/" +:+ channelId) = false ->
  let channelDir := pathJoin [workingDir; channelId] in
  hostWorkspaceDir channelDir channelId = workingDir
  /\ pathJoin [channelDir; ".."%string] = workingDir.
Proof.
  intros [segs [-> Hsegs]] Hroot Hch Hfree channelDir. subst channelDir.
  rewrite channelDir_eq by assumption. split.
  - unfold hostWorkspaceDir.
    destruct segs as [|seg segs]; [now contradiction Hroot|].
    rewrite join_snoc by discriminate. rewrite <- !append_assoc.
    rewrite append_assoc.
    apply replace_appended; [exact Hfree|]. now destruct Hch as (_ & _ & _ & H).
  - now apply parent_of_channelDir.
Qed.

Lemma hostWorkspaceDir_is_workingDir_witness :
  hostWorkspaceDir (pathJoin ["/srv/mother/data"; "1203"]%string) "1203"
  = "/srv/mother/data"%string
  /\ hostWorkspaceDir (pathJoin ["/srv/1203x/data"; "1203"]%string) "1203"
     = "/srvx/data/1203"%string.
Proof.
  split; [|reflexivity].
  refine (proj1 (hostWorkspaceDir_is_workingDir "/srv/mother/data" "1203" _ _ _ _)).
  - exists ["srv"; "mother"; "data"]%string. split; [reflexivity|].
    repeat constructor; discriminate.
  - discriminate.
  - repeat split; discriminate.
  - reflexivity.
Defined.

(** X20: in a Docker sandbox a path below [/workspace] is translated to
    the same place below the host's working directory, whether or not
    it lies in the channel's own directory; on the host, paths are
    left as they are. *)
Theorem translateToHostPath_same_place
    (workingDir channelId : string) (rel : list string) :
  NodePath.collapsed workingDir ->
  workingDir <> "/"%string ->
  NodePath.plainSegment channelId ->
  Forall NodePath.plainSegment rel -> rel <> [] ->
  let channelDir := pathJoin [workingDir; channelId] in
  translateToHostPath ("/workspace/" +:+ Js.join "/" rel)
                      channelDir "/workspace" channelId
  = workingDir +:+ "/" +:+ Js.join "/" rel
  /\ (forall containerPath workspacePath,
        workspacePath <> "/workspace"%string ->
        translateToHostPath containerPath channelDir workspacePath channelId
        = containerPath).
Proof.
  intros [segs [-> Hsegs]] Hroot Hch Hrel Hne channelDir. subst channelDir.
  split.
  2:{ intros p wp Hwp. unfold translateToHostPath.
      now rewrite (string_eqb_false _ _ Hwp). }
  rewrite channelDir_eq by assumption.
  assert (Hsegs' : segs <> []) by (intros ->; now apply Hroot).
  assert (Hgoal : "/" +:+ Js.join "/" (segs ++ rel)
                  = ("/" +:+ Js.join "/" segs) +:+ "/" +:+ Js.join "/" rel).
  { rewrite join_app by assumption. reflexivity. }
  rewrite <- Hgoal. clear Hgoal.
  unfold translateToHostPath.
  change (("/workspace" =? "/workspace")%string) with true. cbv iota.
  destruct (Js.startsWith ("/workspace/" +:+ Js.join "/" rel)
              ("/workspace/" +:+ channelId +:+ "/")) eqn:E.
  - apply startsWith_iff in E. destruct E as [tail E].
    rewrite E at 1. rewrite slice_append.
    assert (Etail : Js.join "/" rel = channelId +:+ String "/" tail).
    { cbn [String.append] in E. injection E as E.
      rewrite E. now rewrite append_assoc. }
    destruct rel as [|r1 rel]; [contradiction|].
    apply Forall_cons in Hrel. destruct Hrel as [Hr1 Hrel].
    pose proof (f_equal (Js.split_on (Js.is_char "/")) Etail) as Es.
    rewrite split_on_append in Es by now destruct Hch as (_ & _ & _ & H).
    rewrite split_join in Es by (now constructor || discriminate).
    injection Es as -> Es.
    destruct rel as [|r2 rel]; [now apply split_on_cons_shape in Es|].
    assert (Ejoin : Js.join "/" (r2 :: rel) = tail).
    { change (Js.join "/" (channelId :: r2 :: rel))
        with (channelId +:+ String "/" (Js.join "/" (r2 :: rel))) in Etail.
      revert Etail. clear. induction channelId as [|c s IH]; cbn [String.append].
      - intros [= H]. exact H.
      - intros [= H]. now apply IH. }
    rewrite <- Ejoin.
    unfold pathJoin. rewrite filter_truthy_all.
    2:{ repeat constructor; [discriminate|].
        now destruct (join_plain (r2 :: rel) Hrel). }
    change (Js.join "/" ["/" +:+ Js.join "/" (segs ++ [channelId]);
                         Js.join "/" (r2 :: rel)])
      with ("/" +:+ Js.join "/" (segs ++ [channelId])
            +:+ "/" +:+ Js.join "/" (r2 :: rel)).
    rewrite <- (join_app (segs ++ [channelId]) (r2 :: rel))
      by (discriminate || now destruct segs).
    rewrite <- app_assoc. cbn [app].
    apply normalize_collapsed. eexists. split; [reflexivity|].
    apply Forall_app. split; [exact Hsegs|]. now constructor.
  - change (Js.startsWith ("/workspace/" +:+ Js.join "/" rel) "/workspace/")
      with true. cbv iota.
    change (Js.slice (String.length "/workspace/")
                     ("/workspace/" +:+ Js.join "/" rel))
      with (Js.join "/" rel).
    unfold pathJoin. rewrite filter_truthy_all.
    2:{ repeat constructor; try discriminate.
        now destruct (join_plain rel Hrel Hne). }
    change (Js.join "/" ["/" +:+ Js.join "/" (segs ++ [channelId]);
                         ".."%string; Js.join "/" rel])
      with ("/" +:+ Js.join "/" (segs ++ [channelId])
            +:+ "/" +:+ ".." +:+ "/" +:+ Js.join "/" rel).
    replace (".." +:+ "/" +:+ Js.join "/" rel)
      with (Js.join "/" (".."%string :: rel)).
    2:{ destruct rel; [contradiction|reflexivity]. }
    now apply pathJoin_up.
Qed.

Lemma translateToHostPath_same_place_witness :
  translateToHostPath "/workspace/1203/scratch/plot.png"
                      (pathJoin ["/srv/mother/data"; "1203"]%string)
                      "/workspace" "1203"
  = "/srv/mother/data/1203/scratch/plot.png"%string
  /\ translateToHostPath "/workspace/skills/chart/run.sh"
                         (pathJoin ["/srv/mother/data"; "1203"]%string)
                         "/workspace" "1203"
     = "/srv/mother/data/skills/chart/run.sh"%string.
Proof.
  assert (Hw : NodePath.collapsed "/srv/mother/data").
  { exists ["srv"; "mother"; "data"]%string. split; [reflexivity|].
    repeat constructor; discriminate. }
  assert (Hc : NodePath.plainSegment "1203") by (repeat split; discriminate).
  split.
  - refine (proj1 (translateToHostPath_same_place "/srv/mother/data" "1203"
                     ["1203"; "scratch"; "plot.png"]%string Hw _ Hc _ _)).
    + discriminate.
    + repeat constructor; discriminate.
    + discriminate.
  - reflexivity.
Defined.

End ChannelDirs.

(** ** Memory and notes in the prompt *)

Section MemoryFacts.
Import Env Memory.

Lemma clipped_length (max : nat) (content notice : string) :
  String.length (if max <? String.length content
                 then Js.substring0 max content +:+ notice
                 else content)
  <= max + String.length notice.
Proof.
  destruct (Nat.ltb_spec max (String.length content)).
  - rewrite length_append, substring0_length. lia.
  - lia.
Qed.

Lemma clipped_within (max : nat) (content notice : string) :
  String.length content <= max ->
  (if max <? String.length content
   then Js.substring0 max content +:+ notice
   else content) = content.
Proof. intros H. destruct (Nat.ltb_spec max (String.length content)); [lia|reflexivity]. Qed.

(** X21: the memory section of the prompt is bounded whatever the
    memory files hold: [getMemory] returns at most 2707 characters
    and never an empty text.  When neither memory file has anything
    to quote (it is missing, unreadable or blank), the section is
    the placeholder. *)
Theorem getMemory_bounded (disk : Disk) (channelDir : string) :
  let memory := fst (getMemory disk channelDir) in
  String.length memory <= 2707
  /\ memory <> EmptyString
  /\ (silent disk (pathJoin [channelDir; ".."; "MEMORY.md"]%string) ->
      silent disk (pathJoin [channelDir; "MEMORY.md"]%string) ->
      memory = "(no working memory yet)"%string).
Proof.
  intros memory. subst memory. unfold getMemory, silent.
  set (gp := pathJoin [channelDir; ".."; "MEMORY.md"]%string).
  set (cp := pathJoin [channelDir; "MEMORY.md"]%string).
  cbv zeta.
  pose proof (fun c => clipped_length 1500 c globalTruncated) as Hg.
  pose proof (fun c => clipped_length 1000 c channelTruncated) as Hc.
  change (String.length globalTruncated) with 74 in Hg.
  change (String.length channelTruncated) with 75 in Hc.
  destruct (disk !! gp) as [[rawG|errG]|];
    [destruct (Js.truthy (Js.trim rawG)) eqn:Eg| |];
    (destruct (disk !! cp) as [[rawC|errC]|];
     [destruct (Js.truthy (Js.trim rawC)) eqn:Ec| |]);
    cbn [fst app Js.join];
    (split; [|split]);
    try (intros Hs1 Hs2;
         try (rewrite Hs1 in Eg; discriminate Eg);
         try (rewrite Hs2 in Ec; discriminate Ec);
         reflexivity);
    try (cbn [String.append]; discriminate);
    rewrite ?length_append; cbn [String.length];
    change (String.length newline2) with 2;
    try (specialize (Hg (Js.trim rawG)));
    try (specialize (Hc (Js.trim rawC)));
    lia.
Qed.

(** X22: the notes section of the prompt is bounded: [getMotherNotes]
    returns at most 3037 characters; notes of at most 3000 characters
    are quoted in full, without the blanks around them. *)
Theorem getMotherNotes_bounded (disk : Disk) (channelDir : string) :
  let notes := fst (getMotherNotes disk channelDir) in
  String.length notes <= 3037
  /\ (forall raw,
        disk !! pathJoin [channelDir; ".."; "MOTHER.md"]%string = Some (Text raw) ->
        String.length (Js.trim raw) <= 3000 ->
        notes = Js.trim raw).
Proof.
  intros notes. subst notes. unfold getMotherNotes.
  set (mp := pathJoin [channelDir; ".."; "MOTHER.md"]%string). cbv zeta.
  pose proof (fun c => clipped_length 3000 c notesTruncated) as Hn.
  change (String.length notesTruncated) with 37 in Hn.
  destruct (disk !! mp) as [[raw|err]|];
    [destruct (Js.truthy (Js.trim raw)) eqn:E| |]; cbn [fst].
  - split; [apply Hn|]. intros raw' [= <-] Hlen. now apply clipped_within.
  - split; [simpl; lia|]. intros raw' [= <-] _.
    apply truthy_false in E. now rewrite E.
  - split; [simpl; lia|]. intros raw' H. discriminate H.
  - split; [simpl; lia|]. intros raw' H. discriminate H.
Qed.

End MemoryFacts.

(** ** Skills *)

Section SkillFacts.
Import Env Skills.
Context {Rest : Type}.

Lemma mapSet_keys {V} (m : list (string * V)) (key : string) (value : V) :
  forall k, k ∈ map fst (mapSet m key value) <-> k ∈ map fst m \/ k = key.
Proof.
  induction m as [|[k0 v0] m IH]; intros k; cbn [mapSet].
  - cbn [map fst]. rewrite list_elem_of_singleton. split; [now right|].
    intros [H|H]; [inversion H|exact H].
  - destruct (String.eqb_spec k0 key) as [->|Hne]; cbn [map fst].
    + rewrite !elem_of_cons. tauto.
    + rewrite !elem_of_cons, IH. tauto.
Qed.

Lemma mapSet_keyed (m : list (string * Skill Rest)) (skill : Skill Rest) :
  keyed m -> keyed (mapSet m (name skill) skill).
Proof.
  intros [Hk Hn]. induction m as [|[k0 v0] m IH]; cbn [mapSet].
  - split; [now repeat constructor|]. cbn [map fst]. apply NoDup_singleton.
  - apply Forall_cons in Hk. destruct Hk as [Hk0 Hk]. cbn [fst snd] in Hk0.
    cbn [map fst] in Hn. apply NoDup_cons in Hn. destruct Hn as [Hnot Hn].
    destruct (String.eqb_spec k0 (name skill)) as [E|Hne].
    + split.
      * constructor; [exact E|exact Hk].
      * cbn [map fst]. now apply NoDup_cons.
    + destruct (IH Hk Hn) as [IHk IHn]. split.
      * constructor; [exact Hk0|exact IHk].
      * cbn [map fst]. apply NoDup_cons. split; [|exact IHn].
        rewrite mapSet_keys. intros [H|H]; [now apply Hnot|now apply Hne].
Qed.

Lemma mapSet_find (m : list (string * Skill Rest)) (skill : Skill Rest) (n : string) :
  keyed m ->
  find (named n) (mapValues (mapSet m (name skill) skill))
  = if (name skill =? n)%string then Some skill
    else find (named n) (mapValues m).
Proof.
  intros [Hk Hn]. unfold mapValues, named.
  induction m as [|[k0 v0] m IH]; cbn [mapSet map snd find].
  - now destruct (name skill =? n)%string.
  - apply Forall_cons in Hk. destruct Hk as [Hk0 Hk]. cbn [fst snd] in Hk0.
    cbn [map fst] in Hn. apply NoDup_cons in Hn. destruct Hn as [Hnot Hn].
    subst k0.
    destruct (String.eqb_spec (name v0) (name skill)) as [E|Hne];
      cbn [map snd find].
    + rewrite E. now destruct (name skill =? n)%string.
    + destruct (String.eqb_spec (name v0) n) as [En|Hn0].
      * subst n. now rewrite (proj2 (String.eqb_neq _ _)) by congruence.
      * now apply IH.
Qed.

Lemma find_app_or {A} (f : A -> bool) (l l' : list A) :
  find f (l ++ l') = match find f l with
                     | Some x => Some x
                     | None => find f l'
                     end.
Proof.
  induction l as [|a l IH]; [reflexivity|]. cbn [app find].
  now destruct (f a).
Qed.

Lemma loadInto_eq (host workspacePath : string)
    (m : list (string * Skill Rest)) (skill : Skill Rest) :
  loadInto host workspacePath m skill
  = mapSet m (name (translated host workspacePath skill))
           (translated host workspacePath skill).
Proof. reflexivity. Qed.

Lemma load_all (host workspacePath : string) (skills : list (Skill Rest)) :
  forall m, keyed m ->
    keyed (fold_left (loadInto host workspacePath) skills m)
    /\ forall n,
         find (named n) (mapValues (fold_left (loadInto host workspacePath) skills m))
         = match lastNamed n skills with
           | Some skill => Some (translated host workspacePath skill)
           | None => find (named n) (mapValues m)
           end.
Proof.
  induction skills as [|skill skills IH]; intros m Hm; cbn [fold_left].
  - split; [exact Hm|reflexivity].
  - rewrite loadInto_eq.
    destruct (IH _ (mapSet_keyed m (translated host workspacePath skill) Hm))
      as [IHk IHf].
    split; [exact IHk|]. intros n. rewrite IHf.
    unfold lastNamed. cbn [rev]. rewrite find_app_or.
    destruct (find (named n) (rev skills)) as [found|]; [reflexivity|].
    rewrite mapSet_find by exact Hm.
    cbn [find translated name]. unfold named.
    now destruct (name skill =? n)%string.
Qed.

(** X23: a channel's skills override the workspace's.  No two skills
    that [loadMotherSkills] returns share a name; under each name it
    returns the skill loaded last under that name from the channel's
    directory or, if the channel has none, from the workspace's
    directory, with its paths translated for the sandbox. *)
Theorem loadMotherSkills_channel_overrides
    (loadSkillsFromDir : string -> string -> list (Skill Rest))
    (channelDir workspacePath : string) :
  let host := pathJoin [channelDir; ".."%string] in
  let workspace := loadSkillsFromDir (pathJoin [host; "skills"%string])
                                     "workspace"%string in
  let channel := loadSkillsFromDir (pathJoin [channelDir; "skills"%string])
                                   "channel"%string in
  let result := loadMotherSkills loadSkillsFromDir channelDir workspacePath in
  NoDup (map name result)
  /\ forall n,
       find (named n) result
       = translated host workspacePath
         <$> match lastNamed n channel with
             | Some skill => Some skill
             | None => lastNamed n workspace
             end.
Proof.
  intros host workspace channel result. subst result. unfold loadMotherSkills.
  fold host. fold workspace. fold channel.
  assert (H0 : keyed (@nil (string * Skill Rest)))
    by (split; [apply Forall_nil_2|apply NoDup_nil_2]).
  destruct (load_all host workspacePath workspace [] H0) as [Hk1 Hf1].
  destruct (load_all host workspacePath channel _ Hk1) as [Hk2 Hf2].
  split.
  - destruct Hk2 as [Hkey Hnd]. unfold mapValues.
    replace (map name (map snd (fold_left (loadInto host workspacePath) channel
               (fold_left (loadInto host workspacePath) workspace []))))
      with (map fst (fold_left (loadInto host workspacePath) channel
               (fold_left (loadInto host workspacePath) workspace []))); [exact Hnd|].
    rewrite map_map. apply map_ext_Forall. exact Hkey.
  - intros n. rewrite Hf2.
    destruct (lastNamed n channel) as [skill|]; [reflexivity|].
    rewrite Hf1. now destruct (lastNamed n workspace).
Qed.

End SkillFacts.
